(** * Security metrics dashboard loader: the aggregation layer

    A shallow embedding of [security_dashboard_loader.py]: the loader's
    derived columns, the relational store filled by [to_sql], the nine
    dashboard queries and the reshape of the aging table.

    Conventions of the embedding.
    - A table is the list of its rows, in row order (the order of the
      DataFrame, which is the insertion order of the SQLite table).
    - A nullable text cell is an [option string] ([None] is NaN / NULL),
      a nullable numeric cell an [option Q].  A finite REAL is
      represented by the rational it denotes, so comparisons are the
      engine's, while arithmetic (AVG, division, ROUND) is exact.
    - The queries are executed by SQLite.  GROUP BY runs through a
      sorter and emits one row per distinct key, in the sorter's order;
      ORDER BY is a stable sort of the emitted rows; when the ORDER BY
      has as many terms as the GROUP BY, the grouping sorter takes the
      ASC/DESC flags of the ORDER BY terms.  Text is compared bytewise
      (BINARY collation) and NULL sorts before any value. *)

From Stdlib Require Import String Ascii ZArith QArith Qround Qabs Bool Lia Lqa.
From Stdlib Require Import List Sorted Permutation OrdersEx.
Import ListNotations.

Set Implicit Arguments.
Open Scope Z_scope.

(* ================================================================== *)
(** ** Python exceptions and the error monad *)

Inductive exn : Type :=
| ValueError_float (text : string)
    (* could not convert string to float *)
| ValueError_duplicate_entries.
    (* Index contains duplicate entries, cannot reshape *)

Inductive result (A : Type) : Type :=
| Ok (a : A)
| Raise (e : exn).

Arguments Ok {A} a.
Arguments Raise {A} e.

Definition bind {A B : Type} (m : result A) (k : A -> result B) : result B :=
  match m with
  | Ok a => k a
  | Raise e => Raise e
  end.

Notation "x <- m ;; k" := (bind m (fun x => k))
  (at level 61, m at next level, right associativity).

Fixpoint mapM {A B : Type} (f : A -> result B) (l : list A) : result (list B) :=
  match l with
  | [] => Ok []
  | a :: t => b <- f a ;; bs <- mapM f t ;; Ok (b :: bs)
  end.

(* ================================================================== *)
(** ** Orders on keys *)

Class Cmp (K : Type) := cmp : K -> K -> comparison.

#[global] Instance cmp_string : Cmp string := String_as_OT.compare.

#[global] Instance cmp_Z : Cmp Z := Z.compare.

(** NULL sorts before every value. *)
#[global] Instance cmp_option {K : Type} `{Cmp K} : Cmp (option K) :=
  fun a b =>
    match a, b with
    | None, None => Eq
    | None, Some _ => Lt
    | Some _, None => Gt
    | Some x, Some y => cmp x y
    end.

(** Several sort terms compare lexicographically. *)
#[global] Instance cmp_prod {K1 K2 : Type} `{Cmp K1} `{Cmp K2} : Cmp (K1 * K2) :=
  fun a b =>
    match cmp (fst a) (fst b) with
    | Eq => cmp (snd a) (snd b)
    | c => c
    end.

Definition leb {K : Type} `{Cmp K} (a b : K) : bool :=
  match cmp a b with Gt => false | _ => true end.

Definition eqk {K : Type} `{Cmp K} (a b : K) : bool :=
  match cmp a b with Eq => true | _ => false end.

(* ================================================================== *)
(** ** Sorting, grouping, truncation *)

Section Sorting.
Variable A : Type.
Variable le : A -> A -> bool.

(** Insertion in front of the first element that does not precede [x]:
    with [sort_by] folding from the right, rows that compare equal keep
    their relative order. *)
Fixpoint insert_by (x : A) (l : list A) : list A :=
  match l with
  | [] => [x]
  | y :: t => if le x y then x :: l else y :: insert_by x t
  end.

Definition sort_by (l : list A) : list A := fold_right insert_by [] l.

End Sorting.

Section Grouping.
Variables (R K : Type).
Context `{Cmp K}.

Fixpoint insert_key (k : K) (l : list K) : list K :=
  match l with
  | [] => [k]
  | y :: t =>
      match cmp k y with
      | Lt => k :: l
      | Eq => l
      | Gt => y :: insert_key k t
      end
  end.

(** The distinct keys, ascending. *)
Definition distinct_keys (ks : list K) : list K := fold_right insert_key [] ks.

(** GROUP BY: one group per distinct key, ascending, each with the rows
    that carry the key (in row order). *)
Definition group_by (key : R -> K) (rows : list R) : list (K * list R) :=
  map (fun k => (k, filter (fun r => eqk (key r) k) rows))
      (distinct_keys (map key rows)).

(** The same groups when the grouping sorter runs with the DESC flag. *)
Definition group_by_desc (key : R -> K) (rows : list R) : list (K * list R) :=
  rev (group_by key rows).

End Grouping.

(** ORDER BY [f] DESC over emitted rows. *)
Definition order_by_desc {A : Type} (f : A -> Z) (l : list A) : list A :=
  sort_by (fun a b => Z.leb (f b) (f a)) l.

(** ORDER BY [f] (ascending) over emitted rows. *)
Definition order_by {A K : Type} `{Cmp K} (f : A -> K) (l : list A) : list A :=
  sort_by (fun a b => leb (f a) (f b)) l.

(** LIMIT n. *)
Definition limit {A : Type} (n : nat) (l : list A) : list A := firstn n l.

(* ================================================================== *)
(** ** SQL scalar and aggregate functions *)

(** [X = 'text'] in a WHERE or WHEN: NULL is not true. *)
Definition sql_eq (x : option string) (s : string) : bool :=
  match x with
  | Some v => String.eqb v s
  | None => false
  end.

Definition is_not_null {A : Type} (x : option A) : bool :=
  match x with Some _ => true | None => false end.

(** COUNT( * ) of a group. *)
Definition count {A : Type} (g : list A) : Z := Z.of_nat (length g).

(** SUM(CASE WHEN c THEN 1 ELSE 0 END) of a group. *)
Definition sum_case {A : Type} (c : A -> bool) (g : list A) : Z :=
  fold_right (fun r acc => (if c r then 1 else 0) + acc) 0 g.

Definition non_null {A : Type} (l : list (option A)) : list A :=
  flat_map (fun x => match x with Some v => [v] | None => [] end) l.

Definition Qsum (l : list Q) : Q := fold_right Qplus (0 : Q) l.

(** AVG ignores NULL and is NULL over no value. *)
Definition sql_avg (l : list (option Q)) : option Q :=
  match non_null l with
  | [] => None
  | xs => Some (Qsum xs / inject_Z (Z.of_nat (length xs)))%Q
  end.

(** Nearest integer, halves away from zero. *)
Definition round_half_away (q : Q) : Z :=
  if Qle_bool 0 q then Qfloor (q + (1 # 2)) else - Qfloor (- q + (1 # 2)).

(** ROUND(x, n): [x] to [n] decimals. *)
Definition sql_round (x : Q) (n : nat) : Q :=
  let s := 10 ^ Z.of_nat n in
  Qred (Qmake (round_half_away (x * inject_Z s)) (Z.to_pos s)).

(* ================================================================== *)
(** ** Timestamps

    [pd.to_datetime(..., errors='coerce')] leaves a timestamp or NaT in
    each date cell; [to_sql] stores a timestamp as the text of
    [isoformat(' ')] and NaT as NULL.  The store compares and formats
    that text. *)

Record datetime : Type := {
  year : N; month : N; day : N;
  hour : N; minute : N; second : N; microsecond : N
}.

Definition digit_char (n : N) : ascii := ascii_of_N (48 + n mod 10).

Definition pad2 (n : N) : string :=
  String (digit_char (n / 10)) (String (digit_char n) EmptyString).

Definition pad4 (n : N) : string :=
  String (digit_char (n / 1000)) (String (digit_char (n / 100)) (pad2 n)).

Definition pad6 (n : N) : string :=
  String (digit_char (n / 100000)) (String (digit_char (n / 10000)) (pad4 n)).

(** The stored text: [YYYY-MM-DD HH:MM:SS], with [.ffffff] when the
    microseconds are not zero. *)
Definition isoformat (d : datetime) : string :=
  (pad4 (year d) ++ "-" ++ pad2 (month d) ++ "-" ++ pad2 (day d) ++ " "
   ++ pad2 (hour d) ++ ":" ++ pad2 (minute d) ++ ":" ++ pad2 (second d)
   ++ (if (microsecond d =? 0)%N then EmptyString else "." ++ pad6 (microsecond d)))%string.

(** [strftime('%Y-%m', X)] on a stored timestamp; NULL on NULL. *)
Definition strftime_Ym (x : option datetime) : option string :=
  option_map (fun d => (pad4 (year d) ++ "-" ++ pad2 (month d))%string) x.

(* ================================================================== *)
(** ** The three datasets (the columns the program reads) *)

Module Incident.

Record raw : Type := {
  Date_Reported : option datetime;
  Date_Resolved : option datetime;
  Severity : option string;
  Incident_Type : option string;
  Status : option string;
  Response_Time_Min : option Q
}.

(** A row of table [incidents]: the DataFrame row with its derived
    column. *)
Record row : Type := {
  base : raw;
  Response_Time_Hours : option Q
}.

End Incident.

Module Vulnerability.

Record row : Type := {
  Department : option string;
  Severity : option string;
  First_Detected : option datetime;
  Days_Open : option Q;
  Solution_Status : option string;
  Vulnerability_Title : option string
}.

End Vulnerability.

(** A Python float: [float()] also yields the non-finite values. *)
Inductive pyfloat : Type :=
| Finite (q : Q)
| PosInf
| NegInf
| NaN.

Module Phishing.

Record raw : Type := {
  Launch_Date : option datetime;
  Follow_up_Date : option datetime;
  Campaign_Name : option string;
  Department : option string;
  Click_Rate : option string
}.

(** A row of table [phishing_campaigns]. *)
Record row : Type := {
  base : raw;
  Click_Rate_Percent : option pyfloat
}.

End Phishing.

(* ================================================================== *)
(** ** Decimal text *)

Definition is_digit (c : ascii) : bool :=
  let n := N_of_ascii c in ((48 <=? n) && (n <=? 57))%N.

Definition digit_val (c : ascii) : Z := Z.of_N (N_of_ascii c) - 48.

Definition digits_val (ds : list ascii) : Z :=
  fold_left (fun acc c => acc * 10 + digit_val c) ds 0.

Definition pow10 (e : Z) : Q :=
  if 0 <=? e then inject_Z (10 ^ e) else (/ inject_Z (10 ^ (- e)))%Q.

(** The number written by sign, integer digits [ip], fraction digits
    [fp] and decimal exponent [e]. *)
Definition decimal_value (neg : bool) (ip fp : list ascii) (e : Z) : Q :=
  let m := (inject_Z (digits_val (ip ++ fp)) * pow10 (e - Z.of_nat (length fp)))%Q in
  Qred (if neg then (- m)%Q else m).

Fixpoint span_digits (s : list ascii) : list ascii * list ascii :=
  match s with
  | c :: t =>
      if is_digit c then let (ds, r) := span_digits t in (c :: ds, r)
      else ([], s)
  | [] => ([], [])
  end.

Fixpoint skip_while (p : ascii -> bool) (s : list ascii) : list ascii :=
  match s with
  | c :: t => if p c then skip_while p t else s
  | [] => []
  end.

Definition take_sign (s : list ascii) : bool * list ascii :=
  match s with
  | c :: t =>
      if Ascii.eqb c "-" then (true, t)
      else if Ascii.eqb c "+" then (false, t)
      else (false, s)
  | [] => (false, [])
  end.

Definition is_exp_mark (c : ascii) : bool := Ascii.eqb c "e" || Ascii.eqb c "E".

(* ================================================================== *)
(** ** Python: [str.rstrip] and [float] *)

Fixpoint mem_char (c : ascii) (chars : string) : bool :=
  match chars with
  | EmptyString => false
  | String a t => Ascii.eqb c a || mem_char c t
  end.

(** [s.rstrip(chars)]: drop every trailing character that is in
    [chars]. *)
Fixpoint py_rstrip (chars : string) (s : string) : string :=
  match s with
  | EmptyString => EmptyString
  | String a t =>
      match py_rstrip chars t with
      | EmptyString => if mem_char a chars then EmptyString else String a EmptyString
      | t' => String a t'
      end
  end.

(** White space of [str.strip] among the one-byte characters. *)
Definition py_isspace (c : ascii) : bool :=
  let n := N_of_ascii c in
  (((9 <=? n) && (n <=? 13)) || ((28 <=? n) && (n <=? 32)))%N.

Definition py_strip (s : list ascii) : list ascii :=
  rev (skip_while py_isspace (rev (skip_while py_isspace s))).

Definition lower (c : ascii) : ascii :=
  let n := N_of_ascii c in
  if ((65 <=? n) && (n <=? 90))%N then ascii_of_N (n + 32) else c.

Definition chars_eqb (a : list ascii) (b : string) : bool :=
  String.eqb (string_of_list_ascii a) b.

(** The rest of a digitpart after its first digit:
    [digit (["_"] digit)*]. *)
Fixpoint py_digitpart_tail (s : list ascii) : list ascii * list ascii :=
  match s with
  | c :: t =>
      if is_digit c then
        let (ds, r) := py_digitpart_tail t in (c :: ds, r)
      else if Ascii.eqb c "_" then
        match t with
        | d :: t' =>
            if is_digit d then
              let (ds, r) := py_digitpart_tail t' in (d :: ds, r)
            else ([], s)
        | [] => ([], s)
        end
      else ([], s)
  | [] => ([], [])
  end.

Definition py_digitpart (s : list ascii) : option (list ascii * list ascii) :=
  match s with
  | c :: t =>
      if is_digit c then
        let (ds, r) := py_digitpart_tail t in Some (c :: ds, r)
      else None
  | [] => None
  end.

Definition starts_with_point (s : list ascii) : option (list ascii) :=
  match s with
  | c :: t => if Ascii.eqb c "." then Some t else None
  | [] => None
  end.

(** [number ::= [digitpart] "." digitpart | digitpart ["."]]:
    integer digits, fraction digits, rest. *)
Definition py_number (s : list ascii)
  : option (list ascii * list ascii * list ascii) :=
  match py_digitpart s with
  | Some (ip, r) =>
      match starts_with_point r with
      | Some r' =>
          match py_digitpart r' with
          | Some (fp, r'') => Some (ip, fp, r'')
          | None => Some (ip, [], r')
          end
      | None => Some (ip, [], r)
      end
  | None =>
      match starts_with_point s with
      | Some r' =>
          match py_digitpart r' with
          | Some (fp, r'') => Some ([], fp, r'')
          | None => None
          end
      | None => None
      end
  end.

(** [exponent ::= ("e" | "E") [sign] digitpart], optional. *)
Definition py_exponent (s : list ascii) : option (Z * list ascii) :=
  match s with
  | c :: t =>
      if is_exp_mark c then
        let (eneg, t1) := take_sign t in
        match py_digitpart t1 with
        | Some (ed, r) => Some (if eneg then - digits_val ed else digits_val ed, r)
        | None => None
        end
      else Some (0, s)
  | [] => Some (0, [])
  end.

(** [float(s)] for a string; [None] is the ValueError. *)
Definition py_float (s : string) : option pyfloat :=
  let t := py_strip (list_ascii_of_string s) in
  let (neg, t1) := take_sign t in
  let low := map lower t1 in
  if chars_eqb low "inf" || chars_eqb low "infinity" then
    Some (if neg then NegInf else PosInf)
  else if chars_eqb low "nan" then Some NaN
  else
    match py_number t1 with
    | Some (ip, fp, r) =>
        match py_exponent r with
        | Some (e, []) => Some (Finite (decimal_value neg ip fp e))
        | _ => None
        end
    | None => None
    end.

(* ================================================================== *)
(** ** SQLite: REPLACE and CAST(... AS FLOAT) *)

Fixpoint replace_from (pat rep : string) (skip : nat) (s : string) : string :=
  match s with
  | EmptyString => EmptyString
  | String a t =>
      match skip with
      | S k => replace_from pat rep k t
      | O =>
          if String.prefix pat s
          then (rep ++ replace_from pat rep (String.length pat - 1) t)%string
          else String a (replace_from pat rep 0 t)
      end
  end.

(** REPLACE(X, Y, Z): every occurrence of [Y] in [X] becomes [Z];
    an empty [Y] leaves [X] unchanged; NULL on NULL. *)
Definition sql_replace (x : option string) (pat rep : string) : option string :=
  option_map
    (fun s => if String.eqb pat EmptyString then s else replace_from pat rep 0 s) x.

Definition sqlite3Isspace (c : ascii) : bool :=
  let n := N_of_ascii c in
  (((9 <=? n) && (n <=? 13)) || (n =? 32))%N.

(** Text to REAL: the longest numeric prefix, after leading spaces;
    0.0 when there is none. *)
Definition sqlite3AtoF (s : list ascii) : Q :=
  let s0 := skip_while sqlite3Isspace s in
  let (neg, s1) := take_sign s0 in
  let (ip, s2) := span_digits s1 in
  let (fp, s3) :=
    match starts_with_point s2 with
    | Some t => span_digits t
    | None => ([], s2)
    end in
  let e :=
    match s3 with
    | c :: t =>
        if is_exp_mark c then
          let (eneg, t1) := take_sign t in
          let (ed, _) := span_digits t1 in
          if eneg then - digits_val ed else digits_val ed
        else 0
    | [] => 0
    end in
  decimal_value neg ip fp e.

Definition sql_cast_float (x : option string) : option Q :=
  option_map (fun s => sqlite3AtoF (list_ascii_of_string s)) x.

(* ================================================================== *)
(** ** Loader: derived columns *)

(** [incidents_df['Response_Time_Min'] / 60] *)
Definition response_time_hours (m : option Q) : option Q :=
  option_map (fun x => (x / 60)%Q) m.

Definition load_incident (r : Incident.raw) : Incident.row :=
  {| Incident.base := r;
     Incident.Response_Time_Hours := response_time_hours (Incident.Response_Time_Min r) |}.

(** [Click_Rate.str.rstrip('%').astype(float)] on one cell: a missing
    cell stays missing, a text cell is stripped and converted.
    [Click_Rate] is a column of text, which is what [read_csv] makes of
    a column as soon as one of its cells carries the percent sign. *)
Definition click_rate_percent (cr : option string) : result (option pyfloat) :=
  match cr with
  | None => Ok None
  | Some s =>
      let t := py_rstrip "%" s in
      match py_float t with
      | Some v => Ok (Some v)
      | None => Raise (ValueError_float t)
      end
  end.

Definition load_campaign (r : Phishing.raw) : result Phishing.row :=
  p <- click_rate_percent (Phishing.Click_Rate r) ;;
  Ok {| Phishing.base := r; Phishing.Click_Rate_Percent := p |}.

(* ================================================================== *)
(** ** The relational store

    [to_sql(name, conn, if_exists='replace', index=False)] drops the
    table of that name, if the file has one, and writes the DataFrame.
    The file [security_analysis.db] outlives the run, so a run starts
    from whatever tables an earlier run left. *)

Record database : Type := {
  incidents : option (list Incident.row);
  vulnerabilities : option (list Vulnerability.row);
  phishing_campaigns : option (list Phishing.row)
}.

Definition to_sql_incidents (df : list Incident.row) (db : database) : database :=
  {| incidents := Some df;
     vulnerabilities := vulnerabilities db;
     phishing_campaigns := phishing_campaigns db |}.

Definition to_sql_vulnerabilities (df : list Vulnerability.row) (db : database) : database :=
  {| incidents := incidents db;
     vulnerabilities := Some df;
     phishing_campaigns := phishing_campaigns db |}.

Definition to_sql_phishing_campaigns (df : list Phishing.row) (db : database) : database :=
  {| incidents := incidents db;
     vulnerabilities := vulnerabilities db;
     phishing_campaigns := Some df |}.

(** FROM: the rows of a table. *)
Definition from {R : Type} (t : option (list R)) : list R :=
  match t with Some rows => rows | None => [] end.

(* ================================================================== *)
(** ** Query 1: MTTR trend by month

    SELECT strftime('%Y-%m', Date_Reported) as Month,
           COUNT( * ) as Total_Incidents,
           SUM(CASE WHEN Severity = 'Critical' THEN 1 ELSE 0 END) as Critical_Incidents,
           ROUND(AVG(Response_Time_Min) / 60.0, 1) as Avg_Response_Hours
    FROM incidents
    WHERE Status = 'Resolved' AND Response_Time_Min IS NOT NULL
    GROUP BY Month ORDER BY Month; *)

Module Mttr.

Record row : Type := {
  Month : option string;
  Total_Incidents : Z;
  Critical_Incidents : Z;
  Avg_Response_Hours : option Q
}.

End Mttr.

Definition mttr_where (r : Incident.row) : bool :=
  sql_eq (Incident.Status (Incident.base r)) "Resolved"
  && is_not_null (Incident.Response_Time_Min (Incident.base r)).

Definition mttr_month (r : Incident.row) : option string :=
  strftime_Ym (Incident.Date_Reported (Incident.base r)).

Definition mttr_select (g : option string * list Incident.row) : Mttr.row :=
  {| Mttr.Month := fst g;
     Mttr.Total_Incidents := count (snd g);
     Mttr.Critical_Incidents :=
       sum_case (fun r => sql_eq (Incident.Severity (Incident.base r)) "Critical") (snd g);
     Mttr.Avg_Response_Hours :=
       option_map (fun a => sql_round (a / 60) 1)
         (sql_avg (map (fun r => Incident.Response_Time_Min (Incident.base r)) (snd g))) |}.

(** GROUP BY Month ORDER BY Month: one ascending sort serves both. *)
Definition mttr_query (incidents : list Incident.row) : list Mttr.row :=
  map mttr_select (group_by mttr_month (filter mttr_where incidents)).

(* ================================================================== *)
(** ** Query 2: top incident types

    SELECT Incident_Type, COUNT( * ) as Count,
           ROUND(COUNT( * ) * 100.0 / (SELECT COUNT( * ) FROM incidents), 1) as Percentage
    FROM incidents
    GROUP BY Incident_Type ORDER BY Count DESC LIMIT 6; *)

Module IncidentType.

Record row : Type := {
  Incident_Type : option string;
  Count : Z;
  Percentage : Q
}.

End IncidentType.

Definition incident_type_of (r : Incident.row) : option string :=
  Incident.Incident_Type (Incident.base r).

(** The divisor is the row count of the table, positive as soon as
    there is a group to select. *)
Definition incident_type_select (total : Z) (g : option string * list Incident.row)
  : IncidentType.row :=
  {| IncidentType.Incident_Type := fst g;
     IncidentType.Count := count (snd g);
     IncidentType.Percentage :=
       sql_round (inject_Z (count (snd g)) * 100 / inject_Z total) 1 |}.

Definition incident_type_query (incidents : list Incident.row) : list IncidentType.row :=
  limit 6
    (order_by_desc IncidentType.Count
       (map (incident_type_select (count incidents))
            (group_by_desc incident_type_of incidents))).

(* ================================================================== *)
(** ** Query 3: vulnerability hotspots

    SELECT Department, COUNT( * ) as Total_Vulnerabilities,
           SUM(CASE WHEN Severity = 'Critical' THEN 1 ELSE 0 END) as Critical_Count,
           ROUND(AVG(Days_Open), 1) as Avg_Days_Open
    FROM vulnerabilities WHERE Solution_Status = 'Open'
    GROUP BY Department ORDER BY Critical_Count DESC LIMIT 5; *)

Module Hotspot.

Record row : Type := {
  Department : option string;
  Total_Vulnerabilities : Z;
  Critical_Count : Z;
  Avg_Days_Open : option Q
}.

End Hotspot.

Definition is_open (r : Vulnerability.row) : bool :=
  sql_eq (Vulnerability.Solution_Status r) "Open".

Definition is_critical (r : Vulnerability.row) : bool :=
  sql_eq (Vulnerability.Severity r) "Critical".

Definition vuln_hotspot_select (g : option string * list Vulnerability.row) : Hotspot.row :=
  {| Hotspot.Department := fst g;
     Hotspot.Total_Vulnerabilities := count (snd g);
     Hotspot.Critical_Count := sum_case is_critical (snd g);
     Hotspot.Avg_Days_Open :=
       option_map (fun a => sql_round a 1)
         (sql_avg (map Vulnerability.Days_Open (snd g))) |}.

Definition vuln_hotspot_query (vulnerabilities : list Vulnerability.row) : list Hotspot.row :=
  limit 5
    (order_by_desc Hotspot.Critical_Count
       (map vuln_hotspot_select
            (group_by_desc Vulnerability.Department (filter is_open vulnerabilities)))).

(* ================================================================== *)
(** ** Query 4: phishing trend

    SELECT Launch_Date, Campaign_Name, Department,
           CAST(REPLACE(Click_Rate, '%', '') AS FLOAT) as Click_Rate_Percent
    FROM phishing_campaigns ORDER BY Launch_Date; *)

Module PhishingTrend.

Record row : Type := {
  Launch_Date : option datetime;
  Campaign_Name : option string;
  Department : option string;
  Click_Rate_Percent : option Q
}.

End PhishingTrend.

Definition phishing_trend_select (r : Phishing.row) : PhishingTrend.row :=
  {| PhishingTrend.Launch_Date := Phishing.Launch_Date (Phishing.base r);
     PhishingTrend.Campaign_Name := Phishing.Campaign_Name (Phishing.base r);
     PhishingTrend.Department := Phishing.Department (Phishing.base r);
     PhishingTrend.Click_Rate_Percent :=
       sql_cast_float (sql_replace (Phishing.Click_Rate (Phishing.base r)) "%" EmptyString) |}.

(** ORDER BY Launch_Date compares the stored text; the result column is
    then read back with [pd.to_datetime]. *)
Definition phishing_trend_query (campaigns : list Phishing.row) : list PhishingTrend.row :=
  order_by (fun r => option_map isoformat (PhishingTrend.Launch_Date r))
    (map phishing_trend_select campaigns).

(* ================================================================== *)
(** ** Query 5: incident severity

    SELECT Severity, COUNT( * ) as Count FROM incidents GROUP BY Severity *)

Module SeverityDist.

Record row : Type := {
  Severity : option string;
  Count : Z
}.

End SeverityDist.

Definition severity_select (g : option string * list Incident.row) : SeverityDist.row :=
  {| SeverityDist.Severity := fst g; SeverityDist.Count := count (snd g) |}.

Definition severity_query (incidents : list Incident.row) : list SeverityDist.row :=
  map severity_select
    (group_by (fun r => Incident.Severity (Incident.base r)) incidents).

(* ================================================================== *)
(** ** Query 6: vulnerability aging

    SELECT Department,
           CASE WHEN Days_Open < 30 THEN '< 30 days'
                WHEN Days_Open BETWEEN 30 AND 90 THEN '30-90 days'
                WHEN Days_Open BETWEEN 91 AND 180 THEN '91-180 days'
                ELSE '> 180 days' END as Age_Group,
           COUNT( * ) as Count
    FROM vulnerabilities WHERE Solution_Status = 'Open'
    GROUP BY Department, Age_Group HAVING COUNT( * ) > 0
    ORDER BY Department,
             CASE Age_Group WHEN '< 30 days' THEN 1 WHEN '30-90 days' THEN 2
                            WHEN '91-180 days' THEN 3 ELSE 4 END; *)

Module Aging.

Record row : Type := {
  Department : option string;
  Age_Group : string;
  Count : Z
}.

End Aging.

Definition Qltb (a b : Q) : bool := negb (Qle_bool b a).

(** Comparisons with NULL are NULL. *)
Definition sql_lt (x : option Q) (c : Q) : option bool :=
  option_map (fun v => Qltb v c) x.

(** X BETWEEN a AND b is X >= a AND X <= b. *)
Definition sql_between (x : option Q) (a b : Q) : option bool :=
  option_map (fun v => Qle_bool a v && Qle_bool v b) x.

(** A WHEN branch is taken when its condition is true (not NULL). *)
Definition when (c : option bool) : bool :=
  match c with Some true => true | _ => false end.

Definition age_group (days_open : option Q) : string :=
  if when (sql_lt days_open 30) then "< 30 days"
  else if when (sql_between days_open 30 90) then "30-90 days"
  else if when (sql_between days_open 91 180) then "91-180 days"
  else "> 180 days".

Definition age_rank (g : string) : Z :=
  if String.eqb g "< 30 days" then 1
  else if String.eqb g "30-90 days" then 2
  else if String.eqb g "91-180 days" then 3
  else 4.

Definition vuln_age_key (r : Vulnerability.row) : option string * string :=
  (Vulnerability.Department r, age_group (Vulnerability.Days_Open r)).

Definition vuln_age_select (g : (option string * string) * list Vulnerability.row)
  : Aging.row :=
  {| Aging.Department := fst (fst g);
     Aging.Age_Group := snd (fst g);
     Aging.Count := count (snd g) |}.

Definition vuln_age_order (r : Aging.row) : option string * Z :=
  (Aging.Department r, age_rank (Aging.Age_Group r)).

Definition vuln_age_query (vulnerabilities : list Vulnerability.row) : list Aging.row :=
  order_by vuln_age_order
    (filter (fun r => 0 <? Aging.Count r)
       (map vuln_age_select
            (group_by vuln_age_key (filter is_open vulnerabilities)))).

(** *** The reshape: [pivot(index, columns, values).fillna(0)] *)

Record frame (V : Type) : Type := {
  index : list (option string);
  columns : list string;
  values : list (list V)
}.

Definition aging_key (r : Aging.row) : option string * string :=
  (Aging.Department r, Aging.Age_Group r).

Fixpoint has_duplicates {K : Type} `{Cmp K} (l : list K) : bool :=
  match l with
  | [] => false
  | k :: t => existsb (eqk k) t || has_duplicates t
  end.

Definition aging_lookup (long : list Aging.row) (d : option string) (c : string)
  : option Z :=
  option_map Aging.Count (find (fun r => eqk (aging_key r) (d, c)) long).

(** [vuln_age_df.pivot(index='Department', columns='Age_Group',
    values='Count')].  [pivot] refuses a table in which an (index,
    column) pair occurs twice; otherwise the row labels are the
    distinct index values and the column labels the distinct column
    values, both sorted as text (a missing label first), and a cell
    without a row is NaN. *)
Definition pivot (long : list Aging.row) : result (frame (option Z)) :=
  if has_duplicates (map aging_key long) then Raise ValueError_duplicate_entries
  else
    let idx := distinct_keys (map Aging.Department long) in
    let cols := distinct_keys (map Aging.Age_Group long) in
    Ok {| index := idx;
          columns := cols;
          values := map (fun d => map (fun c => aging_lookup long d c) cols) idx |}.

Definition fillna (v : Z) (f : frame (option Z)) : frame Z :=
  {| index := index f;
     columns := columns f;
     values := map (map (fun c => match c with Some x => x | None => v end)) (values f) |}.

(** [DataFrame.empty]: no row label or no column label. *)
Definition frame_empty {V : Type} (f : frame V) : bool :=
  match index f, columns f with
  | [], _ => true
  | _, [] => true
  | _, _ => false
  end.

Fixpoint position {K : Type} `{Cmp K} (k : K) (l : list K) : option nat :=
  match l with
  | [] => None
  | x :: t => if eqk x k then Some O else option_map S (position k t)
  end.

(** [f.loc[d, c]]: the cell at row label [d] and column label [c];
    [None] when a label is absent (KeyError). *)
Definition loc {V : Type} (f : frame V) (d : option string) (c : string) : option V :=
  match position d (index f), position c (columns f) with
  | Some i, Some j =>
      match nth_error (values f) i with
      | Some r => nth_error r j
      | None => None
      end
  | _, _ => None
  end.

(* ================================================================== *)
(** ** Query 7: top vulnerability types

    SELECT Vulnerability_Title, COUNT( * ) as Count
    FROM vulnerabilities WHERE Solution_Status = 'Open'
    GROUP BY Vulnerability_Title ORDER BY Count DESC LIMIT 5; *)

Module VulnType.

Record row : Type := {
  Vulnerability_Title : option string;
  Count : Z
}.

(** The result with the column added after the query. *)
Record titled : Type := {
  base : row;
  Short_Title : option string
}.

End VulnType.

Definition vuln_type_select (g : option string * list Vulnerability.row) : VulnType.row :=
  {| VulnType.Vulnerability_Title := fst g; VulnType.Count := count (snd g) |}.

Definition vuln_type_query (vulnerabilities : list Vulnerability.row) : list VulnType.row :=
  limit 5
    (order_by_desc VulnType.Count
       (map vuln_type_select
            (group_by_desc Vulnerability.Vulnerability_Title
               (filter is_open vulnerabilities)))).

(** [Vulnerability_Title.str[:25] + '...'] (missing stays missing). *)
Definition short_title (r : VulnType.row) : VulnType.titled :=
  {| VulnType.base := r;
     VulnType.Short_Title :=
       option_map (fun t => (String.substring 0 25 t ++ "...")%string)
         (VulnType.Vulnerability_Title r) |}.

(* ================================================================== *)
(** ** Query 8: vulnerability status

    SELECT Solution_Status, COUNT( * ) as Count
    FROM vulnerabilities GROUP BY Solution_Status; *)

Module VulnStatus.

Record row : Type := {
  Solution_Status : option string;
  Count : Z
}.

End VulnStatus.

Definition status_select (g : option string * list Vulnerability.row) : VulnStatus.row :=
  {| VulnStatus.Solution_Status := fst g; VulnStatus.Count := count (snd g) |}.

Definition status_query (vulnerabilities : list Vulnerability.row) : list VulnStatus.row :=
  map status_select (group_by Vulnerability.Solution_Status vulnerabilities).

(* ================================================================== *)
(** ** Query 9: critical vulnerabilities by department

    SELECT Department, COUNT( * ) as Critical_Count
    FROM vulnerabilities WHERE Severity = 'Critical' AND Solution_Status = 'Open'
    GROUP BY Department ORDER BY Critical_Count DESC LIMIT 5; *)

Module CriticalDept.

Record row : Type := {
  Department : option string;
  Critical_Count : Z
}.

End CriticalDept.

Definition critical_vuln_select (g : option string * list Vulnerability.row)
  : CriticalDept.row :=
  {| CriticalDept.Department := fst g; CriticalDept.Critical_Count := count (snd g) |}.

Definition critical_vuln_query (vulnerabilities : list Vulnerability.row)
  : list CriticalDept.row :=
  limit 5
    (order_by_desc CriticalDept.Critical_Count
       (map critical_vuln_select
            (group_by_desc Vulnerability.Department
               (filter (fun r => is_critical r && is_open r) vulnerabilities)))).

(* ================================================================== *)
(** ** The run: load, store, query *)

Record inputs : Type := {
  incidents_df : list Incident.raw;
  vulnerabilities_df : list Vulnerability.row;
  phishing_df : list Phishing.raw
}.

(** The summary tables handed to the charts and to the workbook. *)
Record summaries : Type := {
  mttr_df : list Mttr.row;
  incident_type_df : list IncidentType.row;
  vuln_hotspot_df : list Hotspot.row;
  phishing_trend_df : list PhishingTrend.row;
  severity_df : list SeverityDist.row;
  vuln_age_df : list Aging.row;
  vuln_age_pivot : frame Z;
  vuln_type_df : list VulnType.titled;
  status_df : list VulnStatus.row;
  critical_df : list CriticalDept.row
}.

(** Sections 2 and 3 of the script: derived columns, then the three
    tables written over whatever the file held. *)
Definition load (old : database) (inp : inputs) : result database :=
  let inc := map load_incident (incidents_df inp) in
  phi <- mapM load_campaign (phishing_df inp) ;;
  Ok (to_sql_phishing_campaigns phi
        (to_sql_vulnerabilities (vulnerabilities_df inp)
           (to_sql_incidents inc old))).

(** Section 4 of the script, in its order. *)
Definition execute_queries (db : database) : result summaries :=
  let mttr := mttr_query (from (incidents db)) in
  let incident_type := incident_type_query (from (incidents db)) in
  let vuln_hotspot := vuln_hotspot_query (from (vulnerabilities db)) in
  let phishing_trend := phishing_trend_query (from (phishing_campaigns db)) in
  let severity := severity_query (from (incidents db)) in
  let vuln_age := vuln_age_query (from (vulnerabilities db)) in
  wide <- pivot vuln_age ;;
  let vuln_type := map short_title (vuln_type_query (from (vulnerabilities db))) in
  let status := status_query (from (vulnerabilities db)) in
  let critical := critical_vuln_query (from (vulnerabilities db)) in
  Ok {| mttr_df := mttr;
        incident_type_df := incident_type;
        vuln_hotspot_df := vuln_hotspot;
        phishing_trend_df := phishing_trend;
        severity_df := severity;
        vuln_age_df := vuln_age;
        vuln_age_pivot := fillna 0 wide;
        vuln_type_df := vuln_type;
        status_df := status;
        critical_df := critical |}.

Definition run (old : database) (inp : inputs) : result (summaries * database) :=
  db <- load old inp ;;
  out <- execute_queries db ;;
  Ok (out, db).

(** *** The nine queries as statements on a connection

    Each [pd.read_sql_query] is a statement executed on the open
    connection: it returns a result and leaves the connection's
    database behind. *)

Inductive query : Type :=
| Q_mttr | Q_incident_type | Q_vuln_hotspot | Q_phishing_trend | Q_severity
| Q_vuln_age | Q_vuln_type | Q_status | Q_critical_vuln.

Inductive table : Type :=
| T_mttr (t : list Mttr.row)
| T_incident_type (t : list IncidentType.row)
| T_vuln_hotspot (t : list Hotspot.row)
| T_phishing_trend (t : list PhishingTrend.row)
| T_severity (t : list SeverityDist.row)
| T_vuln_age (t : list Aging.row)
| T_vuln_type (t : list VulnType.row)
| T_status (t : list VulnStatus.row)
| T_critical_vuln (t : list CriticalDept.row).

Definition read_sql_query (q : query) (conn : database) : table * database :=
  match q with
  | Q_mttr => (T_mttr (mttr_query (from (incidents conn))), conn)
  | Q_incident_type => (T_incident_type (incident_type_query (from (incidents conn))), conn)
  | Q_vuln_hotspot => (T_vuln_hotspot (vuln_hotspot_query (from (vulnerabilities conn))), conn)
  | Q_phishing_trend =>
      (T_phishing_trend (phishing_trend_query (from (phishing_campaigns conn))), conn)
  | Q_severity => (T_severity (severity_query (from (incidents conn))), conn)
  | Q_vuln_age => (T_vuln_age (vuln_age_query (from (vulnerabilities conn))), conn)
  | Q_vuln_type => (T_vuln_type (vuln_type_query (from (vulnerabilities conn))), conn)
  | Q_status => (T_status (status_query (from (vulnerabilities conn))), conn)
  | Q_critical_vuln =>
      (T_critical_vuln (critical_vuln_query (from (vulnerabilities conn))), conn)
  end.

(** Statements executed one after the other on a connection, each
    result kept under its statement. *)
Fixpoint execute_in_order (qs : list query) (conn : database)
  : list (query * table) * database :=
  match qs with
  | [] => ([], conn)
  | q :: rest =>
      let (t, conn1) := read_sql_query q conn in
      let (ts, conn2) := execute_in_order rest conn1 in
      ((q, t) :: ts, conn2)
  end.

Definition query_eqb (a b : query) : bool :=
  match a, b with
  | Q_mttr, Q_mttr | Q_incident_type, Q_incident_type
  | Q_vuln_hotspot, Q_vuln_hotspot | Q_phishing_trend, Q_phishing_trend
  | Q_severity, Q_severity | Q_vuln_age, Q_vuln_age | Q_vuln_type, Q_vuln_type
  | Q_status, Q_status | Q_critical_vuln, Q_critical_vuln => true
  | _, _ => false
  end.

Fixpoint result_of (q : query) (ts : list (query * table)) : option table :=
  match ts with
  | [] => None
  | (q', t) :: rest => if query_eqb q q' then Some t else result_of q rest
  end.

Definition script_order : list query :=
  [Q_mttr; Q_incident_type; Q_vuln_hotspot; Q_phishing_trend; Q_severity;
   Q_vuln_age; Q_vuln_type; Q_status; Q_critical_vuln].

(* ================================================================== *)
(** ** Notions used to state the properties *)

(** The laws of a key order. *)
Class CmpLaws (K : Type) `{Cmp K} : Prop := {
  cmp_eq_iff : forall a b : K, cmp a b = Eq <-> a = b;
  cmp_antisym : forall a b : K, cmp b a = CompOpp (cmp a b);
  cmp_lt_trans : forall a b c : K, cmp a b = Lt -> cmp b c = Lt -> cmp a c = Lt
}.

Arguments CmpLaws K {_}.

(** Strictly before / strictly after in a key order. *)
Definition before {K : Type} `{Cmp K} (a b : K) : Prop := cmp a b = Lt.
Definition after {K : Type} `{Cmp K} (a b : K) : Prop := cmp a b = Gt.

(** After a sort by [le] of rows that were in the order [R]: [a] sorts
    before [b], and when the two tie, [a] came first. *)
Definition sorted_stably {A : Type} (le : A -> A -> bool) (R : A -> A -> Prop)
  (a b : A) : Prop :=
  le a b = true /\ (le b a = true -> R a b).

(** The value an aging band covers, band by band as the labels read. *)
Definition band_covers (label : string) (d : Q) : Prop :=
  (label = "< 30 days"%string /\ d < 30)%Q
  \/ (label = "30-90 days"%string /\ 30 <= d /\ d <= 90)%Q
  \/ (label = "91-180 days"%string /\ 91 <= d /\ d <= 180)%Q
  \/ (label = "> 180 days"%string /\ 180 < d)%Q.

Definition canonical_bands : list string :=
  ["< 30 days"; "30-90 days"; "91-180 days"; "> 180 days"]%string.

(** Position of the first row of type [t] in the incident table. *)
Fixpoint first_row_of (t : option string) (rows : list Incident.row) : nat :=
  match rows with
  | [] => O
  | r :: rest => if eqk (incident_type_of r) t then O else S (first_row_of t rest)
  end.

(** Rows of equal count come in the order in which their types first
    appear in the incident table. *)
Definition ties_in_input_order
  (rows : list Incident.row) (out : list IncidentType.row) : Prop :=
  forall i j a b,
    (i < j)%nat -> nth_error out i = Some a -> nth_error out j = Some b ->
    IncidentType.Count a = IncidentType.Count b ->
    (first_row_of (IncidentType.Incident_Type a) rows
     < first_row_of (IncidentType.Incident_Type b) rows)%nat.

(** Rows by count, larger first; rows of equal count by type, larger
    first. *)
Definition ranks_before (a b : IncidentType.row) : Prop :=
  IncidentType.Count a > IncidentType.Count b
  \/ (IncidentType.Count a = IncidentType.Count b
      /\ after (IncidentType.Incident_Type a) (IncidentType.Incident_Type b)).

(** The sum of the Percentage column. *)
Definition percentage_sum (out : list IncidentType.row) : Q :=
  Qsum (map IncidentType.Percentage out).

(** The order of the long aging table: department, then rank of the
    band. *)
Definition aging_before (a b : Aging.row) : Prop :=
  before (vuln_age_order a) (vuln_age_order b).

Fixpoint ends_with (c : ascii) (s : string) : bool :=
  match s with
  | EmptyString => false
  | String a EmptyString => Ascii.eqb a c
  | String _ t => ends_with c t
  end.

(** A click-rate text is well formed when it ends with the percent
    sign and what precedes the sign reads as a finite number. *)
Definition well_formed_click_rate (s : string) : Prop :=
  exists body q, s = (body ++ "%")%string /\ py_float body = Some (Finite q).

Definition malformed_click_rate (s : string) : Prop := ~ well_formed_click_rate s.

(** A numeric literal: optional sign, digits, optional fraction,
    optional exponent. *)
Record literal : Type := {
  lit_sign : option bool;              (* Some true is "-", Some false is "+" *)
  lit_int : list ascii;
  lit_frac : option (list ascii);
  lit_exp : option (option bool * list ascii)
}.

Definition sign_text (s : option bool) : list ascii :=
  match s with
  | None => []
  | Some true => ["-"%char]
  | Some false => ["+"%char]
  end.

Definition fraction_text (f : option (list ascii)) : list ascii :=
  match f with Some fd => "."%char :: fd | None => [] end.

Definition exponent_text (e : option (option bool * list ascii)) : list ascii :=
  match e with Some (s, ed) => "e"%char :: sign_text s ++ ed | None => [] end.

Definition literal_text (l : literal) : list ascii :=
  sign_text (lit_sign l) ++ lit_int l
  ++ fraction_text (lit_frac l) ++ exponent_text (lit_exp l).

Definition all_digits (ds : list ascii) : Prop :=
  ds <> [] /\ Forall (fun c => is_digit c = true) ds.

Definition well_formed_literal (l : literal) : Prop :=
  all_digits (lit_int l)
  /\ match lit_frac l with Some f => all_digits f | None => True end
  /\ match lit_exp l with Some (_, e) => all_digits e | None => True end.

Definition is_neg (s : option bool) : bool :=
  match s with Some true => true | _ => false end.

Definition fraction_digits (f : option (list ascii)) : list ascii :=
  match f with Some fd => fd | None => [] end.

Definition exponent_value (e : option (option bool * list ascii)) : Z :=
  match e with
  | Some (s, ed) => if is_neg s then - digits_val ed else digits_val ed
  | None => 0
  end.

(** The number a literal denotes. *)
Definition literal_value (l : literal) : Q :=
  decimal_value (is_neg (lit_sign l)) (lit_int l)
    (fraction_digits (lit_frac l)) (exponent_value (lit_exp l)).

(** The click-rate text made of a literal and the percent sign. *)
Definition percent_text (l : literal) : string :=
  (string_of_list_ascii (literal_text l) ++ "%")%string.

(** What may follow a run of digits: nothing, or a character that is
    neither a digit nor an underscore. *)
Definition stops (rest : list ascii) : Prop :=
  match rest with
  | [] => True
  | c :: _ => is_digit c = false /\ Ascii.eqb c "_" = false
  end.

(** The table a run keeps for a statement (for query 7, without the
    column added afterwards). *)
Definition summary_of (s : summaries) (q : query) : table :=
  match q with
  | Q_mttr => T_mttr (mttr_df s)
  | Q_incident_type => T_incident_type (incident_type_df s)
  | Q_vuln_hotspot => T_vuln_hotspot (vuln_hotspot_df s)
  | Q_phishing_trend => T_phishing_trend (phishing_trend_df s)
  | Q_severity => T_severity (severity_df s)
  | Q_vuln_age => T_vuln_age (vuln_age_df s)
  | Q_vuln_type => T_vuln_type (map VulnType.base (vuln_type_df s))
  | Q_status => T_status (status_df s)
  | Q_critical_vuln => T_critical_vuln (critical_df s)
  end.

(** Summary tables of a run, or the exception that ended it. *)
Definition outcome (r : result (summaries * database)) : result summaries :=
  match r with
  | Ok (s, _) => Ok s
  | Raise e => Raise e
  end.


(** The rows that reach the ORDER BY of the aging query. *)
Definition aging_groups (vulns : list Vulnerability.row) : list Aging.row :=
  filter (fun r => 0 <? Aging.Count r)
    (map vuln_age_select (group_by vuln_age_key (filter is_open vulns))).

(** The response times of a group of incidents, NULL left out. *)
Definition response_times (g : list Incident.row) : list Q :=
  non_null (map (fun r => Incident.Response_Time_Min (Incident.base r)) g).

Definition is_critical_incident (r : Incident.row) : bool :=
  sql_eq (Incident.Severity (Incident.base r)) "Critical".

(** The resolved incidents with a response time that were reported in
    month [m]. *)
Definition resolved_in_month (m : option string) (incidents : list Incident.row)
  : list Incident.row :=
  filter (fun r => eqk (mttr_month r) m) (filter mttr_where incidents).

(** The rows of the incident-type query before LIMIT. *)
Definition incident_type_ranking (incidents : list Incident.row)
  : list IncidentType.row :=
  order_by_desc IncidentType.Count
    (map (incident_type_select (count incidents))
         (group_by_desc incident_type_of incidents)).

(** The row the incident-type query computes for type [t]. *)
Definition incident_type_row (incidents : list Incident.row) (t : option string)
  : IncidentType.row :=
  incident_type_select (count incidents)
    (t, filter (fun r => eqk (incident_type_of r) t) incidents).

(** *** Sample rows *)

Definition vulnerability (dept severity status : string) (days : option Q)
  : Vulnerability.row :=
  {| Vulnerability.Department := Some dept;
     Vulnerability.Severity := Some severity;
     Vulnerability.First_Detected := None;
     Vulnerability.Days_Open := days;
     Vulnerability.Solution_Status := Some status;
     Vulnerability.Vulnerability_Title := Some "Outdated TLS configuration"%string |}.

Definition january_2024 (d : N) : datetime :=
  {| year := 2024; month := 1; day := d;
     hour := 0; minute := 0; second := 0; microsecond := 0 |}.

Definition incident (type severity status : string) (reported : datetime)
  (minutes : option Q) : Incident.raw :=
  {| Incident.Date_Reported := Some reported;
     Incident.Date_Resolved := None;
     Incident.Severity := Some severity;
     Incident.Incident_Type := Some type;
     Incident.Status := Some status;
     Incident.Response_Time_Min := minutes |}.

Definition campaign (name : string) (launched : datetime) (click_rate : string)
  : Phishing.raw :=
  {| Phishing.Launch_Date := Some launched;
     Phishing.Follow_up_Date := None;
     Phishing.Campaign_Name := Some name;
     Phishing.Department := Some "Finance"%string;
     Phishing.Click_Rate := Some click_rate |}.

Definition incident_of_type (type : string) : Incident.row :=
  load_incident
    (incident type "High" "Resolved" (january_2024 15) (Some 30%Q)).

(** 540 incidents of seven types: five types with 91 incidents, one
    with 84 and one with a single incident. *)
Definition skewed_incidents : list Incident.row :=
  flat_map (fun p => repeat (incident_of_type (fst p)) (snd p))
    [("Malware"%string, 91%nat); ("Phishing"%string, 91%nat);
     ("DDoS"%string, 91%nat); ("Ransomware"%string, 91%nat);
     ("Insider Threat"%string, 91%nat); ("Data Leak"%string, 84%nat);
     ("Misconfiguration"%string, 1%nat)].

(** The exact share of a row in the grand total, in percent. *)
Definition share (total : Z) (row : IncidentType.row) : Q :=
  (inject_Z (IncidentType.Count row) * 100 / inject_Z total)%Q.

Definition empty_database : database :=
  {| incidents := None; vulnerabilities := None; phishing_campaigns := None |}.

(* ================================================================== *)
(** ** Rankings, totals and chart labels *)

(** The rows of queries 3, 7 and 9 before LIMIT. *)
Definition vuln_hotspot_ranking (vulnerabilities : list Vulnerability.row)
  : list Hotspot.row :=
  order_by_desc Hotspot.Critical_Count
    (map vuln_hotspot_select
         (group_by_desc Vulnerability.Department (filter is_open vulnerabilities))).

Definition vuln_type_ranking (vulnerabilities : list Vulnerability.row)
  : list VulnType.row :=
  order_by_desc VulnType.Count
    (map vuln_type_select
         (group_by_desc Vulnerability.Vulnerability_Title
            (filter is_open vulnerabilities))).

Definition critical_vuln_ranking (vulnerabilities : list Vulnerability.row)
  : list CriticalDept.row :=
  order_by_desc CriticalDept.Critical_Count
    (map critical_vuln_select
         (group_by_desc Vulnerability.Department
            (filter (fun r => is_critical r && is_open r) vulnerabilities))).

(** Rows ranked by a score, larger first; rows of equal score by key,
    larger first. *)
Definition ranked_before {A K : Type} `{Cmp K} (score : A -> Z) (keyf : A -> K)
  (a b : A) : Prop :=
  score a > score b \/ (score a = score b /\ after (keyf a) (keyf b)).

(** The open vulnerabilities of a department. *)
Definition open_in (d : option string) (vulnerabilities : list Vulnerability.row)
  : list Vulnerability.row :=
  filter (fun r => eqk (Vulnerability.Department r) d) (filter is_open vulnerabilities).

(** The row query 3 computes for a department. *)
Definition hotspot_row (vulnerabilities : list Vulnerability.row) (d : option string)
  : Hotspot.row :=
  vuln_hotspot_select (d, open_in d vulnerabilities).

(** The open vulnerabilities with a title, and the row query 7
    computes for the title. *)
Definition open_titled (t : option string) (vulnerabilities : list Vulnerability.row)
  : list Vulnerability.row :=
  filter (fun r => eqk (Vulnerability.Vulnerability_Title r) t)
         (filter is_open vulnerabilities).

Definition vuln_type_row (vulnerabilities : list Vulnerability.row) (t : option string)
  : VulnType.row :=
  vuln_type_select (t, open_titled t vulnerabilities).

(** A department with its number of critical vulnerabilities, as
    charts 3 and 7c plot it. *)
Definition hotspot_bar (r : Hotspot.row) : option string * Z :=
  (Hotspot.Department r, Hotspot.Critical_Count r).

Definition critical_bar (r : CriticalDept.row) : option string * Z :=
  (CriticalDept.Department r, CriticalDept.Critical_Count r).

Definition Zsum (l : list Z) : Z := fold_right Z.add 0 l.

(** A cell of the aging matrix after [fillna(0)]. *)
Definition aging_cell (long : list Aging.row) (d : option string) (c : string) : Z :=
  match aging_lookup long d c with Some n => n | None => 0 end.

(** The sum of the cells of a matrix. *)
Definition frame_total (f : frame Z) : Z := Zsum (map Zsum (values f)).

(** *** Launch dates *)

Definition lex (c1 c2 : comparison) : comparison :=
  match c1 with Eq => c2 | c => c end.

(** The order of two timestamps in time. *)
Definition datetime_compare (a b : datetime) : comparison :=
  lex (year a ?= year b)%N
   (lex (month a ?= month b)%N
     (lex (day a ?= day b)%N
       (lex (hour a ?= hour b)%N
         (lex (minute a ?= minute b)%N
           (lex (second a ?= second b)%N
                (microsecond a ?= microsecond b)%N))))).

(** A timestamp whose fields fit the widths [isoformat] prints them
    in, as the fields of every [pd.Timestamp] do. *)
Definition fits_format (d : datetime) : Prop :=
  (year d < 10000 /\ month d < 100 /\ day d < 100 /\ hour d < 100
   /\ minute d < 100 /\ second d < 100 /\ microsecond d < 1000000)%N.

(** [a] is not later than [b]; a missing date comes first. *)
Definition not_later (a b : option datetime) : Prop :=
  match a, b with
  | None, _ => True
  | Some _, None => False
  | Some x, Some y => datetime_compare x y <> Gt
  end.

(** The rows of the trend launched at [x]. *)
Definition launched_at (x : option datetime) (r : PhishingTrend.row) : bool :=
  match x, PhishingTrend.Launch_Date r with
  | None, None => true
  | Some a, Some b => match datetime_compare a b with Eq => true | _ => false end
  | _, _ => false
  end.

(** *** Click-rate cells *)

(** A campaign whose click-rate cell, if it has one, converts. *)
Definition click_rate_converts (r : Phishing.raw) : Prop :=
  forall s, Phishing.Click_Rate r = Some s -> py_float (py_rstrip "%" s) <> None.

(** *** Chart labels and panels *)

(** [s[:n] + '...' if len(s) > n else s], the tick label of charts 3
    (n = 10), 6 (n = 8), 7a (n = 15) and 7c (n = 8). *)
Definition truncate_label (n : nat) (s : string) : string :=
  if (n <? String.length s)%nat
  then (String.substring 0 n s ++ "...")%string
  else s.

(** The tick labels of an axis.  A missing label (None or NaN in the
    column) has no [len]: the comprehension raises TypeError, here
    [None]. *)
Fixpoint tick_labels (n : nat) (labels : list (option string)) : option (list string) :=
  match labels with
  | [] => Some []
  | None :: _ => None
  | Some s :: rest =>
      match tick_labels n rest with
      | Some ls => Some (truncate_label n s :: ls)
      | None => None
      end
  end.

(** The label chart 7a shows for a title: the label of its
    Short_Title. *)
Definition chart_7a_label (title : string) : string :=
  truncate_label 15 (String.substring 0 25 title ++ "...")%string.

(** The y tick labels of chart 7a, made from the Short_Title column. *)
Definition vuln_type_labels (t : list VulnType.titled) : option (list string) :=
  tick_labels 15 (map VulnType.Short_Title t).

(** [not vuln_age_pivot.empty], [not vuln_type_df.empty] and
    [not critical_df.empty and critical_df['Critical_Count'].sum() > 0]:
    whether charts 6, 7a and 7c are drawn rather than their 'No data'
    or 'No critical' text. *)
Definition draws_aging_heatmap (s : summaries) : bool :=
  negb (frame_empty (vuln_age_pivot s)).

Definition draws_vuln_types (s : summaries) : bool :=
  match vuln_type_df s with [] => false | _ => true end.

Definition draws_critical (s : summaries) : bool :=
  match critical_df s with
  | [] => false
  | rows => 0 <? Zsum (map CriticalDept.Critical_Count rows)
  end.

(** [s] with [k] percent signs appended. *)
Fixpoint with_percent_signs (k : nat) (s : string) : string :=
  match k with
  | O => s
  | S k' => (with_percent_signs k' s ++ "%")%string
  end.

Lemma string_lt_irrefl (a : string) (L : String_as_OT.lt a a) : False.
Proof. exact (@StrictOrder_Irreflexive _ _ String_as_OT.lt_strorder a L). Qed.

Lemma string_lt_trans (a b c : string)
  (X : String_as_OT.lt a b) (Y : String_as_OT.lt b c) : String_as_OT.lt a c.
Proof. exact (@StrictOrder_Transitive _ _ String_as_OT.lt_strorder a b c X Y). Qed.

#[global] Instance laws_string : CmpLaws string.
Proof.
  split; unfold cmp, cmp_string.
  - intros a b. destruct (String_as_OT.compare_spec a b) as [E|L|L]; split;
      intro X; try discriminate; try assumption; try reflexivity;
      subst; exfalso; exact (string_lt_irrefl L).
  - intros a b.
    destruct (String_as_OT.compare_spec a b) as [E|L|L];
      destruct (String_as_OT.compare_spec b a) as [E'|L'|L']; simpl;
      try reflexivity; unfold String_as_OT.eq in *; subst; exfalso;
      first [ exact (string_lt_irrefl L)
            | exact (string_lt_irrefl L')
            | exact (string_lt_irrefl (string_lt_trans L L')) ].
  - intros a b c X Y. exact (string_lt_trans X Y).
Qed.

#[global] Instance laws_Z : CmpLaws Z.
Proof.
  split; unfold cmp, cmp_Z.
  - intros a b. apply Z.compare_eq_iff.
  - intros a b. apply Z.compare_antisym.
  - intros a b c X Y. apply -> Z.compare_lt_iff in X. apply -> Z.compare_lt_iff in Y.
    apply Z.compare_lt_iff. lia.
Qed.

#[global] Instance laws_option (K : Type) `{CmpLaws K} : CmpLaws (option K).
Proof.
  split.
  - intros [a|] [b|]; unfold cmp; simpl; split; intro X;
      try discriminate; try reflexivity.
    + f_equal. apply cmp_eq_iff. exact X.
    + apply cmp_eq_iff. congruence.
  - intros [a|] [b|]; unfold cmp; simpl; try reflexivity. apply cmp_antisym.
  - intros [a|] [b|] [c|]; unfold cmp; simpl; intros X Y;
      try discriminate; try reflexivity.
    exact (cmp_lt_trans _ _ _ X Y).
Qed.

Lemma cmp_refl (K : Type) `{CmpLaws K} (a : K) : cmp a a = Eq.
Proof. apply cmp_eq_iff. reflexivity. Qed.

Lemma cmp_gt_lt (K : Type) `{CmpLaws K} (a b : K) : cmp a b = Gt <-> cmp b a = Lt.
Proof.
  rewrite (cmp_antisym a b). destruct (cmp a b); simpl; split; congruence.
Qed.

Lemma cmp_eq (K : Type) `{CmpLaws K} (a b : K) : cmp a b = Eq -> a = b.
Proof. apply cmp_eq_iff. Qed.

#[global] Instance laws_prod (K1 K2 : Type) `{CmpLaws K1} `{CmpLaws K2}
  : CmpLaws (K1 * K2).
Proof.
  split.
  - intros [a1 a2] [b1 b2]. unfold cmp, cmp_prod. simpl.
    destruct (cmp a1 b1) eqn:E1; split; intro X; try discriminate.
    + pose proof (cmp_eq _ _ E1). pose proof (cmp_eq _ _ X). congruence.
    + inversion X; subst. exact (cmp_refl b2).
    + inversion X; subst. pose proof (cmp_refl b1). congruence.
    + inversion X; subst. pose proof (cmp_refl b1). congruence.
  - intros [a1 a2] [b1 b2]. unfold cmp, cmp_prod. simpl.
    rewrite (cmp_antisym a1 b1). destruct (cmp a1 b1); simpl; try reflexivity.
    apply cmp_antisym.
  - intros [a1 a2] [b1 b2] [c1 c2]. unfold cmp, cmp_prod. simpl.
    destruct (cmp a1 b1) eqn:E1; destruct (cmp b1 c1) eqn:E2;
      intros X Y; try discriminate.
    + pose proof (cmp_eq _ _ E1). pose proof (cmp_eq _ _ E2). subst.
      rewrite (cmp_refl c1). exact (cmp_lt_trans _ _ _ X Y).
    + pose proof (cmp_eq _ _ E1). subst. rewrite E2. reflexivity.
    + pose proof (cmp_eq _ _ E2). subst. rewrite E1. reflexivity.
    + rewrite (cmp_lt_trans _ _ _ E1 E2). reflexivity.
Qed.

(* ================================================================== *)
(** ** Distinct keys and groups *)

Section KeyFacts.
Context {K : Type} `{CmpLaws K}.

Lemma eqk_true (a b : K) : eqk a b = true <-> a = b.
Proof.
  unfold eqk. split.
  - destruct (cmp a b) eqn:E; try discriminate. intros _. exact (cmp_eq _ _ E).
  - intros ->. rewrite (cmp_refl b). reflexivity.
Qed.

Lemma eqk_refl (a : K) : eqk a a = true.
Proof. apply eqk_true. reflexivity. Qed.

Lemma eqk_false (a b : K) : eqk a b = false <-> a <> b.
Proof.
  split.
  - intros E X. apply eqk_true in X. congruence.
  - intros N. destruct (eqk a b) eqn:E; [|reflexivity].
    apply eqk_true in E. contradiction.
Qed.

Lemma before_irrefl (a : K) : ~ before a a.
Proof. unfold before. rewrite (cmp_refl a). discriminate. Qed.

Lemma before_trans (a b c : K) : before a b -> before b c -> before a c.
Proof. exact (cmp_lt_trans a b c). Qed.

Lemma after_before (a b : K) : after a b <-> before b a.
Proof. exact (cmp_gt_lt a b). Qed.

Lemma leb_total (a b : K) : leb a b = true \/ leb b a = true.
Proof.
  unfold leb. rewrite (cmp_antisym a b). destruct (cmp a b); simpl; auto.
Qed.

Lemma leb_trans (a b c : K) : leb a b = true -> leb b c = true -> leb a c = true.
Proof.
  unfold leb. intros X Y.
  destruct (cmp a b) eqn:E1; try discriminate;
    destruct (cmp b c) eqn:E2; try discriminate.
  - rewrite (cmp_eq _ _ E1), E2. reflexivity.
  - rewrite (cmp_eq _ _ E1), E2. reflexivity.
  - rewrite <- (cmp_eq _ _ E2), E1. reflexivity.
  - rewrite (cmp_lt_trans _ _ _ E1 E2). reflexivity.
Qed.

Lemma leb_distinct_before (a b : K) : leb a b = true -> a <> b -> before a b.
Proof.
  unfold leb, before. intros X N.
  destruct (cmp a b) eqn:E; try discriminate; [|reflexivity].
  elim N. exact (cmp_eq _ _ E).
Qed.

Lemma insert_key_In (k x : K) (l : list K) :
  In x (insert_key k l) <-> x = k \/ In x l.
Proof.
  induction l as [|y t IH]; simpl.
  - intuition.
  - destruct (cmp k y) eqn:E; simpl.
    + pose proof (cmp_eq _ _ E). subst. intuition.
    + intuition.
    + rewrite IH. intuition.
Qed.

Lemma insert_key_sorted (k : K) (l : list K) :
  StronglySorted before l -> StronglySorted before (insert_key k l).
Proof.
  induction l as [|y t IH]; simpl; intros S.
  - repeat constructor.
  - inversion S as [|? ? St Fy]; subst.
    destruct (cmp k y) eqn:E.
    + exact S.
    + constructor; [exact S|]. constructor; [exact E|].
      rewrite Forall_forall in *. intros z Hz.
      exact (before_trans E (Fy z Hz)).
    + constructor; [exact (IH St)|].
      rewrite Forall_forall in *. intros z Hz.
      apply (proj1 (insert_key_In _ _ _)) in Hz. destruct Hz as [->|Hz].
      * apply after_before. exact E.
      * exact (Fy z Hz).
Qed.

Lemma distinct_keys_In (x : K) (ks : list K) :
  In x (distinct_keys ks) <-> In x ks.
Proof.
  induction ks as [|k t IH]; simpl; [tauto|].
  rewrite insert_key_In, IH. intuition.
Qed.

Lemma distinct_keys_sorted (ks : list K) :
  StronglySorted before (distinct_keys ks).
Proof.
  induction ks as [|k t IH]; simpl; [constructor|].
  apply insert_key_sorted. exact IH.
Qed.

Lemma sorted_NoDup (l : list K) : StronglySorted before l -> NoDup l.
Proof.
  induction 1 as [|a l S IH F]; constructor; [|exact IH].
  intro X. rewrite Forall_forall in F. exact (before_irrefl (F a X)).
Qed.

Lemma distinct_keys_NoDup (ks : list K) : NoDup (distinct_keys ks).
Proof. apply sorted_NoDup, distinct_keys_sorted. Qed.

(** Each row falls under exactly one of distinct keys that cover it. *)
Lemma one_key_per_row (k : K) (ks : list K) :
  NoDup ks -> In k ks ->
  fold_right (fun x acc => ((if eqk k x then 1 else 0) + acc)%nat) O ks = 1%nat.
Proof.
  induction 1 as [|y t Ny Nt IH]; simpl; [tauto|].
  intros [->|X].
  - rewrite eqk_refl.
    assert (Z0 : fold_right (fun x acc => ((if eqk k x then 1 else 0) + acc)%nat) O t = O).
    { clear IH Nt. induction t as [|z t IHt]; simpl; [reflexivity|].
      destruct (eqk k z) eqn:E.
      - apply eqk_true in E. subst. elim Ny. left. reflexivity.
      - simpl. apply IHt. intro X. apply Ny. right. exact X. }
    rewrite Z0. reflexivity.
  - destruct (eqk k y) eqn:E.
    + apply eqk_true in E. subst. contradiction.
    + simpl. exact (IH X).
Qed.

End KeyFacts.

Section GroupFacts.
Context {R K : Type} `{CmpLaws K}.
Variable key : R -> K.

Lemma group_by_keys (rows : list R) :
  map fst (group_by key rows) = distinct_keys (map key rows).
Proof.
  unfold group_by. rewrite map_map. simpl. apply map_id.
Qed.

Lemma group_by_In (k : K) (g : list R) (rows : list R) :
  In (k, g) (group_by key rows) <->
  In k (map key rows) /\ g = filter (fun r => eqk (key r) k) rows.
Proof.
  unfold group_by. rewrite in_map_iff. split.
  - intros [k' [E I]]. inversion E; subst. split; [|reflexivity].
    exact (proj1 (distinct_keys_In _ _) I).
  - intros [I ->]. exists k. split; [reflexivity|].
    exact (proj2 (distinct_keys_In _ _) I).
Qed.

Lemma group_nonempty (k : K) (g : list R) (rows : list R) :
  In (k, g) (group_by key rows) -> g <> [].
Proof.
  intros I. apply group_by_In in I. destruct I as [I ->].
  apply in_map_iff in I. destruct I as [r [E Ir]].
  intro X.
  assert (In r (filter (fun r => eqk (key r) k) rows)) as Y.
  { apply filter_In. split; [exact Ir|]. apply eqk_true. exact E. }
  rewrite X in Y. exact Y.
Qed.

Lemma group_by_nil : group_by key [] = [].
Proof. reflexivity. Qed.

Lemma group_by_desc_nil : group_by_desc key [] = [].
Proof. reflexivity. Qed.

(** The groups partition the rows. *)
Lemma group_sizes (ks : list K) (rows : list R) :
  NoDup ks -> (forall r, In r rows -> In (key r) ks) ->
  fold_right (fun k acc => (length (filter (fun r => eqk (key r) k) rows) + acc)%nat) O ks
  = length rows.
Proof.
  intros N. induction rows as [|r t IH]; intros C.
  - simpl. clear. induction ks as [|k ks IHks]; simpl; [reflexivity|exact IHks].
  - assert (forall (l : list K) (f g : K -> nat),
             fold_right (fun k acc => (f k + g k + acc)%nat) O l
             = (fold_right (fun k acc => (f k + acc)%nat) O l
                + fold_right (fun k acc => (g k + acc)%nat) O l)%nat) as split_sum.
    { induction l as [|x l IHl]; intros; simpl; [reflexivity|]. rewrite IHl. lia. }
    transitivity
      (fold_right (fun k acc =>
         ((if eqk (key r) k then 1 else 0)
          + length (filter (fun r0 => eqk (key r0) k) t) + acc)%nat) O ks).
    { clear. induction ks as [|k ks IHks]; [reflexivity|].
      cbn [fold_right]. rewrite IHks. f_equal.
      cbn [filter]. destruct (eqk (key r) k); reflexivity. }
    rewrite split_sum. rewrite IH.
    + rewrite (one_key_per_row (key r) N (C r (or_introl eq_refl))). reflexivity.
    + intros r0 I. apply C. right. exact I.
Qed.

End GroupFacts.

(* ================================================================== *)
(** ** The sort: a permutation, sorted, and stable *)

Section SortFacts.
Variable A : Type.
Variable le : A -> A -> bool.
Hypothesis le_total : forall a b, le a b = true \/ le b a = true.
Hypothesis le_trans : forall a b c, le a b = true -> le b c = true -> le a c = true.

(** The order rows had before the sort. *)
Variable R : A -> A -> Prop.

Lemma insert_by_perm (x : A) (l : list A) : Permutation (insert_by le x l) (x :: l).
Proof.
  induction l as [|y t IH]; simpl; [reflexivity|].
  destruct (le x y); [reflexivity|].
  rewrite IH. apply perm_swap.
Qed.

Lemma sort_by_perm (l : list A) : Permutation (sort_by le l) l.
Proof.
  induction l as [|x t IH]; simpl; [reflexivity|].
  rewrite insert_by_perm. constructor. exact IH.
Qed.

Lemma sort_by_In (x : A) (l : list A) : In x (sort_by le l) <-> In x l.
Proof.
  split; apply Permutation_in; [|symmetry]; apply sort_by_perm.
Qed.

Lemma sort_by_length (l : list A) : length (sort_by le l) = length l.
Proof. apply Permutation_length, sort_by_perm. Qed.

Lemma insert_by_stable (x : A) (l : list A) :
  StronglySorted (sorted_stably le R) l -> Forall (R x) l ->
  StronglySorted (sorted_stably le R) (insert_by le x l).
Proof.
  induction l as [|y t IH]; simpl; intros S F.
  - repeat constructor.
  - inversion S as [|? ? St Fy]; subst.
    inversion F as [|? ? Rxy Ft]; subst.
    destruct (le x y) eqn:E.
    + constructor; [exact S|].
      constructor; [split; [exact E|intros _; exact Rxy]|].
      rewrite Forall_forall in *. intros z Hz. split.
      * exact (le_trans E (proj1 (Fy z Hz))).
      * intros _. exact (Ft z Hz).
    + constructor; [exact (IH St Ft)|].
      rewrite Forall_forall in *. intros z Hz.
      apply (Permutation_in _ (insert_by_perm x t)) in Hz.
      destruct Hz as [<-|Hz].
      * split.
        -- destruct (le_total y x) as [T|T]; [exact T|congruence].
        -- intros X. congruence.
      * exact (Fy z Hz).
Qed.

Lemma sort_by_stable (l : list A) :
  StronglySorted R l -> StronglySorted (sorted_stably le R) (sort_by le l).
Proof.
  induction 1 as [|x t S IH F]; simpl; [constructor|].
  apply insert_by_stable; [exact IH|].
  rewrite Forall_forall in *. intros z Hz.
  apply F. apply sort_by_In. exact Hz.
Qed.

End SortFacts.

Lemma sort_by_nil (A : Type) (le : A -> A -> bool) : sort_by le [] = [].
Proof. reflexivity. Qed.

Lemma StronglySorted_weaken (A : Type) (P Q : A -> A -> Prop) (l : list A) :
  (forall a b, In a l -> In b l -> P a b -> Q a b) ->
  StronglySorted P l -> StronglySorted Q l.
Proof.
  intros W S. induction S as [|a l S IH F]; constructor.
  - apply IH. intros x y Hx Hy. apply W; right; assumption.
  - rewrite Forall_forall in *. intros z Hz.
    apply W; [left; reflexivity|right; exact Hz|exact (F z Hz)].
Qed.

Lemma StronglySorted_map (A B : Type) (f : A -> B) (P : B -> B -> Prop) (l : list A) :
  StronglySorted P (map f l) <-> StronglySorted (fun a b => P (f a) (f b)) l.
Proof.
  induction l as [|a l IH]; simpl; split; intros S; try constructor;
    inversion S as [|? ? St F]; subst.
  - apply IH. exact St.
  - rewrite Forall_forall in *. intros z Hz. apply F. apply in_map. exact Hz.
  - apply IH. exact St.
  - rewrite Forall_forall in *. intros z Hz.
    apply in_map_iff in Hz. destruct Hz as [y [<- Hy]]. exact (F y Hy).
Qed.

Lemma StronglySorted_app (A : Type) (P : A -> A -> Prop) (l1 l2 : list A) :
  StronglySorted P l1 -> StronglySorted P l2 ->
  (forall a b, In a l1 -> In b l2 -> P a b) ->
  StronglySorted P (l1 ++ l2).
Proof.
  induction l1 as [|x t IH]; simpl; intros S1 S2 C; [exact S2|].
  inversion S1 as [|? ? St F]; subst. constructor.
  - apply IH; [exact St|exact S2|]. intros a b Ha Hb. apply C; [right|]; assumption.
  - rewrite Forall_forall in *. intros z Hz. apply in_app_iff in Hz.
    destruct Hz as [Hz|Hz]; [exact (F z Hz)|].
    apply C; [left; reflexivity|exact Hz].
Qed.

Lemma StronglySorted_rev (A : Type) (P : A -> A -> Prop) (l : list A) :
  StronglySorted P l -> StronglySorted (fun a b => P b a) (rev l).
Proof.
  induction 1 as [|x t S IH F]; simpl; [constructor|].
  apply StronglySorted_app; [exact IH|repeat constructor|].
  intros a b Ha Hb. destruct Hb as [<-|[]].
  rewrite Forall_forall in F. apply F. apply in_rev. exact Ha.
Qed.

Lemma firstn_In (A : Type) (n : nat) (x : A) (l : list A) :
  In x (firstn n l) -> In x l.
Proof.
  revert n. induction l as [|y t IH]; intros [|n]; simpl; try tauto.
  intros [->|X]; [left; reflexivity|right; exact (IH n X)].
Qed.

Lemma StronglySorted_firstn (A : Type) (P : A -> A -> Prop) (n : nat) (l : list A) :
  StronglySorted P l -> StronglySorted P (firstn n l).
Proof.
  intros S. revert n. induction S as [|x t S IH F]; intros [|n]; simpl;
    try constructor.
  - apply IH.
  - rewrite Forall_forall in *. intros z Hz. apply F.
    eapply firstn_In. exact Hz.
Qed.

(* ================================================================== *)
(** ** Aging bands *)

Lemma Qltb_lt (a b : Q) : Qltb a b = true <-> (a < b)%Q.
Proof.
  unfold Qltb. rewrite negb_true_iff. split.
  - intros E. apply Qnot_le_lt. intro L. apply Qle_bool_iff in L. congruence.
  - intros L. destruct (Qle_bool b a) eqn:E; [|reflexivity].
    apply Qle_bool_iff in E. exfalso. exact (Qlt_not_le _ _ L E).
Qed.

Lemma Qle_bool_false (a b : Q) : Qle_bool a b = false <-> (b < a)%Q.
Proof.
  rewrite <- Qltb_lt. unfold Qltb. destruct (Qle_bool a b); simpl; intuition congruence.
Qed.

(** A NULL days-open takes none of the WHEN branches. *)
Lemma age_group_null : age_group None = "> 180 days"%string.
Proof. reflexivity. Qed.

(** The label of a value, branch by branch. *)
Lemma age_group_cases (d : Q) :
  ((d < 30)%Q /\ age_group (Some d) = "< 30 days"%string)
  \/ ((30 <= d)%Q /\ (d <= 90)%Q /\ age_group (Some d) = "30-90 days"%string)
  \/ ((91 <= d)%Q /\ (d <= 180)%Q /\ age_group (Some d) = "91-180 days"%string)
  \/ ((90 < d)%Q /\ (d < 91)%Q /\ age_group (Some d) = "> 180 days"%string)
  \/ ((180 < d)%Q /\ age_group (Some d) = "> 180 days"%string).
Proof.
  unfold age_group, sql_lt, sql_between, when. simpl.
  destruct (Qltb d 30) eqn:E1.
  { left. split; [apply Qltb_lt; exact E1|reflexivity]. }
  right.
  assert (L30 : (30 <= d)%Q).
  { apply Qnot_lt_le. intro X. apply Qltb_lt in X. congruence. }
  pose proof (proj2 (Qle_bool_iff 30 d) L30) as B30. rewrite B30. simpl.
  destruct (Qle_bool d 90) eqn:E2.
  { left. split; [exact L30|]. split; [apply Qle_bool_iff; exact E2|reflexivity]. }
  right. apply Qle_bool_false in E2.
  destruct (Qle_bool 91 d) eqn:E3; simpl.
  - destruct (Qle_bool d 180) eqn:E4.
    + left. split; [apply Qle_bool_iff; exact E3|].
      split; [apply Qle_bool_iff; exact E4|reflexivity].
    + right. right. split; [apply Qle_bool_false; exact E4|reflexivity].
  - right. left. split; [exact E2|]. split; [apply Qle_bool_false; exact E3|reflexivity].
Qed.

Lemma age_group_canonical (d : option Q) : In (age_group d) canonical_bands.
Proof.
  destruct d as [d|]; [|simpl; tauto].
  destruct (age_group_cases d) as [[_ E]|[[_ [_ E]]|[[_ [_ E]]|[[_ [_ E]]|[_ E]]]]];
    rewrite E; simpl; tauto.
Qed.

Lemma age_rank_injective (a b : string) :
  In a canonical_bands -> In b canonical_bands -> age_rank a = age_rank b -> a = b.
Proof.
  simpl. intros [<-|[<-|[<-|[<-|[]]]]] [<-|[<-|[<-|[<-|[]]]]]; vm_compute;
    intros X; try reflexivity; discriminate.
Qed.

(** Inside the bands the label is that of the band which covers the
    value, and no other band covers it. *)
Lemma band_covers_age_group (label : string) (d : Q) :
  band_covers label d -> age_group (Some d) = label.
Proof.
  unfold band_covers.
  destruct (age_group_cases d) as [[A E]|[[A [B E]]|[[A [B E]]|[[A [B E]]|[A E]]]]];
    rewrite E; intros [[-> C]|[[-> [C D]]|[[-> [C D]]|[-> C]]]];
    try reflexivity; exfalso;
    repeat match goal with
           | H : (_ < _)%Q |- _ => unfold Qlt in H; simpl in H
           | H : (_ <= _)%Q |- _ => unfold Qle in H; simpl in H
           end; lia.
Qed.

(** Whole numbers of days always fall in the band that covers them. *)
Lemma age_group_integer (z : Z) :
  band_covers (age_group (Some (inject_Z z))) (inject_Z z).
Proof.
  unfold band_covers.
  destruct (age_group_cases (inject_Z z))
    as [[A E]|[[A [B E]]|[[A [B E]]|[[A [B E]]|[A E]]]]]; rewrite E.
  - left. split; [reflexivity|exact A].
  - right. left. split; [reflexivity|split; assumption].
  - right. right. left. split; [reflexivity|split; assumption].
  - exfalso. unfold Qlt in *. simpl in *. lia.
  - right. right. right. split; [reflexivity|exact A].
Qed.

Lemma age_group_boundaries :
  age_group (Some 30%Q) = "30-90 days"%string
  /\ age_group (Some 90%Q) = "30-90 days"%string
  /\ age_group (Some 91%Q) = "91-180 days"%string.
Proof. repeat split. Qed.

(** C1. Every open vulnerability with a numeric days-open is meant to
    fall in the one band, of the four, that covers its value, whether
    the value is a whole number or not.  The CASE leaves the values
    strictly between 90 and 91 to its ELSE branch: an open
    vulnerability of department IT with days-open 90.5 is counted in
    the row labelled '> 180 days', and no band covers 90.5. *)
Theorem aging_band_gap :
  vuln_age_query [vulnerability "IT" "High" "Open" (Some (181 # 2))]
  = [{| Aging.Department := Some "IT"%string;
        Aging.Age_Group := "> 180 days"%string;
        Aging.Count := 1 |}]
  /\ ~ (180 < 181 # 2)%Q
  /\ forall label, ~ band_covers label (181 # 2).
Proof.
  split; [reflexivity|]. split.
  - unfold Qlt. simpl. lia.
  - intros label [[_ C]|[[_ [_ C]]|[[_ [C _]]|[_ C]]]];
      revert C; unfold Qlt, Qle; simpl; lia.
Qed.

(* ================================================================== *)
(** ** The aging table and its reshape *)

Lemma order_by_In {A K : Type} `{CmpLaws K} (f : A -> K) (x : A) (l : list A) :
  In x (order_by f l) <-> In x l.
Proof. unfold order_by. apply sort_by_In. Qed.

Lemma order_by_perm {A K : Type} `{Cmp K} (f : A -> K) (l : list A) :
  Permutation (order_by f l) l.
Proof. unfold order_by. apply sort_by_perm. Qed.

Lemma vuln_age_query_perm (vulns : list Vulnerability.row) :
  Permutation (vuln_age_query vulns) (aging_groups vulns).
Proof. unfold vuln_age_query. apply order_by_perm. Qed.

Lemma count_pos (A : Type) (g : list A) : g <> [] -> 0 < count g.
Proof. destruct g; [congruence|]. unfold count. simpl. lia. Qed.

(** HAVING COUNT( * ) > 0 keeps every group. *)
Lemma aging_groups_all (vulns : list Vulnerability.row) :
  aging_groups vulns
  = map vuln_age_select (group_by vuln_age_key (filter is_open vulns)).
Proof.
  unfold aging_groups.
  set (gs := group_by vuln_age_key (filter is_open vulns)).
  assert (forall g, In g gs -> snd g <> []) as NE.
  { intros [k g] I. simpl. subst gs. exact (group_nonempty vuln_age_key k _ I). }
  induction gs as [|g gs IH]; simpl; [reflexivity|].
  assert ((0 <? count (snd g)) = true) as P.
  { apply Z.ltb_lt. apply count_pos. apply NE. left. reflexivity. }
  rewrite P. f_equal. apply IH. intros g' I. apply NE. right. exact I.
Qed.

Lemma aging_keys (vulns : list Vulnerability.row) :
  map aging_key (aging_groups vulns)
  = distinct_keys (map vuln_age_key (filter is_open vulns)).
Proof.
  rewrite aging_groups_all. rewrite map_map.
  rewrite <- (group_by_keys vuln_age_key). apply map_ext. intros [[d c] g]. reflexivity.
Qed.

(** A row of the aging table is the count of the open vulnerabilities
    of its department that fall under its label. *)
Lemma vuln_age_query_row (vulns : list Vulnerability.row) (row : Aging.row) :
  In row (vuln_age_query vulns) <->
  In (aging_key row) (map vuln_age_key (filter is_open vulns))
  /\ Aging.Count row
     = count (filter (fun v => eqk (vuln_age_key v) (aging_key row))
                     (filter is_open vulns)).
Proof.
  unfold vuln_age_query. rewrite order_by_In.
  fold (aging_groups vulns). rewrite aging_groups_all. rewrite in_map_iff. split.
  - intros [[k g] [<- I]]. apply (proj1 (group_by_In _ _ _ _)) in I.
    destruct I as [I ->]. destruct k as [d c]. split; [exact I|reflexivity].
  - intros [I C]. destruct row as [d c n]. unfold aging_key in *. simpl in *.
    exists ((d, c), filter (fun v => eqk (vuln_age_key v) (d, c)) (filter is_open vulns)).
    split.
    + unfold vuln_age_select. simpl. rewrite C. reflexivity.
    + apply group_by_In. split; [exact I|reflexivity].
Qed.

(** C9. An open vulnerability whose days-open is NULL takes the ELSE
    branch: it is counted in the row of its department labelled
    '> 180 days' (the row exists, and its count is the number of open
    vulnerabilities of the department under that label, this one
    among them). *)
Theorem null_days_open_counted_over_180
  (vulns : list Vulnerability.row) (r : Vulnerability.row) :
  In r vulns -> is_open r = true -> Vulnerability.Days_Open r = None ->
  vuln_age_key r = (Vulnerability.Department r, "> 180 days"%string)
  /\ exists row,
       In row (vuln_age_query vulns)
       /\ Aging.Department row = Vulnerability.Department r
       /\ Aging.Age_Group row = "> 180 days"%string
       /\ Aging.Count row
          = count (filter (fun v => eqk (vuln_age_key v) (vuln_age_key r))
                          (filter is_open vulns))
       /\ In r (filter (fun v => eqk (vuln_age_key v) (vuln_age_key r))
                       (filter is_open vulns))
       /\ 1 <= Aging.Count row.
Proof.
  intros I O N.
  assert (vuln_age_key r = (Vulnerability.Department r, "> 180 days"%string)) as K.
  { unfold vuln_age_key. rewrite N. reflexivity. }
  split; [exact K|].
  set (g := filter (fun v => eqk (vuln_age_key v) (vuln_age_key r)) (filter is_open vulns)).
  assert (In r g) as Ir.
  { apply filter_In. split; [apply filter_In; split; assumption|apply eqk_refl]. }
  exists {| Aging.Department := Vulnerability.Department r;
            Aging.Age_Group := "> 180 days"%string;
            Aging.Count := count g |}.
  split; [|repeat split; try reflexivity; try exact Ir].
  - apply vuln_age_query_row. unfold aging_key. simpl. rewrite <- K. split.
    + apply in_map. apply filter_In. split; assumption.
    + reflexivity.
  - simpl. assert (0 < count g) by (apply count_pos; intro X; rewrite X in Ir; exact Ir).
    lia.
Qed.

Lemma null_days_open_counted_witness :
  exists row,
    In row (vuln_age_query [vulnerability "IT" "High" "Open" None;
                            vulnerability "IT" "Low" "Closed" (Some 12%Q)])
    /\ Aging.Age_Group row = "> 180 days"%string
    /\ 1 <= Aging.Count row.
Proof.
  destruct (@null_days_open_counted_over_180
              [vulnerability "IT" "High" "Open" None;
               vulnerability "IT" "Low" "Closed" (Some 12%Q)]
              (vulnerability "IT" "High" "Open" None))
    as [_ [row [I [_ [G [_ [_ C]]]]]]].
  - simpl. left. reflexivity.
  - reflexivity.
  - reflexivity.
  - exists row. repeat split; assumption.
Defined.

Section PivotFacts.
Context {K : Type} `{CmpLaws K}.

Lemma has_duplicates_NoDup (l : list K) : NoDup l -> has_duplicates l = false.
Proof.
  induction 1 as [|k t N Nt IH]; simpl; [reflexivity|].
  rewrite IH, orb_false_r.
  destruct (existsb (eqk k) t) eqn:E; [|reflexivity].
  apply existsb_exists in E. destruct E as [x [I E]].
  apply (proj1 (eqk_true k x)) in E. subst. contradiction.
Qed.

Lemma position_In (k : K) (l : list K) :
  In k l -> exists i, position k l = Some i /\ nth_error l i = Some k.
Proof.
  induction l as [|x t IH]; simpl; [tauto|].
  intros I. destruct (eqk x k) eqn:E.
  - exists O. apply (proj1 (eqk_true x k)) in E. subst. split; reflexivity.
  - destruct I as [->|I]; [rewrite eqk_refl in E; discriminate|].
    destruct (IH I) as [i [P N]]. exists (S i). rewrite P. split; [reflexivity|exact N].
Qed.

End PivotFacts.

Lemma NoDup_map_filter (A B : Type) (key : A -> B) (keep : A -> bool) (rows : list A) :
  NoDup (map key rows) -> NoDup (map key (filter keep rows)).
Proof.
  intros N. induction rows as [|a t IH]; simpl; [constructor|].
  inversion N as [|? ? Na Nt]; subst.
  destruct (keep a); simpl; [|exact (IH Nt)].
  constructor; [|exact (IH Nt)].
  intro X. apply Na. apply in_map_iff in X. destruct X as [y [E I]].
  apply in_map_iff. exists y. split; [exact E|].
  apply filter_In in I. exact (proj1 I).
Qed.

Lemma NoDup_map_In_eq (A B : Type) (f : A -> B) (l : list A) (x y : A) :
  NoDup (map f l) -> In x l -> In y l -> f x = f y -> x = y.
Proof.
  induction l as [|a t IH]; simpl; intros N Ix Iy E; [tauto|].
  inversion N as [|? ? Na Nt]; subst.
  destruct Ix as [->|Ix]; destruct Iy as [->|Iy].
  - reflexivity.
  - elim Na. rewrite E. apply in_map. exact Iy.
  - elim Na. rewrite <- E. apply in_map. exact Ix.
  - exact (IH Nt Ix Iy E).
Qed.

(** No (department, band) pair occurs twice in the aging table. *)
Lemma vuln_age_query_keys_NoDup (vulns : list Vulnerability.row) :
  NoDup (map aging_key (vuln_age_query vulns)).
Proof.
  apply (Permutation_NoDup (l := map aging_key (aging_groups vulns))).
  - apply Permutation_map. symmetry. apply vuln_age_query_perm.
  - rewrite aging_keys. apply distinct_keys_NoDup.
Qed.

(** So the reshape never refuses it. *)
Lemma pivot_vuln_age_query (vulns : list Vulnerability.row) :
  let long := vuln_age_query vulns in
  pivot long
  = Ok {| index := distinct_keys (map Aging.Department long);
          columns := distinct_keys (map Aging.Age_Group long);
          values :=
            map (fun d => map (fun c => aging_lookup long d c)
                              (distinct_keys (map Aging.Age_Group long)))
                (distinct_keys (map Aging.Department long)) |}.
Proof.
  intros long. unfold pivot.
  rewrite (has_duplicates_NoDup (vuln_age_query_keys_NoDup vulns)). reflexivity.
Qed.

Lemma aging_lookup_row (long : list Aging.row) (row : Aging.row) :
  NoDup (map aging_key long) -> In row long ->
  aging_lookup long (Aging.Department row) (Aging.Age_Group row)
  = Some (Aging.Count row).
Proof.
  intros N I. unfold aging_lookup.
  destruct (find (fun r => eqk (aging_key r) (Aging.Department row, Aging.Age_Group row)) long)
    as [r|] eqn:F.
  - apply find_some in F. destruct F as [Ir E].
    apply (proj1 (eqk_true _ _)) in E.
    rewrite (NoDup_map_In_eq aging_key long r row N Ir I E). reflexivity.
  - exfalso. pose proof (find_none _ _ F row I) as X. simpl in X.
    unfold aging_key in X. rewrite eqk_refl in X. discriminate.
Qed.

Lemma aging_lookup_missing (long : list Aging.row) (d : option string) (c : string) :
  (forall row, In row long -> aging_key row <> (d, c)) ->
  aging_lookup long d c = None.
Proof.
  intros M. unfold aging_lookup.
  destruct (find (fun r => eqk (aging_key r) (d, c)) long) as [r|] eqn:F; [|reflexivity].
  apply find_some in F. destruct F as [Ir E].
  apply (proj1 (eqk_true _ _)) in E. elim (M r Ir E).
Qed.

(** A cell of the reshaped and filled table. *)
Lemma loc_pivot (long : list Aging.row) (wide : frame (option Z))
  (d : option string) (c : string) :
  pivot long = Ok wide -> In d (index wide) -> In c (columns wide) ->
  loc (fillna 0 wide) d c
  = Some (match aging_lookup long d c with Some n => n | None => 0 end).
Proof.
  unfold pivot. destruct (has_duplicates (map aging_key long)); [discriminate|].
  intros E. inversion E; subst; clear E. simpl. intros Id Ic.
  destruct (position_In d _ Id) as [i [Pi Ni]].
  destruct (position_In c _ Ic) as [j [Pj Nj]].
  unfold loc, fillna. simpl. rewrite Pi, Pj.
  rewrite map_map. rewrite nth_error_map, Ni. simpl.
  rewrite map_map. rewrite nth_error_map, Nj. reflexivity.
Qed.

Lemma aging_groups_canonical (vulns : list Vulnerability.row) (a : Aging.row) :
  In a (aging_groups vulns) -> In (Aging.Age_Group a) canonical_bands.
Proof.
  intros I. apply (in_map aging_key) in I. rewrite aging_keys in I.
  apply (proj1 (distinct_keys_In _ _)) in I.
  apply in_map_iff in I. destruct I as [v [E _]].
  unfold vuln_age_key, aging_key in E. inversion E as [[D G]].
  apply age_group_canonical.
Qed.

Lemma sorted_stably_before {A K : Type} `{CmpLaws K} (f : A -> K) (a b : A) :
  sorted_stably (fun a b => leb (f a) (f b)) (fun a b => f a <> f b) a b ->
  before (f a) (f b).
Proof.
  intros [L T]. unfold before. unfold leb in L, T.
  rewrite (cmp_antisym (f a) (f b)) in T.
  destruct (cmp (f a) (f b)) eqn:E; try discriminate; [|reflexivity].
  elim (T eq_refl). exact (cmp_eq _ _ E).
Qed.

(** The aging table is ordered by department, then by the rank of the
    band; no two rows share department and rank. *)
Lemma vuln_age_query_sorted (vulns : list Vulnerability.row) :
  StronglySorted aging_before (vuln_age_query vulns).
Proof.
  unfold vuln_age_query, order_by. fold (aging_groups vulns).
  apply (@StronglySorted_weaken _
           (sorted_stably (fun a b => leb (vuln_age_order a) (vuln_age_order b))
                          (fun a b => vuln_age_order a <> vuln_age_order b))).
  { intros a b _ _ S. exact (sorted_stably_before vuln_age_order S). }
  apply sort_by_stable.
  - intros a b. apply leb_total.
  - intros a b c. apply leb_trans.
  - apply (@StronglySorted_weaken _
             (fun a b => before (aging_key a) (aging_key b))).
    + intros a b Ia Ib B E.
      apply aging_groups_canonical in Ia. apply aging_groups_canonical in Ib.
      unfold vuln_age_order in E. inversion E as [[D G]].
      pose proof (age_rank_injective Ia Ib G) as X.
      unfold aging_key in B. rewrite D, X in B.
      exact (before_irrefl B).
    + apply StronglySorted_map. rewrite aging_keys. apply distinct_keys_sorted.
Qed.



(* ================================================================== *)
(** ** Empty filtered inputs *)

Lemma filter_and_nil (A : Type) (p q : A -> bool) (l : list A) :
  filter p l = [] -> filter (fun r => q r && p r) l = [].
Proof.
  induction l as [|a t IH]; simpl; [reflexivity|].
  destruct (p a); [discriminate|]. rewrite andb_false_r. exact IH.
Qed.

(** The queries always run to their end: the only step that can raise,
    the reshape, accepts every aging table. *)
Lemma execute_queries_Ok (db : database) :
  exists s, execute_queries db = Ok s
    /\ vuln_hotspot_df s = vuln_hotspot_query (from (vulnerabilities db))
    /\ vuln_age_df s = vuln_age_query (from (vulnerabilities db))
    /\ pivot (vuln_age_query (from (vulnerabilities db)))
       = Ok {| index := index (vuln_age_pivot s);
               columns := columns (vuln_age_pivot s);
               values :=
                 map (fun d =>
                        map (fun c => aging_lookup (vuln_age_df s) d c)
                            (columns (vuln_age_pivot s)))
                     (index (vuln_age_pivot s)) |}
    /\ vuln_type_df s = map short_title (vuln_type_query (from (vulnerabilities db)))
    /\ status_df s = status_query (from (vulnerabilities db))
    /\ critical_df s = critical_vuln_query (from (vulnerabilities db)).
Proof.
  unfold execute_queries.
  rewrite (pivot_vuln_age_query (from (vulnerabilities db))). cbv zeta. simpl.
  eexists. split; [reflexivity|]. simpl. repeat split; reflexivity.
Qed.

(** C7. When no vulnerability is open, the hotspot table, the aging
    table and its matrix, the table of the top types and the table of
    the critical departments are empty; when the filter of query 9
    (critical and open) matches nothing its table is empty; when there
    is no vulnerability at all the status table is empty.  In each case
    the queries return normally. *)
Theorem empty_filter_gives_empty_table (db : database) :
  exists s,
    execute_queries db = Ok s
    /\ (filter is_open (from (vulnerabilities db)) = [] ->
          vuln_hotspot_df s = []
          /\ vuln_age_df s = []
          /\ vuln_age_pivot s = {| index := []; columns := []; values := [] |}
          /\ frame_empty (vuln_age_pivot s) = true
          /\ vuln_type_df s = []
          /\ critical_df s = [])
    /\ (filter (fun r => is_critical r && is_open r) (from (vulnerabilities db)) = [] ->
          critical_df s = [])
    /\ (from (vulnerabilities db) = [] -> status_df s = []).
Proof.
  unfold execute_queries.
  rewrite (pivot_vuln_age_query (from (vulnerabilities db))). cbv zeta. simpl.
  eexists. split; [reflexivity|]. simpl. split; [|split].
  - intros E.
    assert (vuln_age_query (from (vulnerabilities db)) = []) as A
      by (unfold vuln_age_query; rewrite E; reflexivity).
    unfold vuln_hotspot_query, vuln_type_query, critical_vuln_query.
    rewrite (@filter_and_nil _ is_open is_critical _ E), E, A. repeat split; reflexivity.
  - intros E. unfold critical_vuln_query. rewrite E. reflexivity.
  - intros E. unfold status_query. rewrite E. reflexivity.
Qed.

Lemma empty_filter_gives_empty_table_witness :
  exists s,
    execute_queries
      (to_sql_vulnerabilities
         [vulnerability "IT" "Critical" "Closed" (Some 12%Q);
          vulnerability "HR" "Low" "Mitigated" None] empty_database) = Ok s
    /\ vuln_hotspot_df s = [] /\ vuln_age_df s = []
    /\ frame_empty (vuln_age_pivot s) = true
    /\ vuln_type_df s = [] /\ critical_df s = []
    /\ status_df s <> [].
Proof.
  destruct (empty_filter_gives_empty_table
              (to_sql_vulnerabilities
                 [vulnerability "IT" "Critical" "Closed" (Some 12%Q);
                  vulnerability "HR" "Low" "Mitigated" None] empty_database))
    as [s [E [O [C S]]]].
  exists s. split; [exact E|].
  destruct (O eq_refl) as [H1 [H2 [H3 [H4 [H5 H6]]]]].
  repeat split; try assumption.
  intros X. vm_compute in E. inversion E as [Es]. rewrite <- Es in X.
  discriminate X.
Defined.

(* ================================================================== *)
(** ** Determinism *)

(** After the three [to_sql] nothing of the earlier file is left in the
    tables the queries read. *)
Lemma load_forgets (old1 old2 : database) (inp : inputs) :
  load old1 inp = load old2 inp.
Proof.
  unfold load. destruct (mapM load_campaign (phishing_df inp)); reflexivity.
Qed.

Lemma read_sql_query_read_only (q : query) (conn : database) :
  snd (read_sql_query q conn) = conn.
Proof. destruct q; reflexivity. Qed.

Lemma execute_in_order_read_only (qs : list query) (conn : database) :
  snd (execute_in_order qs conn) = conn.
Proof.
  induction qs as [|q rest IH]; simpl; [reflexivity|].
  pose proof (read_sql_query_read_only q conn) as Rq.
  destruct (read_sql_query q conn) as [t conn1]. simpl in Rq. subst conn1.
  destruct (execute_in_order rest conn) as [ts conn2]. simpl in *. exact IH.
Qed.

Lemma query_eqb_eq (a b : query) : query_eqb a b = true <-> a = b.
Proof. destruct a, b; simpl; split; intros X; try reflexivity; discriminate. Qed.

Lemma execute_in_order_result (qs : list query) (conn : database) (q : query) :
  result_of q (fst (execute_in_order qs conn))
  = if existsb (query_eqb q) qs then Some (fst (read_sql_query q conn)) else None.
Proof.
  induction qs as [|q' rest IH]; simpl; [reflexivity|].
  pose proof (read_sql_query_read_only q' conn) as Rq.
  destruct (read_sql_query q' conn) as [t conn1] eqn:E. simpl in Rq. subst conn1.
  destruct (execute_in_order rest conn) as [ts conn2]. simpl in *.
  destruct (query_eqb q q') eqn:Q; simpl.
  - apply (proj1 (query_eqb_eq q q')) in Q. subst. rewrite E. reflexivity.
  - exact IH.
Qed.

Lemma execute_queries_tables (db : database) (s : summaries) (q : query) :
  execute_queries db = Ok s -> fst (read_sql_query q db) = summary_of s q.
Proof.
  unfold execute_queries.
  rewrite (pivot_vuln_age_query (from (vulnerabilities db))). cbv zeta. simpl.
  intros E. inversion E as [Es]. clear E Es.
  destruct q; try reflexivity.
  simpl. rewrite map_map. simpl. rewrite map_id. reflexivity.
Qed.

(** C8. The summary tables of a run are a function of the three input
    tables alone: two runs on the same inputs end alike, with the same
    ten tables or with the same exception, whatever database file each
    run found.  The nine statements only read the connection, so in
    whatever order they are executed each returns what it returns on
    the loaded tables, which is the table the script keeps, and two
    orders of the same statements return the same table for every
    statement. *)
Theorem aggregations_are_deterministic :
  (forall (old1 old2 : database) (inp : inputs),
     outcome (run old1 inp) = outcome (run old2 inp))
  /\ (forall (conn : database) (qs : list query),
        snd (execute_in_order qs conn) = conn
        /\ forall q, In q qs ->
             result_of q (fst (execute_in_order qs conn))
             = Some (fst (read_sql_query q conn)))
  /\ (forall (conn : database) (s : summaries) (qs : list query) (q : query),
        execute_queries conn = Ok s -> In q qs ->
        result_of q (fst (execute_in_order qs conn)) = Some (summary_of s q))
  /\ (forall (conn : database) (qs1 qs2 : list query),
        Permutation qs1 qs2 ->
        forall q, result_of q (fst (execute_in_order qs1 conn))
                  = result_of q (fst (execute_in_order qs2 conn))).
Proof.
  assert (forall (qs : list query) (q : query),
            In q qs -> existsb (query_eqb q) qs = true) as Found.
  { intros qs q I. apply existsb_exists. exists q. split; [exact I|].
    apply query_eqb_eq. reflexivity. }
  split; [|split; [|split]].
  - intros old1 old2 inp. unfold run. rewrite (load_forgets old1 old2 inp). reflexivity.
  - intros conn qs. split; [apply execute_in_order_read_only|].
    intros q I. rewrite execute_in_order_result, (Found qs q I). reflexivity.
  - intros conn s qs q E I.
    rewrite execute_in_order_result, (Found qs q I).
    rewrite (execute_queries_tables conn q E). reflexivity.
  - intros conn qs1 qs2 P q. rewrite !execute_in_order_result.
    assert (existsb (query_eqb q) qs1 = existsb (query_eqb q) qs2) as E.
    { induction P; simpl; try congruence.
      destruct (query_eqb q x), (query_eqb q y); reflexivity. }
    rewrite E. reflexivity.
Qed.

Lemma aggregations_are_deterministic_witness :
  let conn := to_sql_vulnerabilities
                [vulnerability "IT" "Critical" "Open" (Some 12%Q)] empty_database in
  result_of Q_status (fst (execute_in_order [Q_critical_vuln; Q_status] conn))
  = Some (fst (read_sql_query Q_status conn))
  /\ result_of Q_status (fst (execute_in_order [Q_critical_vuln; Q_status] conn))
     = result_of Q_status (fst (execute_in_order [Q_status; Q_critical_vuln] conn)).
Proof.
  intros conn. split.
  - apply (proj2 (proj1 (proj2 aggregations_are_deterministic) conn
                    [Q_critical_vuln; Q_status])).
    simpl. right. left. reflexivity.
  - apply (proj2 (proj2 (proj2 aggregations_are_deterministic)) conn).
    apply perm_swap.
Defined.

(* ================================================================== *)
(** ** Top incident types *)

Lemma incident_type_query_limit (incidents : list Incident.row) :
  incident_type_query incidents = firstn 6 (incident_type_ranking incidents).
Proof. reflexivity. Qed.

Lemma order_by_desc_perm (A : Type) (f : A -> Z) (l : list A) :
  Permutation (order_by_desc f l) l.
Proof. unfold order_by_desc. apply sort_by_perm. Qed.

Lemma incident_type_ranking_In (incidents : list Incident.row) (row : IncidentType.row) :
  In row (incident_type_ranking incidents) <->
  In (IncidentType.Incident_Type row) (map incident_type_of incidents)
  /\ row = incident_type_row incidents (IncidentType.Incident_Type row).
Proof.
  unfold incident_type_ranking, order_by_desc. rewrite sort_by_In.
  rewrite in_map_iff. unfold group_by_desc. split.
  - intros [[k g] [<- I]]. apply in_rev in I.
    apply (proj1 (group_by_In _ _ _ _)) in I. destruct I as [I ->].
    split; [exact I|reflexivity].
  - intros [I E].
    exists (IncidentType.Incident_Type row,
            filter (fun r => eqk (incident_type_of r) (IncidentType.Incident_Type row))
                   incidents).
    split; [symmetry; exact E|].
    apply -> in_rev. apply group_by_In. split; [exact I|reflexivity].
Qed.

(** Sorted by count, larger first; equal counts by type, larger first
    (the order in which the grouping emits them). *)
Lemma incident_type_ranking_sorted (incidents : list Incident.row) :
  StronglySorted ranks_before (incident_type_ranking incidents).
Proof.
  unfold incident_type_ranking, order_by_desc.
  apply (@StronglySorted_weaken _
           (sorted_stably
              (fun a b => Z.leb (IncidentType.Count b) (IncidentType.Count a))
              (fun a b => after (IncidentType.Incident_Type a)
                                (IncidentType.Incident_Type b)))).
  { intros a b _ _ [L T]. unfold ranks_before.
    apply Z.leb_le in L.
    destruct (Z.eq_dec (IncidentType.Count a) (IncidentType.Count b)) as [E|N].
    - right. split; [exact E|]. apply T. apply Z.leb_le. lia.
    - left. lia. }
  apply sort_by_stable.
  - intros a b. rewrite !Z.leb_le. lia.
  - intros a b c. rewrite !Z.leb_le. lia.
  - apply StronglySorted_map with (f := IncidentType.Incident_Type)
                                  (P := fun x y => after x y).
    rewrite map_map. unfold group_by_desc.
    replace (map (fun x => IncidentType.Incident_Type
                             (incident_type_select (count incidents) x))
                 (rev (group_by incident_type_of incidents)))
      with (rev (distinct_keys (map incident_type_of incidents))).
    + apply (@StronglySorted_weaken _ (fun a b => before b a)).
      * intros a b _ _ B. apply after_before. exact B.
      * apply StronglySorted_rev. apply distinct_keys_sorted.
    + rewrite <- (group_by_keys incident_type_of). rewrite <- map_rev. reflexivity.
Qed.

Lemma sorted_firstn_top (A : Type) (P : A -> A -> Prop) (n : nat) (l : list A) (x : A) :
  StronglySorted P l -> In x l ->
  In x (firstn n l)
  \/ (length (firstn n l) = n /\ forall a, In a (firstn n l) -> P a x).
Proof.
  intros S. revert n. induction S as [|y t S IH F]; intros n I; [destruct I|].
  destruct n as [|n]; simpl.
  - right. split; [reflexivity|tauto].
  - destruct I as [->|I]; [left; left; reflexivity|].
    destruct (IH n I) as [J|[L D]].
    + left. right. exact J.
    + right. split; [rewrite L; reflexivity|].
      intros a [<-|Ia]; [|exact (D a Ia)].
      rewrite Forall_forall in F. exact (F x I).
Qed.

(** C3, as amended.  The incident-type query emits at most six rows,
    one per type, each with the number of incidents of the type and
    that number as a percentage of all incidents rounded to one
    decimal; the rows are in descending order of count and rows of
    equal count are in descending order of type; a type without a row
    is ranked after the six rows emitted. *)
Theorem top_incident_types (incidents : list Incident.row) :
  let out := incident_type_query incidents in
  (length out <= 6)%nat
  /\ StronglySorted ranks_before out
  /\ (forall row, In row out ->
        In (IncidentType.Incident_Type row) (map incident_type_of incidents)
        /\ IncidentType.Count row
           = count (filter (fun r => eqk (incident_type_of r)
                                         (IncidentType.Incident_Type row)) incidents)
        /\ IncidentType.Percentage row
           = sql_round (inject_Z (IncidentType.Count row) * 100
                        / inject_Z (count incidents)) 1)
  /\ (forall r, In r incidents ->
        In (incident_type_row incidents (incident_type_of r)) out
        \/ (length out = 6%nat
            /\ forall row, In row out ->
                 ranks_before row (incident_type_row incidents (incident_type_of r)))).
Proof.
  intros out. unfold out. rewrite incident_type_query_limit.
  split; [apply firstn_le_length|].
  split; [apply StronglySorted_firstn, incident_type_ranking_sorted|].
  split.
  - intros row I. apply firstn_In in I.
    apply (proj1 (incident_type_ranking_In _ _)) in I. destruct I as [I E].
    split; [exact I|]. rewrite E. simpl. split; reflexivity.
  - intros r I. apply sorted_firstn_top.
    + apply incident_type_ranking_sorted.
    + apply incident_type_ranking_In. split; [|reflexivity].
      simpl. apply in_map. exact I.
Qed.

Lemma top_incident_types_witness :
  let incidents := [incident_of_type "Malware"; incident_of_type "Phishing";
                    incident_of_type "Malware"] in
  IncidentType.Count
    (incident_type_row incidents (Some "Malware"%string)) = 2
  /\ In (incident_type_row incidents (Some "Malware"%string))
        (incident_type_query incidents).
Proof.
  intros incidents. split; [reflexivity|].
  destruct (top_incident_types incidents) as [_ [_ [_ T]]].
  destruct (T (incident_of_type "Malware")) as [I|[L _]].
  - simpl. left. reflexivity.
  - exact I.
  - vm_compute in L. discriminate L.
Defined.

(** C3, as stated, fails: three incidents of types Malware, DDoS and
    Phishing, one each and in that order, are emitted as Phishing,
    Malware, DDoS; Phishing precedes Malware in the result although
    Malware appears first in the table. *)
Lemma ties_not_in_input_order :
  let incidents := [incident_of_type "Malware"; incident_of_type "DDoS";
                    incident_of_type "Phishing"] in
  map IncidentType.Incident_Type (incident_type_query incidents)
  = [Some "Phishing"; Some "Malware"; Some "DDoS"]%string
  /\ ~ ties_in_input_order incidents (incident_type_query incidents).
Proof.
  intros incidents. split; [reflexivity|].
  intros T.
  specialize (T 0%nat 1%nat
                (incident_type_row incidents (Some "Phishing"%string))
                (incident_type_row incidents (Some "Malware"%string))).
  assert (2 < 0)%nat as X; [|lia].
  apply T; [lia|reflexivity|reflexivity|reflexivity].
Qed.

(* ================================================================== *)
(** ** Rounding and the percentage column *)

Lemma round_half_away_bounds (q : Q) :
  (q - (1 # 2) <= inject_Z (round_half_away q)
   /\ inject_Z (round_half_away q) <= q + (1 # 2))%Q.
Proof.
  unfold round_half_away. destruct (Qle_bool 0 q).
  - pose proof (Qfloor_le (q + (1 # 2))) as L.
    pose proof (Qlt_floor (q + (1 # 2))) as U.
    rewrite inject_Z_plus in U. change (inject_Z 1) with 1%Q in U. split; lra.
  - pose proof (Qfloor_le (- q + (1 # 2))) as L.
    pose proof (Qlt_floor (- q + (1 # 2))) as U.
    rewrite inject_Z_plus in U. change (inject_Z 1) with 1%Q in U.
    rewrite inject_Z_opp. split; lra.
Qed.

(** ROUND(x, 1) is within 0.05 of [x]. *)
Lemma sql_round_1_bounds (x : Q) :
  (x - (1 # 20) <= sql_round x 1 /\ sql_round x 1 <= x + (1 # 20))%Q.
Proof.
  unfold sql_round. change (10 ^ Z.of_nat 1) with 10.
  change (Z.to_pos 10) with 10%positive.
  rewrite Qred_correct.
  destruct (round_half_away_bounds (x * inject_Z 10)) as [L U].
  set (z := round_half_away (x * inject_Z 10)) in *.
  rewrite (Qmake_Qdiv z 10).
  change (inject_Z 10) with (10 # 1)%Q in *.
  change (inject_Z (Z.pos 10)) with (10 # 1)%Q.
  split.
  - apply Qle_shift_div_l; [reflexivity|]. lra.
  - apply Qle_shift_div_r; [reflexivity|]. lra.
Qed.

Lemma Qsum_perm (l1 l2 : list Q) : Permutation l1 l2 -> (Qsum l1 == Qsum l2)%Q.
Proof.
  induction 1 as [|x l1 l2 P IH|x y l|l1 l2 l3 P1 IH1 P2 IH2]; simpl.
  - reflexivity.
  - rewrite IH. reflexivity.
  - ring.
  - rewrite IH1. exact IH2.
Qed.

Lemma Qsum_firstn_le (n : nat) (l : list Q) :
  Forall (fun x => (0 <= x)%Q) l -> (Qsum (firstn n l) <= Qsum l)%Q.
Proof.
  intros F. revert n. induction F as [|x l Px F IH]; intros [|n]; simpl.
  - apply Qle_refl.
  - apply Qle_refl.
  - pose proof (IH O) as Z0. simpl in Z0. lra.
  - pose proof (IH n). lra.
Qed.

Lemma Qsum_rounded (xs : list Q) :
  (Qsum xs - (1 # 20) * inject_Z (Z.of_nat (length xs))
   <= Qsum (map (fun x => sql_round x 1) xs)
   /\ Qsum (map (fun x => sql_round x 1) xs)
      <= Qsum xs + (1 # 20) * inject_Z (Z.of_nat (length xs)))%Q.
Proof.
  induction xs as [|x xs [L U]].
  - split; vm_compute; discriminate.
  - cbn [map Qsum fold_right length].
    fold (Qsum xs). fold (Qsum (map (fun x => sql_round x 1) xs)).
    rewrite Nat2Z.inj_succ. unfold Z.succ. rewrite inject_Z_plus.
    destruct (sql_round_1_bounds x) as [Lx Ux].
    change (inject_Z 1) with 1%Q. split; lra.
Qed.

(** The counts of the groups add up to the number of rows. *)
Lemma group_counts_total (R K : Type) `{CmpLaws K} (key : R -> K) (rows : list R) :
  fold_right (fun g acc => count (snd g) + acc) 0 (group_by key rows) = count rows.
Proof.
  unfold group_by, count.
  rewrite <- (group_sizes key rows (distinct_keys_NoDup (map key rows))).
  - induction (distinct_keys (map key rows)) as [|k ks IH]; simpl; [reflexivity|].
    rewrite IH. lia.
  - intros r I. apply distinct_keys_In. apply in_map. exact I.
Qed.

Lemma Qsum_shares (total : Z) (rows : list IncidentType.row) :
  (Qsum (map (share total) rows)
   == inject_Z (fold_right (fun r acc => (IncidentType.Count r + acc)%Z) 0%Z rows)
      * 100 / inject_Z total)%Q.
Proof.
  induction rows as [|r rows IH]; simpl.
  - unfold Qdiv. ring.
  - rewrite IH. unfold share. rewrite inject_Z_plus. unfold Qdiv. ring.
Qed.

Lemma count_nonneg (A : Type) (g : list A) : 0 <= count g.
Proof. unfold count. lia. Qed.

Lemma share_nonneg (total : Z) (row : IncidentType.row) :
  0 < total -> 0 <= IncidentType.Count row -> (0 <= share total row)%Q.
Proof.
  intros T C. unfold share.
  apply Qle_shift_div_l.
  - change 0%Q with (inject_Z 0). rewrite <- Zlt_Qlt. exact T.
  - assert (0 <= inject_Z (IncidentType.Count row))%Q as X
      by (change 0%Q with (inject_Z 0); rewrite <- Zle_Qle; exact C).
    lra.
Qed.

Lemma selected_counts (total : Z) (gs : list (option string * list Incident.row)) :
  fold_right (fun r acc => IncidentType.Count r + acc) 0
    (map (incident_type_select total) gs)
  = fold_right (fun g acc => count (snd g) + acc) 0 gs.
Proof.
  induction gs as [|g gs IH]; simpl; [reflexivity|]. rewrite IH. reflexivity.
Qed.

(** Before LIMIT the exact shares of the rows add up to 100. *)
Lemma ranking_shares (incidents : list Incident.row) :
  incidents <> [] ->
  (Qsum (map (share (count incidents)) (incident_type_ranking incidents)) == 100)%Q.
Proof.
  intros NE.
  assert (0 < count incidents) as P by (apply count_pos; exact NE).
  unfold incident_type_ranking.
  rewrite (Qsum_perm (Permutation_map _ (order_by_desc_perm IncidentType.Count _))).
  unfold group_by_desc. rewrite !map_rev.
  rewrite (Qsum_perm (Permutation_sym (Permutation_rev _))).
  rewrite Qsum_shares.
  replace (fold_right (fun r acc => IncidentType.Count r + acc) 0
             (map (incident_type_select (count incidents))
                  (group_by incident_type_of incidents)))
    with (count incidents).
  - field. intro X.
    assert (inject_Z (count incidents) == inject_Z 0)%Q as Y by exact X.
    rewrite inject_Z_injective in Y. lia.
  - rewrite selected_counts. rewrite (group_counts_total incident_type_of incidents).
    reflexivity.
Qed.

Lemma ranking_percentages (incidents : list Incident.row) (rows : list IncidentType.row) :
  (forall row, In row rows -> In row (incident_type_ranking incidents)) ->
  map IncidentType.Percentage rows
  = map (fun x => sql_round x 1) (map (share (count incidents)) rows).
Proof.
  intros S. rewrite map_map. apply map_ext_in. intros row I.
  apply S in I. apply (proj1 (incident_type_ranking_In _ _)) in I.
  destruct I as [_ E]. rewrite E. reflexivity.
Qed.

Lemma ranking_length (incidents : list Incident.row) :
  length (incident_type_ranking incidents)
  = length (distinct_keys (map incident_type_of incidents)).
Proof.
  unfold incident_type_ranking.
  rewrite (Permutation_length (order_by_desc_perm _ _)).
  rewrite length_map. unfold group_by_desc. rewrite length_rev.
  unfold group_by. rewrite length_map. reflexivity.
Qed.

Lemma ranking_shares_nonneg (incidents : list Incident.row) :
  incidents <> [] ->
  Forall (fun x => (0 <= x)%Q)
         (map (share (count incidents)) (incident_type_ranking incidents)).
Proof.
  intros NE. apply Forall_forall. intros x I.
  apply in_map_iff in I. destruct I as [row [<- I]].
  apply share_nonneg; [apply count_pos; exact NE|].
  apply (proj1 (incident_type_ranking_In _ _)) in I. destruct I as [_ E].
  rewrite E. simpl. apply count_nonneg.
Qed.

(** C5, as amended.  For a non-empty incident table the Percentage
    column of the incident-type table is within 0.05 per emitted row
    of 100 when there are at most six types; in every case, truncated
    or not, it is at most 100 plus 0.05 per emitted row, that is at
    most 100.3. *)
Theorem percentage_sum_within_rounding (incidents : list Incident.row) :
  incidents <> [] ->
  let out := incident_type_query incidents in
  let slack := ((1 # 20) * inject_Z (Z.of_nat (length out)))%Q in
  ((length (distinct_keys (map incident_type_of incidents)) <= 6)%nat ->
     (Qabs (percentage_sum out - 100) <= slack)%Q)
  /\ (percentage_sum out <= 100 + slack)%Q
  /\ (slack <= 3 # 10)%Q.
Proof.
  intros NE out slack.
  assert (forall row, In row out -> In row (incident_type_ranking incidents)) as Sub.
  { intros row I. unfold out in I. rewrite incident_type_query_limit in I.
    eapply firstn_In. exact I. }
  assert (percentage_sum out
          = Qsum (map (fun x => sql_round x 1) (map (share (count incidents)) out))) as E.
  { unfold percentage_sum. rewrite (ranking_percentages incidents out Sub). reflexivity. }
  destruct (Qsum_rounded (map (share (count incidents)) out)) as [L U].
  rewrite length_map in L, U. fold slack in L, U. rewrite <- E in L, U.
  assert (Qsum (map (share (count incidents)) out) <= 100)%Q as Top.
  { unfold out. rewrite incident_type_query_limit. rewrite <- firstn_map.
    rewrite <- (ranking_shares NE). apply Qsum_firstn_le.
    apply ranking_shares_nonneg. exact NE. }
  split; [|split].
  - intros Few.
    assert (out = incident_type_ranking incidents) as All.
    { unfold out. rewrite incident_type_query_limit. apply firstn_all2.
      rewrite ranking_length. exact Few. }
    assert (Qsum (map (share (count incidents)) out) == 100)%Q as Exact.
    { rewrite All. apply ranking_shares. exact NE. }
    apply Qabs_Qle_condition. split; lra.
  - lra.
  - assert (length out <= 6)%nat as Len.
    { unfold out. rewrite incident_type_query_limit. apply firstn_le_length. }
    unfold slack.
    assert (inject_Z (Z.of_nat (length out)) <= 6)%Q as B.
    { change 6%Q with (inject_Z 6). rewrite <- Zle_Qle. lia. }
    lra.
Qed.

Lemma percentage_sum_within_rounding_witness :
  let incidents := [incident_of_type "Malware"; incident_of_type "Phishing";
                    incident_of_type "Malware"] in
  (Qabs (percentage_sum (incident_type_query incidents) - 100)
   <= (1 # 20) * inject_Z (Z.of_nat (length (incident_type_query incidents))))%Q
  /\ (percentage_sum (incident_type_query incidents) == 100)%Q.
Proof.
  intros incidents. split.
  - apply (proj1 (@percentage_sum_within_rounding incidents
                    ltac:(discriminate))).
    vm_compute. lia.
  - vm_compute. reflexivity.
Defined.

(** C5, as stated, fails where the table is truncated: of 540
    incidents of seven types (five types with 91 incidents, one with
    84, one with 1) the six emitted percentages are 16.9 five times and
    15.6, which add up to 100.1. *)
Lemma truncated_percentages_exceed_100 :
  length (distinct_keys (map incident_type_of skewed_incidents)) = 7%nat
  /\ map IncidentType.Percentage (incident_type_query skewed_incidents)
     = [169 # 10; 169 # 10; 169 # 10; 169 # 10; 169 # 10; 78 # 5]%Q
  /\ ~ (percentage_sum (incident_type_query skewed_incidents) <= 100)%Q.
Proof.
  split; [vm_compute; reflexivity|]. split; [vm_compute; reflexivity|].
  intros X. apply Qle_bool_iff in X. vm_compute in X. discriminate X.
Qed.

(* ================================================================== *)
(** ** MTTR trend *)

Lemma sum_case_count (A : Type) (c : A -> bool) (g : list A) :
  sum_case c g = count (filter c g).
Proof.
  unfold count. induction g as [|a g IH]; [reflexivity|].
  cbn [sum_case fold_right filter]. fold (sum_case c g). rewrite IH.
  destruct (c a); [|lia]. cbn [length]. rewrite Nat2Z.inj_succ. lia.
Qed.

Lemma non_null_all (A : Type) (l : list (option A)) :
  (forall x, In x l -> is_not_null x = true) -> length (non_null l) = length l.
Proof.
  induction l as [|x l IH]; simpl; intros P; [reflexivity|].
  pose proof (P x (or_introl eq_refl)) as Px. destruct x; [|discriminate].
  simpl. f_equal. apply IH. intros y I. apply P. right. exact I.
Qed.

Lemma sql_avg_some (l : list (option Q)) :
  non_null l <> [] ->
  sql_avg l = Some (Qsum (non_null l) / inject_Z (Z.of_nat (length (non_null l))))%Q.
Proof.
  unfold sql_avg. destruct (non_null l); [congruence|reflexivity].
Qed.

Lemma mttr_query_months (incidents : list Incident.row) :
  map Mttr.Month (mttr_query incidents)
  = distinct_keys (map mttr_month (filter mttr_where incidents)).
Proof.
  unfold mttr_query. rewrite map_map.
  rewrite <- (group_by_keys mttr_month). apply map_ext. intros [k g]. reflexivity.
Qed.

Lemma mttr_query_In (incidents : list Incident.row) (row : Mttr.row) :
  In row (mttr_query incidents) <->
  In (Mttr.Month row) (map mttr_month (filter mttr_where incidents))
  /\ row = mttr_select (Mttr.Month row, resolved_in_month (Mttr.Month row) incidents).
Proof.
  unfold mttr_query. rewrite in_map_iff. split.
  - intros [[k g] [<- I]]. apply (proj1 (group_by_In _ _ _ _)) in I.
    destruct I as [I ->]. split; [exact I|reflexivity].
  - intros [I E].
    exists (Mttr.Month row, resolved_in_month (Mttr.Month row) incidents).
    split; [symmetry; exact E|]. apply group_by_In. split; [exact I|reflexivity].
Qed.

Lemma resolved_have_times (m : option string) (incidents : list Incident.row) :
  length (response_times (resolved_in_month m incidents))
  = length (resolved_in_month m incidents).
Proof.
  unfold response_times. rewrite non_null_all; [apply length_map|].
  intros x I. apply in_map_iff in I. destruct I as [r [<- I]].
  unfold resolved_in_month in I. apply filter_In in I. destruct I as [I _].
  apply filter_In in I. destruct I as [_ W]. unfold mttr_where in W.
  apply andb_true_iff in W. exact (proj2 W).
Qed.

Lemma round_half_away_Qeq (x y : Q) : (x == y)%Q -> round_half_away x = round_half_away y.
Proof.
  intros E. unfold round_half_away.
  assert (Qle_bool 0 x = Qle_bool 0 y) as B by (rewrite E; reflexivity).
  assert (Qfloor (x + (1 # 2)) = Qfloor (y + (1 # 2))) as F1 by (rewrite E; reflexivity).
  assert (Qfloor (- x + (1 # 2)) = Qfloor (- y + (1 # 2))) as F2 by (rewrite E; reflexivity).
  rewrite B, F1, F2. reflexivity.
Qed.

Lemma sql_round_Qeq (x y : Q) (n : nat) : (x == y)%Q -> sql_round x n = sql_round y n.
Proof.
  intros E. unfold sql_round.
  rewrite (@round_half_away_Qeq (x * inject_Z (10 ^ Z.of_nat n))%Q
                                (y * inject_Z (10 ^ Z.of_nat n))%Q); [reflexivity|].
  rewrite E. reflexivity.
Qed.

Section SingleGroup.
Context {R K : Type} `{CmpLaws K}.
Variable key : R -> K.

(** Rows that all carry one key form one group. *)
Lemma group_by_single (k : K) (rows : list R) :
  rows <> [] -> (forall r, In r rows -> key r = k) ->
  group_by key rows = [(k, rows)].
Proof.
  intros NE A. unfold group_by.
  assert (distinct_keys (map key rows) = [k]) as D.
  { destruct rows as [|r0 rows]; [congruence|]. clear NE.
    revert r0 A. induction rows as [|r1 rows IH]; intros r0 A.
    - simpl. rewrite (A r0 (or_introl eq_refl)). reflexivity.
    - change (insert_key (key r0) (distinct_keys (map key (r1 :: rows))) = [k]).
      rewrite (IH r1); [|intros r I; apply A; right; exact I].
      rewrite (A r0 (or_introl eq_refl)). simpl. rewrite (cmp_refl k). reflexivity. }
  rewrite D. simpl. f_equal. f_equal.
  clear D NE. induction rows as [|r rows IH]; simpl; [reflexivity|].
  rewrite (A r (or_introl eq_refl)), eqk_refl. f_equal.
  apply IH. intros r' I. apply A. right. exact I.
Qed.

End SingleGroup.

Lemma filter_all (A : Type) (p : A -> bool) (l : list A) :
  (forall x, In x l -> p x = true) -> filter p l = l.
Proof.
  induction l as [|a l IH]; simpl; intros P; [reflexivity|].
  rewrite (P a (or_introl eq_refl)). f_equal. apply IH.
  intros x I. apply P. right. exact I.
Qed.

(* ================================================================== *)
(** ** The text of a month sorts like the month *)

Section MonthText.
Local Open Scope N_scope.

Ltac forget t := let x := fresh "n" in set (x := t) in *; clearbody x.

Ltac digits_of a b :=
  pose proof (N.Div0.div_mod a b);
  pose proof (N.mod_lt a b ltac:(discriminate)).

Lemma digit_char_code (n : N) : N_of_ascii (digit_char n) = 48 + n mod 10.
Proof.
  unfold digit_char. apply N_ascii_embedding.
  pose proof (N.mod_lt n 10 ltac:(discriminate)). lia.
Qed.

Lemma digit_cons_compare (a b : N) (s t : string) :
  String_as_OT.compare (String (digit_char a) s) (String (digit_char b) t)
  = match a mod 10 ?= b mod 10 with
    | Eq => String_as_OT.compare s t
    | c => c
    end.
Proof.
  cbn [String_as_OT.compare]. unfold Ascii_as_OT.compare.
  rewrite !digit_char_code.
  change N_as_OT.compare with N.compare.
  destruct (N.compare_spec (a mod 10) (b mod 10)) as [E|L|L].
  - rewrite E, N.compare_refl. reflexivity.
  - assert (48 + a mod 10 < 48 + b mod 10) as X by lia.
    apply N.compare_lt_iff in X. rewrite X. reflexivity.
  - assert (48 + b mod 10 < 48 + a mod 10) as X by lia.
    apply N.compare_gt_iff in X. rewrite X. reflexivity.
Qed.

Lemma pad2_compare (a b : N) (s t : string) :
  String_as_OT.compare (pad2 a ++ s) (pad2 b ++ t)
  = match a mod 100 ?= b mod 100 with
    | Eq => String_as_OT.compare s t
    | c => c
    end.
Proof.
  unfold pad2. cbn [append]. rewrite !digit_cons_compare.
  digits_of a 10.
  digits_of (a / 10) 10.
  digits_of b 10.
  digits_of (b / 10) 10.
  digits_of a 100.
  digits_of b 100.
  assert (a / 100 = a / 10 / 10) by (rewrite N.Div0.div_div; reflexivity).
  assert (b / 100 = b / 10 / 10) by (rewrite N.Div0.div_div; reflexivity).
  destruct (N.compare_spec ((a / 10) mod 10) ((b / 10) mod 10));
    destruct (N.compare_spec (a mod 10) (b mod 10));
    destruct (N.compare_spec (a mod 100) (b mod 100)); try reflexivity; exfalso;
    forget (a mod 100); forget (b mod 100); forget (a / 100); forget (b / 100);
    forget ((a / 10) mod 10); forget ((b / 10) mod 10);
    forget (a / 10 / 10); forget (b / 10 / 10);
    forget (a mod 10); forget (b mod 10); forget (a / 10); forget (b / 10); lia.
Qed.

Lemma pad4_compare (a b : N) (s t : string) :
  String_as_OT.compare (pad4 a ++ s) (pad4 b ++ t)
  = match a mod 10000 ?= b mod 10000 with
    | Eq => String_as_OT.compare s t
    | c => c
    end.
Proof.
  unfold pad4. cbn [append]. rewrite !digit_cons_compare. rewrite pad2_compare.
  digits_of a 100.
  digits_of (a / 100) 10.
  digits_of (a / 1000) 10.
  digits_of a 10000.
  assert (a / 1000 = a / 100 / 10) by (rewrite N.Div0.div_div; reflexivity).
  assert (a / 10000 = a / 1000 / 10) by (rewrite N.Div0.div_div; reflexivity).
  digits_of b 100.
  digits_of (b / 100) 10.
  digits_of (b / 1000) 10.
  digits_of b 10000.
  assert (b / 1000 = b / 100 / 10) by (rewrite N.Div0.div_div; reflexivity).
  assert (b / 10000 = b / 1000 / 10) by (rewrite N.Div0.div_div; reflexivity).
  destruct (N.compare_spec ((a / 1000) mod 10) ((b / 1000) mod 10));
    destruct (N.compare_spec ((a / 100) mod 10) ((b / 100) mod 10));
    destruct (N.compare_spec (a mod 100) (b mod 100));
    destruct (N.compare_spec (a mod 10000) (b mod 10000));
    try reflexivity; exfalso;
    forget (a mod 10000); forget (b mod 10000); forget (a / 10000); forget (b / 10000);
    forget ((a / 1000) mod 10); forget ((b / 1000) mod 10);
    forget (a / 1000 / 10); forget (b / 1000 / 10);
    forget ((a / 100) mod 10); forget ((b / 100) mod 10);
    forget (a / 100 / 10); forget (b / 100 / 10);
    forget (a / 1000); forget (b / 1000);
    forget (a mod 100); forget (b mod 100); forget (a / 100); forget (b / 100); lia.
Qed.

(** For four-digit years the text of a month sorts as the month does in
    the calendar. *)
Lemma month_text_chronological (d1 d2 : datetime) :
  year d1 < 10000 -> year d2 < 10000 -> month d1 < 100 -> month d2 < 100 ->
  before (strftime_Ym (Some d1)) (strftime_Ym (Some d2))
  <-> year d1 < year d2 \/ (year d1 = year d2 /\ month d1 < month d2).
Proof.
  intros Y1 Y2 M1 M2. unfold before, cmp, cmp_option, strftime_Ym, option_map.
  unfold cmp, cmp_string. rewrite pad4_compare. cbn [append].
  cbn [String_as_OT.compare]. change (Ascii_as_OT.compare "-" "-") with Eq. cbv iota.
  change (pad2 (month d1)) with (pad2 (month d1) ++ EmptyString)%string.
  change (pad2 (month d2)) with (pad2 (month d2) ++ EmptyString)%string.
  rewrite pad2_compare. cbn [String_as_OT.compare].
  rewrite !N.mod_small by assumption.
  destruct (N.compare_spec (year d1) (year d2));
    destruct (N.compare_spec (month d1) (month d2)); split; intros X;
    try discriminate X; try reflexivity; try lia.
Qed.

End MonthText.



(* ================================================================== *)
(** ** Click-rate text *)

Lemma is_digit_code (c : ascii) :
  is_digit c = true <-> (48 <= N_of_ascii c <= 57)%N.
Proof.
  unfold is_digit. rewrite andb_true_iff, !N.leb_le. tauto.
Qed.

Lemma digit_not_py_space (c : ascii) : is_digit c = true -> py_isspace c = false.
Proof.
  intros D. apply is_digit_code in D. unfold py_isspace.
  apply orb_false_iff. split; apply andb_false_iff.
  - right. apply N.leb_gt. lia.
  - right. apply N.leb_gt. lia.
Qed.

Lemma digit_not_sqlite_space (c : ascii) : is_digit c = true -> sqlite3Isspace c = false.
Proof.
  intros D. apply is_digit_code in D. unfold sqlite3Isspace.
  apply orb_false_iff. split.
  - apply andb_false_iff. right. apply N.leb_gt. lia.
  - apply N.eqb_neq. lia.
Qed.

Lemma digit_is_not (c d : ascii) : is_digit d = false -> is_digit c = true -> Ascii.eqb c d = false.
Proof.
  intros N D. apply Ascii.eqb_neq. intros ->. congruence.
Qed.

Lemma digit_lower (c : ascii) : is_digit c = true -> lower c = c.
Proof.
  intros D. apply is_digit_code in D. unfold lower.
  assert ((65 <=? N_of_ascii c)%N = false) as E by (apply N.leb_gt; lia).
  rewrite E. reflexivity.
Qed.

Lemma span_digits_app (ds rest : list ascii) :
  Forall (fun c => is_digit c = true) ds -> stops rest ->
  span_digits (ds ++ rest) = (ds, rest).
Proof.
  intros F S. induction F as [|d ds D F IH]; cbn [app span_digits].
  - destruct rest as [|c rest]; [reflexivity|]. cbn [span_digits].
    rewrite (proj1 S). reflexivity.
  - rewrite D, IH. reflexivity.
Qed.

Lemma py_digitpart_tail_app (ds rest : list ascii) :
  Forall (fun c => is_digit c = true) ds -> stops rest ->
  py_digitpart_tail (ds ++ rest) = (ds, rest).
Proof.
  intros F S. induction F as [|d ds D F IH]; cbn [app py_digitpart_tail].
  - destruct rest as [|c rest]; [reflexivity|]. destruct S as [S1 S2].
    cbn [py_digitpart_tail]. rewrite S1, S2. reflexivity.
  - rewrite D, IH. reflexivity.
Qed.

Lemma py_digitpart_app (ds rest : list ascii) :
  all_digits ds -> stops rest -> py_digitpart (ds ++ rest) = Some (ds, rest).
Proof.
  intros [NE F] S. destruct ds as [|d ds]; [congruence|].
  inversion F as [|? ? D F']; subst. cbn [app py_digitpart]. rewrite D.
  rewrite py_digitpart_tail_app; [reflexivity|exact F'|exact S].
Qed.

Lemma take_sign_text (s : option bool) (rest : list ascii) (d : ascii) (t : list ascii) :
  rest = d :: t -> is_digit d = true ->
  take_sign (sign_text s ++ rest) = (is_neg s, rest).
Proof.
  intros -> D. destruct s as [[|]|]; try reflexivity.
  cbn [sign_text app take_sign].
  rewrite (@digit_is_not d "-" eq_refl D), (@digit_is_not d "+" eq_refl D). reflexivity.
Qed.

(** [rstrip('%')] *)

Lemma py_rstrip_cons (chars : string) (a : ascii) (t : string) :
  py_rstrip chars (String a t)
  = match py_rstrip chars t with
    | EmptyString => if mem_char a chars then EmptyString else String a EmptyString
    | t' => String a t'
    end.
Proof. reflexivity. Qed.

Lemma py_rstrip_keeps (c : ascii) (s : string) :
  ends_with c s = false -> py_rstrip (String c EmptyString) s = s.
Proof.
  induction s as [|a t IH]; [reflexivity|].
  destruct t as [|b u].
  - simpl. intros E. rewrite E. reflexivity.
  - intros E. change (ends_with c (String b u) = false) in E.
    rewrite py_rstrip_cons. rewrite IH; [reflexivity|exact E].
Qed.

Lemma py_rstrip_one (c : ascii) (s : string) :
  py_rstrip (String c EmptyString) (s ++ String c EmptyString)
  = py_rstrip (String c EmptyString) s.
Proof.
  induction s as [|a t IH].
  - simpl. rewrite Ascii.eqb_refl. reflexivity.
  - cbn [append]. rewrite !py_rstrip_cons. rewrite IH. reflexivity.
Qed.

Lemma ends_with_app (c : ascii) (s : string) :
  ends_with c (s ++ String c EmptyString) = true.
Proof.
  induction s as [|a t IH]; simpl; [apply Ascii.eqb_refl|].
  destruct (t ++ String c EmptyString)%string eqn:E; [|exact IH].
  destruct t; discriminate E.
Qed.

Lemma ends_with_last (c d : ascii) (pre : list ascii) :
  ends_with c (string_of_list_ascii (pre ++ [d])) = Ascii.eqb d c.
Proof.
  induction pre as [|a t IH]; simpl; [reflexivity|].
  destruct (string_of_list_ascii (t ++ [d])) eqn:E; [|exact IH].
  destruct t; discriminate E.
Qed.

Lemma string_of_list_ascii_app (a b : list ascii) :
  string_of_list_ascii (a ++ b)
  = (string_of_list_ascii a ++ string_of_list_ascii b)%string.
Proof. induction a as [|x a IH]; simpl; [reflexivity|]. rewrite IH. reflexivity. Qed.

(** [REPLACE(X, '%', '')] *)

Lemma replace_percent (l : list ascii) :
  Forall (fun c => Ascii.eqb c "%" = false) l ->
  replace_from "%" EmptyString 0 (string_of_list_ascii l ++ "%")
  = string_of_list_ascii l.
Proof.
  induction 1 as [|c l C F IH]; [reflexivity|].
  cbn [string_of_list_ascii append replace_from String.prefix].
  destruct (ascii_dec "%" c) as [E|N].
  - subst. discriminate C.
  - rewrite IH. reflexivity.
Qed.

(** [float], [CAST]: blanks around a literal *)

Lemma skip_while_head (p : ascii -> bool) (c : ascii) (t : list ascii) :
  p c = false -> skip_while p (c :: t) = c :: t.
Proof. intros E. simpl. rewrite E. reflexivity. Qed.

Lemma py_strip_id (c d : ascii) (t pre : list ascii) :
  py_isspace c = false -> py_isspace d = false -> c :: t = pre ++ [d] ->
  py_strip (c :: t) = c :: t.
Proof.
  intros C D E. unfold py_strip. rewrite skip_while_head; [|exact C].
  rewrite E, rev_app_distr. change (rev [d] ++ rev pre) with (d :: rev pre).
  rewrite skip_while_head; [|exact D].
  cbn [rev]. rewrite rev_involutive. reflexivity.
Qed.

(* ================================================================== *)
(** ** Numeric literals under [float] and under CAST *)

Section Literals.
Variable l : literal.
Hypothesis WF : well_formed_literal l.

Lemma lit_int_head : exists d t, lit_int l = d :: t /\ is_digit d = true.
Proof.
  destruct WF as [[NE F] _]. destruct (lit_int l) as [|d t]; [congruence|].
  exists d, t. split; [reflexivity|]. inversion F; assumption.
Qed.

Lemma stops_exponent : stops (exponent_text (lit_exp l)).
Proof.
  destruct (lit_exp l) as [[s ed]|]; simpl; [split; reflexivity|exact I].
Qed.

Lemma stops_fraction : stops (fraction_text (lit_frac l) ++ exponent_text (lit_exp l)).
Proof.
  destruct (lit_frac l) as [fd|]; [simpl; split; reflexivity|exact stops_exponent].
Qed.

Lemma exponent_no_point : starts_with_point (exponent_text (lit_exp l)) = None.
Proof. destruct (lit_exp l) as [[s ed]|]; reflexivity. Qed.

Lemma py_number_literal :
  py_number (lit_int l ++ fraction_text (lit_frac l) ++ exponent_text (lit_exp l))
  = Some (lit_int l, fraction_digits (lit_frac l), exponent_text (lit_exp l)).
Proof.
  unfold py_number. destruct WF as [WI [WFr _]].
  rewrite py_digitpart_app; [|exact WI|exact stops_fraction].
  destruct (lit_frac l) as [fd|]; cbn [fraction_text fraction_digits app].
  - cbn [starts_with_point]. rewrite Ascii.eqb_refl.
    rewrite py_digitpart_app; [reflexivity|exact WFr|exact stops_exponent].
  - rewrite exponent_no_point. reflexivity.
Qed.

Lemma py_exponent_literal :
  py_exponent (exponent_text (lit_exp l)) = Some (exponent_value (lit_exp l), []).
Proof.
  destruct WF as [_ [_ WE]].
  destruct (lit_exp l) as [[s ed]|]; [|reflexivity].
  cbn [exponent_text exponent_value py_exponent].
  change (is_exp_mark "e") with true. cbv iota.
  destruct WE as [NE F]. destruct ed as [|d t] eqn:E; [congruence|].
  rewrite (@take_sign_text s (d :: t) d t eq_refl); [|inversion F; assumption].
  rewrite <- (app_nil_r (d :: t)) at 1.
  rewrite py_digitpart_app; [reflexivity|split; [discriminate|exact F]|exact I].
Qed.

Lemma sqlite_number_literal :
  span_digits (lit_int l ++ fraction_text (lit_frac l) ++ exponent_text (lit_exp l))
  = (lit_int l, fraction_text (lit_frac l) ++ exponent_text (lit_exp l)).
Proof.
  destruct WF as [[_ F] _]. apply span_digits_app; [exact F|exact stops_fraction].
Qed.

Lemma sqlite_fraction_literal :
  match starts_with_point (fraction_text (lit_frac l) ++ exponent_text (lit_exp l)) with
  | Some t => span_digits t
  | None => ([], fraction_text (lit_frac l) ++ exponent_text (lit_exp l))
  end
  = (fraction_digits (lit_frac l), exponent_text (lit_exp l)).
Proof.
  destruct WF as [_ [WFr _]].
  destruct (lit_frac l) as [fd|]; cbn [fraction_text fraction_digits app].
  - cbn [starts_with_point]. rewrite Ascii.eqb_refl.
    apply span_digits_app; [exact (proj2 WFr)|exact stops_exponent].
  - rewrite exponent_no_point. reflexivity.
Qed.

Lemma sqlite_exponent_literal :
  match exponent_text (lit_exp l) with
  | c :: t =>
      if is_exp_mark c then
        let (eneg, t1) := take_sign t in
        let (ed, _) := span_digits t1 in
        if eneg then - digits_val ed else digits_val ed
      else 0
  | [] => 0
  end
  = exponent_value (lit_exp l).
Proof.
  destruct WF as [_ [_ WE]].
  destruct (lit_exp l) as [[s ed]|]; [|reflexivity].
  cbn [exponent_text exponent_value].
  change (is_exp_mark "e") with true. cbv iota.
  destruct WE as [NE F]. destruct ed as [|d t] eqn:E; [congruence|].
  rewrite (@take_sign_text s (d :: t) d t eq_refl); [|inversion F; assumption].
  rewrite <- (app_nil_r (d :: t)) at 1.
  rewrite span_digits_app; [reflexivity|exact F|exact I].
Qed.

(** The text starts with a sign or a digit and ends with a digit. *)
Lemma literal_text_ends :
  exists c t pre d,
    literal_text l = c :: t /\ literal_text l = pre ++ [d]
    /\ py_isspace c = false /\ sqlite3Isspace c = false
    /\ is_digit d = true.
Proof.
  destruct lit_int_head as [d0 [t0 [E0 D0]]].
  assert (exists c t, literal_text l = c :: t
                      /\ py_isspace c = false /\ sqlite3Isspace c = false) as [c [t [E [P S]]]].
  { unfold literal_text. rewrite E0.
    destruct (lit_sign l) as [[|]|]; cbn [sign_text app]; eexists; eexists;
      (split; [reflexivity|]); try (split; reflexivity).
    split; [apply digit_not_py_space|apply digit_not_sqlite_space]; exact D0. }
  assert (forall pre ds, all_digits ds ->
            exists pre' d, pre ++ ds = pre' ++ [d] /\ is_digit d = true) as Last.
  { intros pre ds [NE F]. destruct (exists_last NE) as [ds' [d Ed]]. subst ds.
    exists (pre ++ ds'), d. split; [rewrite app_assoc; reflexivity|].
    rewrite Forall_forall in F. apply F. apply in_or_app. right. left. reflexivity. }
  assert (exists pre d, literal_text l = pre ++ [d] /\ is_digit d = true) as [pre [d [L D]]].
  { unfold literal_text. destruct WF as [WI [WFr WE]].
    destruct (lit_exp l) as [[s ed]|]; cbn [exponent_text].
    - destruct (Last (sign_text (lit_sign l) ++ lit_int l ++ fraction_text (lit_frac l)
                      ++ "e"%char :: sign_text s) ed WE) as [pre [d [E1 D1]]].
      exists pre, d. split; [|exact D1]. rewrite <- E1.
      rewrite <- !app_assoc. reflexivity.
    - rewrite app_nil_r. destruct (lit_frac l) as [fd|]; cbn [fraction_text].
      + destruct (Last (sign_text (lit_sign l) ++ lit_int l ++ ["."%char]) fd WFr)
          as [pre [d [E1 D1]]].
        exists pre, d. split; [|exact D1]. rewrite <- E1.
        rewrite <- !app_assoc. reflexivity.
      + rewrite app_nil_r. exact (Last _ _ WI). }
  exists c, t, pre, d. repeat split; assumption.
Qed.

Lemma literal_no_percent :
  Forall (fun c => Ascii.eqb c "%" = false) (literal_text l).
Proof.
  assert (forall ds, Forall (fun c => is_digit c = true) ds ->
                     Forall (fun c => Ascii.eqb c "%" = false) ds) as Dg.
  { intros ds F. eapply Forall_impl; [|exact F]. intros c D.
    apply (@digit_is_not c "%" eq_refl D). }
  assert (forall s, Forall (fun c => Ascii.eqb c "%" = false) (sign_text s)) as Sg.
  { intros [[|]|]; repeat constructor. }
  destruct WF as [[_ FI] [WFr WE]]. unfold literal_text.
  apply Forall_app. split; [apply Sg|].
  apply Forall_app. split; [apply Dg, FI|].
  apply Forall_app. split.
  - destruct (lit_frac l) as [fd|]; [|constructor].
    constructor; [reflexivity|apply Dg, (proj2 WFr)].
  - destruct (lit_exp l) as [[s ed]|]; [|constructor].
    constructor; [reflexivity|]. apply Forall_app. split; [apply Sg|apply Dg, (proj2 WE)].
Qed.

Lemma chars_eqb_digit_head (t1 : list ascii) (d c : ascii) (r : list ascii) (s : string) :
  t1 = d :: r -> is_digit d = true -> is_digit c = false ->
  chars_eqb (map lower t1) (String c s) = false.
Proof.
  intros -> D N. unfold chars_eqb. cbn [map string_of_list_ascii String.eqb].
  rewrite digit_lower; [|exact D]. rewrite (@digit_is_not d c N D). reflexivity.
Qed.

(** [float] reads the whole literal. *)
Lemma py_float_literal :
  py_float (string_of_list_ascii (literal_text l)) = Some (Finite (literal_value l)).
Proof.
  unfold py_float. rewrite list_ascii_of_string_of_list_ascii.
  destruct literal_text_ends as [c [t [pre [d [E1 [E2 [P [_ D]]]]]]]].
  assert (py_strip (literal_text l) = literal_text l) as St.
  { rewrite E1. apply (@py_strip_id c d t pre P (digit_not_py_space d D)).
    rewrite <- E1. exact E2. }
  rewrite St. unfold literal_text at 1.
  destruct lit_int_head as [d0 [t0 [E0 D0]]].
  assert (lit_int l ++ fraction_text (lit_frac l) ++ exponent_text (lit_exp l)
          = d0 :: (t0 ++ fraction_text (lit_frac l) ++ exponent_text (lit_exp l))) as H0
    by (rewrite E0; reflexivity).
  rewrite (@take_sign_text (lit_sign l) _ d0 _ H0 D0). cbv beta iota zeta.
  rewrite (@chars_eqb_digit_head _ d0 "i" _ "nf" H0 D0 eq_refl).
  rewrite (@chars_eqb_digit_head _ d0 "i" _ "nfinity" H0 D0 eq_refl).
  rewrite (@chars_eqb_digit_head _ d0 "n" _ "an" H0 D0 eq_refl).
  cbn [orb]. rewrite py_number_literal, py_exponent_literal. reflexivity.
Qed.

(** CAST reads the same number. *)
Lemma sqlite3AtoF_literal :
  sqlite3AtoF (literal_text l) = literal_value l.
Proof.
  unfold sqlite3AtoF.
  destruct literal_text_ends as [c [t [_ [_ [E1 [_ [_ [S _]]]]]]]].
  rewrite E1. rewrite skip_while_head; [|exact S]. rewrite <- E1.
  unfold literal_text at 1.
  destruct lit_int_head as [d0 [t0 [E0 D0]]].
  assert (lit_int l ++ fraction_text (lit_frac l) ++ exponent_text (lit_exp l)
          = d0 :: (t0 ++ fraction_text (lit_frac l) ++ exponent_text (lit_exp l))) as H0
    by (rewrite E0; reflexivity).
  rewrite (@take_sign_text (lit_sign l) _ d0 _ H0 D0).
  rewrite sqlite_number_literal. rewrite sqlite_fraction_literal.
  rewrite sqlite_exponent_literal. reflexivity.
Qed.

Lemma rstrip_percent_text :
  py_rstrip "%" (percent_text l) = string_of_list_ascii (literal_text l).
Proof.
  unfold percent_text. rewrite py_rstrip_one. apply py_rstrip_keeps.
  destruct literal_text_ends as [_ [_ [pre [d [_ [E2 [_ [_ D]]]]]]]].
  rewrite E2. rewrite ends_with_last. apply (@digit_is_not d "%" eq_refl D).
Qed.

Lemma replace_percent_text :
  sql_replace (Some (percent_text l)) "%" EmptyString
  = Some (string_of_list_ascii (literal_text l)).
Proof.
  unfold sql_replace, percent_text. cbn [option_map String.eqb].
  rewrite replace_percent; [reflexivity|exact literal_no_percent].
Qed.

End Literals.



(* ================================================================== *)
(** ** Malformed click-rate text *)

Lemma mapM_raise (A B : Type) (f : A -> result B) (l : list A) (a : A) (e : exn) :
  In a l -> f a = Raise e -> exists e', mapM f l = Raise e'.
Proof.
  induction l as [|x t IH]; simpl; intros I E; [tauto|].
  destruct I as [->|I].
  - rewrite E. exists e. reflexivity.
  - destruct (f x) as [b|e0]; simpl; [|exists e0; reflexivity].
    destruct (IH I E) as [e' E']. rewrite E'. exists e'. reflexivity.
Qed.




(* ================================================================== *)
(** * Further properties of the aggregation layer *)

(** ** Groups ranked by a score (queries 3, 7 and 9) *)

Section RankedGroups.
Context {R A K : Type} `{CmpLaws K}.
Variable key : R -> K.
Variable select : K * list R -> A.
Variable score : A -> Z.
Variable keyf : A -> K.
Hypothesis keyf_select : forall g, keyf (select g) = fst g.

Lemma ranked_In (rows : list R) (a : A) :
  In a (order_by_desc score (map select (group_by_desc key rows))) <->
  In (keyf a) (map key rows)
  /\ a = select (keyf a, filter (fun r => eqk (key r) (keyf a)) rows).
Proof.
  unfold order_by_desc. rewrite sort_by_In. rewrite in_map_iff.
  unfold group_by_desc. split.
  - intros [[k g] [<- I]]. apply in_rev in I.
    apply (proj1 (group_by_In _ _ _ _)) in I. destruct I as [I ->].
    rewrite keyf_select. split; [exact I|reflexivity].
  - intros [I E].
    exists (keyf a, filter (fun r => eqk (key r) (keyf a)) rows).
    split; [symmetry; exact E|].
    apply -> in_rev. apply group_by_In. split; [exact I|reflexivity].
Qed.

Lemma ranked_sorted (rows : list R) :
  StronglySorted (ranked_before score keyf)
    (order_by_desc score (map select (group_by_desc key rows))).
Proof.
  unfold order_by_desc.
  apply (@StronglySorted_weaken _
           (sorted_stably (fun a b => Z.leb (score b) (score a))
                          (fun a b => after (keyf a) (keyf b)))).
  { intros a b _ _ [L T]. unfold ranked_before.
    apply Z.leb_le in L.
    destruct (Z.eq_dec (score a) (score b)) as [E|N].
    - right. split; [exact E|]. apply T. apply Z.leb_le. lia.
    - left. lia. }
  apply sort_by_stable.
  - intros a b. rewrite !Z.leb_le. lia.
  - intros a b c. rewrite !Z.leb_le. lia.
  - apply StronglySorted_map with (f := keyf) (P := fun x y => after x y).
    rewrite map_map. unfold group_by_desc.
    replace (map (fun x => keyf (select x)) (rev (group_by key rows)))
      with (rev (distinct_keys (map key rows))).
    + apply (@StronglySorted_weaken _ (fun a b => before b a)).
      * intros a b _ _ B. apply after_before. exact B.
      * apply StronglySorted_rev. apply distinct_keys_sorted.
    + rewrite <- (group_by_keys key). rewrite <- map_rev.
      apply map_ext. intros g. symmetry. apply keyf_select.
Qed.

Lemma ranked_length (rows : list R) :
  length (order_by_desc score (map select (group_by_desc key rows)))
  = length (distinct_keys (map key rows)).
Proof.
  rewrite (Permutation_length (order_by_desc_perm _ _)).
  rewrite length_map. unfold group_by_desc. rewrite length_rev.
  unfold group_by. rewrite length_map. reflexivity.
Qed.

End RankedGroups.

(** A ranking is a strict order: two rankings of the same rows are the
    same list. *)
Section SortedUnique.
Variable A : Type.
Variable P : A -> A -> Prop.
Hypothesis P_irrefl : forall a, ~ P a a.
Hypothesis P_asym : forall a b, P a b -> P b a -> False.

Lemma sorted_unique (l1 l2 : list A) :
  StronglySorted P l1 -> StronglySorted P l2 ->
  (forall x, In x l1 <-> In x l2) -> l1 = l2.
Proof.
  intros S1. revert l2. induction S1 as [|a t1 S1 IH F1]; intros l2 S2 E.
  - destruct l2 as [|b t2]; [reflexivity|].
    exfalso. apply (proj2 (E b)). left. reflexivity.
  - destruct S2 as [|b t2 S2 F2].
    { exfalso. apply (proj1 (E a)). left. reflexivity. }
    rewrite Forall_forall in F1, F2.
    assert (a = b) as ->.
    { destruct (proj1 (E a) (or_introl eq_refl)) as [X|X]; [symmetry; exact X|].
      destruct (proj2 (E b) (or_introl eq_refl)) as [Y|Y]; [exact Y|].
      exfalso. exact (P_asym (F1 b Y) (F2 a X)). }
    f_equal. apply IH; [exact S2|].
    intros x. split; intros I.
    + destruct (proj1 (E x) (or_intror I)) as [X|X]; [|exact X].
      subst x. exfalso. exact (P_irrefl (F1 b I)).
    + destruct (proj2 (E x) (or_intror I)) as [X|X]; [|exact X].
      subst x. exfalso. exact (P_irrefl (F2 b I)).
Qed.

End SortedUnique.

Lemma StronglySorted_filter (A : Type) (P : A -> A -> Prop) (p : A -> bool) (l : list A) :
  StronglySorted P l -> StronglySorted P (filter p l).
Proof.
  induction 1 as [|a t S IH F]; simpl; [constructor|].
  destruct (p a); [|exact IH]. constructor; [exact IH|].
  rewrite Forall_forall in *. intros x I. apply filter_In in I.
  exact (F x (proj1 I)).
Qed.

(** When the rows that pass a test come before those that fail it,
    truncation and the test commute. *)
Lemma filter_firstn_prefix (A : Type) (P : A -> A -> Prop) (p : A -> bool)
  (n : nat) (l : list A) :
  (forall a b, P a b -> p a = false -> p b = false) ->
  StronglySorted P l ->
  filter p (firstn n l) = firstn n (filter p l).
Proof.
  intros Down S. revert n. induction S as [|a t S IH F]; intros n.
  - destruct n; reflexivity.
  - destruct (p a) eqn:E.
    + destruct n as [|n]; [reflexivity|].
      cbn [firstn filter]. rewrite E. cbn [firstn]. rewrite IH. reflexivity.
    + assert (filter p t = []) as Z0.
      { rewrite Forall_forall in F. clear IH S.
        induction t as [|b t IHt]; [reflexivity|]. cbn [filter].
        rewrite (Down a b (F b (or_introl eq_refl)) E).
        apply IHt. intros x I. apply F. right. exact I. }
      cbn [filter]. rewrite E, Z0.
      destruct n as [|n]; [reflexivity|]. cbn [firstn filter]. rewrite E.
      rewrite IH, Z0. destruct n; reflexivity.
Qed.

Lemma Zsum_perm (l1 l2 : list Z) : Permutation l1 l2 -> Zsum l1 = Zsum l2.
Proof.
  induction 1 as [|x l1 l2 P IH|x y l|l1 l2 l3 P1 IH1 P2 IH2]; simpl; lia.
Qed.

Lemma Zsum_counts (R K : Type) `{CmpLaws K} (key : R -> K) (rows : list R) :
  Zsum (map (fun g => count (snd g)) (group_by key rows)) = count rows.
Proof.
  rewrite <- (group_counts_total key rows). unfold Zsum.
  induction (group_by key rows) as [|g gs IH]; simpl; [reflexivity|].
  rewrite IH. reflexivity.
Qed.

Lemma filter_filter_swap (A : Type) (p q : A -> bool) (l : list A) :
  filter p (filter q l) = filter q (filter p l).
Proof.
  induction l as [|a t IH]; simpl; [reflexivity|].
  destruct (p a) eqn:Ep; destruct (q a) eqn:Eq; simpl;
    rewrite ?Ep, ?Eq, IH; reflexivity.
Qed.

Lemma filter_filter_and (A : Type) (p q : A -> bool) (l : list A) :
  filter p (filter q l) = filter (fun x => p x && q x) l.
Proof.
  induction l as [|a t IH]; simpl; [reflexivity|].
  destruct (q a) eqn:Eq; simpl; rewrite ?andb_true_r, ?andb_false_r.
  - destruct (p a); rewrite IH; reflexivity.
  - exact IH.
Qed.

(* ================================================================== *)
(** ** Vulnerability hotspots (query 3) *)

Lemma vuln_hotspot_query_limit (vulns : list Vulnerability.row) :
  vuln_hotspot_query vulns = firstn 5 (vuln_hotspot_ranking vulns).
Proof. reflexivity. Qed.

Lemma vuln_hotspot_ranking_In (vulns : list Vulnerability.row) (row : Hotspot.row) :
  In row (vuln_hotspot_ranking vulns) <->
  In (Hotspot.Department row) (map Vulnerability.Department (filter is_open vulns))
  /\ row = hotspot_row vulns (Hotspot.Department row).
Proof.
  unfold vuln_hotspot_ranking, hotspot_row, open_in.
  apply (ranked_In Vulnerability.Department vuln_hotspot_select
           Hotspot.Critical_Count Hotspot.Department).
  intros g. reflexivity.
Qed.

Lemma vuln_hotspot_ranking_sorted (vulns : list Vulnerability.row) :
  StronglySorted (ranked_before Hotspot.Critical_Count Hotspot.Department)
    (vuln_hotspot_ranking vulns).
Proof.
  unfold vuln_hotspot_ranking.
  apply (ranked_sorted Vulnerability.Department vuln_hotspot_select
           Hotspot.Critical_Count Hotspot.Department).
  intros g. reflexivity.
Qed.

Lemma filter_length_le (A : Type) (p : A -> bool) (l : list A) :
  count (filter p l) <= count l.
Proof.
  unfold count. apply inj_le.
  induction l as [|a t IH]; simpl; [lia|]. destruct (p a); simpl; lia.
Qed.

Lemma In_key_filter (R K : Type) `{CmpLaws K} (key : R -> K) (k : K) (rows : list R) :
  In k (map key rows) <-> filter (fun r => eqk (key r) k) rows <> [].
Proof.
  split.
  - intros I E. apply in_map_iff in I. destruct I as [r [<- I]].
    assert (In r (filter (fun r0 => eqk (key r0) (key r)) rows)) as J.
    { apply filter_In. split; [exact I|apply eqk_refl]. }
    rewrite E in J. destruct J.
  - intros N. destruct (filter (fun r => eqk (key r) k) rows) as [|r t] eqn:E;
      [contradiction N; reflexivity|].
    assert (In r (filter (fun r => eqk (key r) k) rows)) as J.
    { rewrite E. left. reflexivity. }
    apply filter_In in J. destruct J as [J Q]. apply eqk_true in Q. subst k.
    apply in_map. exact J.
Qed.

(** X1.  The hotspot table has at most five rows, one per department with
    an open vulnerability; a row carries the number of the department's
    open vulnerabilities, how many of them are critical (never more
    than the total) and their mean days open rounded to one decimal
    (NULL when none has a value); rows are in descending order of the
    critical count, and rows of equal critical count in descending
    order of the department; a department without a row ranks after
    the five rows emitted. *)
Theorem hotspots_rank_departments (vulns : list Vulnerability.row) :
  let out := vuln_hotspot_query vulns in
  (length out <= 5)%nat
  /\ StronglySorted (ranked_before Hotspot.Critical_Count Hotspot.Department) out
  /\ (forall row, In row out ->
        let g := open_in (Hotspot.Department row) vulns in
        g <> []
        /\ Hotspot.Total_Vulnerabilities row = count g
        /\ Hotspot.Critical_Count row = count (filter is_critical g)
        /\ 0 <= Hotspot.Critical_Count row <= Hotspot.Total_Vulnerabilities row
        /\ Hotspot.Avg_Days_Open row
           = option_map (fun a => sql_round a 1)
               (sql_avg (map Vulnerability.Days_Open g)))
  /\ (forall r, In r vulns -> is_open r = true ->
        In (hotspot_row vulns (Vulnerability.Department r)) out
        \/ (length out = 5%nat
            /\ forall row, In row out ->
                 ranked_before Hotspot.Critical_Count Hotspot.Department
                   row (hotspot_row vulns (Vulnerability.Department r)))).
Proof.
  intros out. unfold out. rewrite vuln_hotspot_query_limit.
  split; [apply firstn_le_length|].
  split; [apply StronglySorted_firstn, vuln_hotspot_ranking_sorted|].
  split.
  - intros row I. cbv zeta.
    set (g := open_in (Hotspot.Department row) vulns).
    apply firstn_In in I.
    apply (proj1 (vuln_hotspot_ranking_In _ _)) in I. destruct I as [I E].
    split.
    { apply (proj1 (In_key_filter Vulnerability.Department _ _)). exact I. }
    rewrite E. unfold hotspot_row. cbn [vuln_hotspot_select Hotspot.Total_Vulnerabilities
      Hotspot.Critical_Count Hotspot.Avg_Days_Open Hotspot.Department fst snd].
    fold g. rewrite sum_case_count.
    split; [reflexivity|]. split; [reflexivity|].
    split; [|reflexivity].
    split; [apply count_nonneg|apply filter_length_le].
  - intros r I O. apply sorted_firstn_top.
    + apply vuln_hotspot_ranking_sorted.
    + apply vuln_hotspot_ranking_In. split; [|reflexivity].
      cbn. apply in_map. apply filter_In. split; [exact I|exact O].
Qed.

Lemma hotspots_rank_departments_witness :
  let vulns := [vulnerability "IT" "Critical" "Open" (Some 10%Q);
                vulnerability "HR" "High" "Open" (Some 25%Q);
                vulnerability "IT" "Low" "Open" (Some 15%Q);
                vulnerability "IT" "Critical" "Closed" (Some 400%Q)] in
  hotspot_row vulns (Some "IT"%string)
  = {| Hotspot.Department := Some "IT"%string;
       Hotspot.Total_Vulnerabilities := 2;
       Hotspot.Critical_Count := 1;
       Hotspot.Avg_Days_Open := Some (25 # 2) |}
  /\ In (hotspot_row vulns (Some "IT"%string)) (vuln_hotspot_query vulns).
Proof.
  intros vulns. split; [reflexivity|].
  destruct (hotspots_rank_departments vulns) as [_ [_ [_ T]]].
  destruct (T (vulnerability "IT" "Critical" "Open" (Some 10%Q))) as [I|[L _]].
  - simpl. left. reflexivity.
  - reflexivity.
  - exact I.
  - vm_compute in L. discriminate L.
Defined.

(* ================================================================== *)
(** ** Critical vulnerabilities by department (query 9) *)

Lemma critical_vuln_query_limit (vulns : list Vulnerability.row) :
  critical_vuln_query vulns = firstn 5 (critical_vuln_ranking vulns).
Proof. reflexivity. Qed.

Lemma critical_vuln_ranking_In (vulns : list Vulnerability.row) (row : CriticalDept.row) :
  In row (critical_vuln_ranking vulns) <->
  In (CriticalDept.Department row)
     (map Vulnerability.Department (filter (fun r => is_critical r && is_open r) vulns))
  /\ row = critical_vuln_select
             (CriticalDept.Department row,
              filter (fun r => eqk (Vulnerability.Department r) (CriticalDept.Department row))
                     (filter (fun r => is_critical r && is_open r) vulns)).
Proof.
  unfold critical_vuln_ranking.
  apply (ranked_In Vulnerability.Department critical_vuln_select
           CriticalDept.Critical_Count CriticalDept.Department).
  intros g. reflexivity.
Qed.

Lemma critical_vuln_ranking_sorted (vulns : list Vulnerability.row) :
  StronglySorted (ranked_before CriticalDept.Critical_Count CriticalDept.Department)
    (critical_vuln_ranking vulns).
Proof.
  unfold critical_vuln_ranking.
  apply (ranked_sorted Vulnerability.Department critical_vuln_select
           CriticalDept.Critical_Count CriticalDept.Department).
  intros g. reflexivity.
Qed.

Lemma ranked_before_irrefl (A K : Type) `{CmpLaws K} (score : A -> Z) (keyf : A -> K)
  (a : A) : ~ ranked_before score keyf a a.
Proof.
  intros [L|[_ G]]; [lia|]. unfold after in G.
  pose proof (cmp_refl (keyf a)) as X. congruence.
Qed.

Lemma ranked_before_asym (A K : Type) `{CmpLaws K} (score : A -> Z) (keyf : A -> K)
  (a b : A) : ranked_before score keyf a b -> ranked_before score keyf b a -> False.
Proof.
  intros [L1|[E1 G1]] [L2|[E2 G2]]; try lia.
  apply after_before in G2. unfold after, before in *. congruence.
Qed.

(** The critical open vulnerabilities of a department, written as
    query 3 and as query 9 select them. *)
Lemma critical_open_in (d : option string) (vulns : list Vulnerability.row) :
  filter is_critical (open_in d vulns)
  = filter (fun r => eqk (Vulnerability.Department r) d)
           (filter (fun r => is_critical r && is_open r) vulns).
Proof.
  unfold open_in. rewrite filter_filter_swap. f_equal. apply filter_filter_and.
Qed.

Lemma critical_bars_In (vulns : list Vulnerability.row) (d : option string) (n : Z) :
  In (d, n) (map critical_bar (critical_vuln_ranking vulns))
  <-> n = count (filter is_critical (open_in d vulns)) /\ 0 < n.
Proof.
  rewrite in_map_iff. split.
  - intros [row [E I]]. unfold critical_bar in E. injection E as Ed En.
    apply (proj1 (critical_vuln_ranking_In _ _)) in I. destruct I as [I R].
    rewrite Ed in I, R. rewrite critical_open_in.
    assert (CriticalDept.Critical_Count row
            = count (filter (fun r => eqk (Vulnerability.Department r) d)
                            (filter (fun r => is_critical r && is_open r) vulns))) as C.
    { rewrite R. reflexivity. }
    assert (0 < count (filter (fun r => eqk (Vulnerability.Department r) d)
                              (filter (fun r => is_critical r && is_open r) vulns))) as P.
    { apply count_pos.
      apply (proj1 (In_key_filter Vulnerability.Department _ _)). exact I. }
    split; lia.
  - intros [E P]. rewrite critical_open_in in E.
    exists (critical_vuln_select
              (d, filter (fun r => eqk (Vulnerability.Department r) d)
                         (filter (fun r => is_critical r && is_open r) vulns))).
    split; [unfold critical_bar; cbn; rewrite E; reflexivity|].
    apply critical_vuln_ranking_In. cbn [critical_vuln_select CriticalDept.Department fst].
    split; [|reflexivity].
    apply (proj2 (In_key_filter Vulnerability.Department _ _)).
    intros Z0. rewrite Z0 in E. cbn in E. lia.
Qed.

Lemma hotspot_bars_In (vulns : list Vulnerability.row) (d : option string) (n : Z) :
  In (d, n) (map hotspot_bar
               (filter (fun r => 0 <? Hotspot.Critical_Count r)
                       (vuln_hotspot_ranking vulns)))
  <-> n = count (filter is_critical (open_in d vulns)) /\ 0 < n.
Proof.
  rewrite in_map_iff. split.
  - intros [row [E I]]. unfold hotspot_bar in E. injection E as Ed En.
    apply filter_In in I. destruct I as [I P]. apply Z.ltb_lt in P.
    apply (proj1 (vuln_hotspot_ranking_In _ _)) in I. destruct I as [I R].
    rewrite Ed in R.
    assert (Hotspot.Critical_Count row = count (filter is_critical (open_in d vulns))) as C.
    { rewrite R. unfold hotspot_row. cbn [vuln_hotspot_select Hotspot.Critical_Count snd].
      apply sum_case_count. }
    split; lia.
  - intros [E P]. exists (hotspot_row vulns d).
    assert (Hotspot.Critical_Count (hotspot_row vulns d) = n) as C.
    { unfold hotspot_row. cbn [vuln_hotspot_select Hotspot.Critical_Count snd].
      rewrite sum_case_count. symmetry. exact E. }
    split; [unfold hotspot_bar; rewrite C; reflexivity|].
    apply filter_In. split; [|rewrite C; apply Z.ltb_lt; exact P].
    apply vuln_hotspot_ranking_In. split; [|reflexivity].
    change (Hotspot.Department (hotspot_row vulns d)) with d.
    apply (proj2 (In_key_filter Vulnerability.Department _ _)).
    intros Z0. unfold open_in in E. rewrite Z0 in E. cbn in E. lia.
Qed.

(** X2.  Charts 3 and 7c agree: the departments of the hotspot table that
    have a critical open vulnerability, with their critical counts, are
    the rows of the critical-by-department table, in the same order. *)
Theorem hotspots_agree_with_critical_departments (vulns : list Vulnerability.row) :
  map hotspot_bar
      (filter (fun r => 0 <? Hotspot.Critical_Count r) (vuln_hotspot_query vulns))
  = map critical_bar (critical_vuln_query vulns).
Proof.
  rewrite vuln_hotspot_query_limit, critical_vuln_query_limit.
  rewrite (@filter_firstn_prefix _
             (ranked_before Hotspot.Critical_Count Hotspot.Department)).
  - rewrite <- !firstn_map. f_equal.
    apply (@sorted_unique _ (ranked_before (@snd (option string) Z) (@fst (option string) Z))).
    + intros a X. exact (ranked_before_irrefl X).
    + intros a b X Y. exact (ranked_before_asym X Y).
    + apply (proj2 (StronglySorted_map _ _ _)).
      exact (StronglySorted_filter _ (vuln_hotspot_ranking_sorted vulns)).
    + apply (proj2 (StronglySorted_map _ _ _)).
      exact (critical_vuln_ranking_sorted vulns).
    + intros [d n]. rewrite hotspot_bars_In, critical_bars_In. reflexivity.
  - intros a b R Pa. apply Z.ltb_ge in Pa. apply Z.ltb_ge.
    destruct R as [L|[E _]]; lia.
  - apply vuln_hotspot_ranking_sorted.
Qed.

(* ================================================================== *)
(** ** Counts per group (queries 5 and 8) *)

Section CountedGroups.
Context {R A K : Type} `{CmpLaws K}.
Variable key : R -> K.
Variable select : K * list R -> A.
Variable keyf : A -> K.
Variable countf : A -> Z.
Hypothesis keyf_select : forall g, keyf (select g) = fst g.
Hypothesis countf_select : forall g, countf (select g) = count (snd g).

Lemma counted_keys (rows : list R) :
  map keyf (map select (group_by key rows)) = distinct_keys (map key rows).
Proof.
  rewrite map_map. rewrite <- (group_by_keys key).
  apply map_ext. intros g. apply keyf_select.
Qed.

Lemma counted_sorted (rows : list R) :
  StronglySorted (fun a b => before (keyf a) (keyf b)) (map select (group_by key rows)).
Proof.
  apply (proj1 (StronglySorted_map keyf (fun x y => before x y) _)).
  rewrite counted_keys. apply distinct_keys_sorted.
Qed.

Lemma counted_In (rows : list R) (a : A) :
  In a (map select (group_by key rows)) ->
  In (keyf a) (map key rows)
  /\ countf a = count (filter (fun r => eqk (key r) (keyf a)) rows)
  /\ 0 < countf a.
Proof.
  intros I. apply in_map_iff in I. destruct I as [[k g] [<- I]].
  pose proof (group_nonempty key k _ I) as NE.
  apply (proj1 (group_by_In _ _ _ _)) in I. destruct I as [I E].
  rewrite keyf_select, countf_select. cbn [fst snd].
  split; [exact I|]. split; [rewrite E; reflexivity|].
  apply count_pos. exact NE.
Qed.

Lemma counted_total (rows : list R) :
  Zsum (map countf (map select (group_by key rows))) = count rows.
Proof.
  rewrite map_map. rewrite <- (Zsum_counts key rows).
  f_equal. apply map_ext. intros g. apply countf_select.
Qed.

End CountedGroups.

(** X3.  The severity table lists each severity that occurs once, in
    ascending order (a missing severity first), with the number of
    incidents that carry it; every incident is counted in exactly one
    row, so the counts add up to the number of incidents. *)
Theorem severity_counts_partition (incidents : list Incident.row) :
  let severity := fun r => Incident.Severity (Incident.base r) in
  let out := severity_query incidents in
  StronglySorted
    (fun a b => before (SeverityDist.Severity a) (SeverityDist.Severity b)) out
  /\ (forall row, In row out ->
        0 < SeverityDist.Count row
        /\ SeverityDist.Count row
           = count (filter (fun r => eqk (severity r) (SeverityDist.Severity row))
                           incidents))
  /\ (forall r, In r incidents -> In (severity r) (map SeverityDist.Severity out))
  /\ Zsum (map SeverityDist.Count out) = count incidents.
Proof.
  intros severity out. unfold out, severity_query. fold severity.
  split.
  { apply (counted_sorted severity severity_select SeverityDist.Severity).
    intros g. reflexivity. }
  split.
  { intros row I.
    destruct (counted_In severity severity_select SeverityDist.Severity
                SeverityDist.Count (fun g => eq_refl) (fun g => eq_refl) _ _ I)
      as [_ [C P]].
    split; [exact P|exact C]. }
  split.
  { intros r I.
    rewrite (counted_keys severity severity_select SeverityDist.Severity
               (fun g => eq_refl)).
    apply distinct_keys_In. apply in_map. exact I. }
  apply (counted_total severity severity_select SeverityDist.Count).
  intros g. reflexivity.
Qed.

Lemma severity_counts_partition_witness :
  let incidents :=
    map load_incident
        [incident "Malware" "High" "Resolved" (january_2024 3) (Some 30%Q);
         incident "Phishing" "Low" "Open" (january_2024 4) None;
         incident "Malware" "High" "Open" (january_2024 5) None] in
  In (Some "High"%string) (map SeverityDist.Severity (severity_query incidents))
  /\ map SeverityDist.Count (severity_query incidents) = [2; 1].
Proof.
  intros incidents. split; [|reflexivity].
  destruct (severity_counts_partition incidents) as [_ [_ [T _]]].
  apply (T (load_incident
              (incident "Malware" "High" "Resolved" (january_2024 3) (Some 30%Q)))).
  left. reflexivity.
Defined.

Lemma is_open_eqk (r : Vulnerability.row) :
  is_open r = eqk (Vulnerability.Solution_Status r) (Some "Open"%string).
Proof.
  unfold is_open, sql_eq. destruct (Vulnerability.Solution_Status r) as [v|].
  - destruct (String.eqb_spec v "Open") as [->|N].
    + symmetry. apply eqk_refl.
    + symmetry. apply eqk_false. congruence.
  - reflexivity.
Qed.

(** X4.  The status table lists each solution status that occurs once, in
    ascending order, with the number of vulnerabilities in that status;
    the counts add up to the number of vulnerabilities, and the row of
    status 'Open' counts the vulnerabilities the other queries select
    with their WHERE clause. *)
Theorem status_counts_partition (vulns : list Vulnerability.row) :
  let out := status_query vulns in
  StronglySorted
    (fun a b => before (VulnStatus.Solution_Status a) (VulnStatus.Solution_Status b)) out
  /\ (forall row, In row out ->
        0 < VulnStatus.Count row
        /\ VulnStatus.Count row
           = count (filter (fun r => eqk (Vulnerability.Solution_Status r)
                                         (VulnStatus.Solution_Status row)) vulns))
  /\ (forall r, In r vulns ->
        In (Vulnerability.Solution_Status r) (map VulnStatus.Solution_Status out))
  /\ Zsum (map VulnStatus.Count out) = count vulns
  /\ (forall row, In row out ->
        VulnStatus.Solution_Status row = Some "Open"%string ->
        VulnStatus.Count row = count (filter is_open vulns)).
Proof.
  intros out. unfold out, status_query.
  assert (forall row,
            In row (map status_select (group_by Vulnerability.Solution_Status vulns)) ->
            0 < VulnStatus.Count row
            /\ VulnStatus.Count row
               = count (filter (fun r => eqk (Vulnerability.Solution_Status r)
                                             (VulnStatus.Solution_Status row)) vulns)) as Rows.
  { intros row I.
    destruct (counted_In Vulnerability.Solution_Status status_select
                VulnStatus.Solution_Status VulnStatus.Count
                (fun g => eq_refl) (fun g => eq_refl) _ _ I) as [_ [C P]].
    split; [exact P|exact C]. }
  split.
  { apply (counted_sorted Vulnerability.Solution_Status status_select
             VulnStatus.Solution_Status).
    intros g. reflexivity. }
  split; [exact Rows|].
  split.
  { intros r I.
    rewrite (counted_keys Vulnerability.Solution_Status status_select
               VulnStatus.Solution_Status (fun g => eq_refl)).
    apply distinct_keys_In. apply in_map. exact I. }
  split.
  { apply (counted_total Vulnerability.Solution_Status status_select VulnStatus.Count).
    intros g. reflexivity. }
  intros row I O. destruct (Rows row I) as [_ C]. rewrite C, O.
  f_equal. apply filter_ext. intros r. symmetry. apply is_open_eqk.
Qed.

Lemma status_counts_partition_witness :
  let vulns := [vulnerability "IT" "Critical" "Open" (Some 10%Q);
                vulnerability "HR" "High" "Closed" (Some 25%Q);
                vulnerability "IT" "Low" "Open" (Some 15%Q)] in
  exists row, In row (status_query vulns)
    /\ VulnStatus.Solution_Status row = Some "Open"%string
    /\ VulnStatus.Count row = 2.
Proof.
  intros vulns.
  exists {| VulnStatus.Solution_Status := Some "Open"%string; VulnStatus.Count := 2 |}.
  assert (In {| VulnStatus.Solution_Status := Some "Open"%string; VulnStatus.Count := 2 |}
             (status_query vulns)) as I.
  { right. left. reflexivity. }
  split; [exact I|]. split; [reflexivity|].
  destruct (status_counts_partition vulns) as [_ [_ [_ [_ T]]]].
  exact (T _ I eq_refl).
Defined.

(* ================================================================== *)
(** ** The aging matrix adds up *)

Section PointUpdate.
Context {K : Type} `{CmpLaws K}.
Variable k0 : K.
Variable x : Z.
Variable g : K -> Z.

Lemma Zsum_point_absent (l : list K) :
  ~ In k0 l ->
  Zsum (map (fun k => if eqk k0 k then x else g k) l) = Zsum (map g l).
Proof.
  induction l as [|a t IH]; intros N; [reflexivity|]. cbn [map Zsum fold_right].
  assert (eqk k0 a = false) as E.
  { apply eqk_false. intros ->. apply N. left. reflexivity. }
  rewrite E. fold (Zsum (map (fun k => if eqk k0 k then x else g k) t)).
  fold (Zsum (map g t)). rewrite IH; [reflexivity|].
  intros I. apply N. right. exact I.
Qed.

Lemma Zsum_point_present (l : list K) :
  NoDup l -> In k0 l ->
  Zsum (map (fun k => if eqk k0 k then x else g k) l) = x - g k0 + Zsum (map g l).
Proof.
  induction 1 as [|a t Na Nt IH]; intros I; [destruct I|]. cbn [map Zsum fold_right].
  fold (Zsum (map (fun k => if eqk k0 k then x else g k) t)).
  fold (Zsum (map g t)).
  destruct (eqk k0 a) eqn:E.
  - apply eqk_true in E. subst a. rewrite Zsum_point_absent by exact Na. lia.
  - destruct I as [->|I]; [rewrite eqk_refl in E; discriminate E|].
    rewrite (IH I). lia.
Qed.

End PointUpdate.

Lemma eqk_pair (K1 K2 : Type) `{CmpLaws K1} `{CmpLaws K2} (a c : K1) (b d : K2) :
  eqk (a, b) (c, d) = eqk a c && eqk b d.
Proof.
  unfold eqk at 1. unfold cmp, cmp_prod. cbn [fst snd].
  unfold eqk. destruct (cmp a c); reflexivity.
Qed.

Lemma Zsum_zero (A : Type) (f : A -> Z) (l : list A) :
  (forall a, In a l -> f a = 0) -> Zsum (map f l) = 0.
Proof.
  induction l as [|a t IH]; intros Z0; [reflexivity|]. cbn [map Zsum fold_right].
  fold (Zsum (map f t)). rewrite IH, (Z0 a); [reflexivity|left; reflexivity|].
  intros b I. apply Z0. right. exact I.
Qed.

Lemma grid_point (d0 : option string) (c0 : string) (x : Z)
  (G : option string -> string -> Z)
  (idx : list (option string)) (cols : list string) :
  NoDup idx -> NoDup cols -> In d0 idx -> In c0 cols -> G d0 c0 = 0 ->
  Zsum (map (fun d => Zsum (map (fun c => if eqk (d0, c0) (d, c) then x else G d c) cols))
            idx)
  = x + Zsum (map (fun d => Zsum (map (G d) cols)) idx).
Proof.
  intros Ni Nc Id Ic Z0.
  transitivity
    (Zsum (map (fun d => if eqk d0 d then x + Zsum (map (G d0) cols)
                         else Zsum (map (G d) cols)) idx)).
  - f_equal. apply map_ext. intros d. destruct (eqk d0 d) eqn:E.
    + apply eqk_true in E. subst d.
      rewrite (map_ext (fun c => if eqk (d0, c0) (d0, c) then x else G d0 c)
                       (fun c => if eqk c0 c then x else G d0 c)).
      * rewrite (@Zsum_point_present _ _ _ c0 x (G d0) cols Nc Ic). lia.
      * intros c. rewrite eqk_pair by exact _. rewrite eqk_refl. reflexivity.
    + f_equal. apply map_ext. intros c. rewrite eqk_pair by exact _.
      rewrite E. reflexivity.
  - rewrite (@Zsum_point_present _ _ _ d0 (x + Zsum (map (G d0) cols))
               (fun d => Zsum (map (G d) cols)) idx Ni Id).
    lia.
Qed.

Lemma aging_cell_cons (r : Aging.row) (t : list Aging.row) (d : option string) (c : string) :
  aging_cell (r :: t) d c
  = if eqk (Aging.Department r, Aging.Age_Group r) (d, c) then Aging.Count r
    else aging_cell t d c.
Proof.
  unfold aging_cell, aging_lookup. cbn [find]. unfold aging_key at 1.
  destruct (eqk (Aging.Department r, Aging.Age_Group r) (d, c)); reflexivity.
Qed.

(** The cells of the matrix of a table without repeated keys add up to
    the counts of the table. *)
Lemma pivot_sum (long : list Aging.row) (idx : list (option string)) (cols : list string) :
  NoDup (map aging_key long) -> NoDup idx -> NoDup cols ->
  (forall r, In r long -> In (Aging.Department r) idx /\ In (Aging.Age_Group r) cols) ->
  Zsum (map (fun d => Zsum (map (aging_cell long d) cols)) idx)
  = Zsum (map Aging.Count long).
Proof.
  intros N Ni Nc. induction long as [|r t IH]; intros Keys.
  - apply Zsum_zero. intros d _. apply Zsum_zero. intros c _. reflexivity.
  - inversion N as [|? ? Nr Nt]; subst.
    cbn [map Zsum fold_right]. fold (Zsum (map Aging.Count t)).
    rewrite <- (IH Nt); [|intros r' I; apply Keys; right; exact I].
    destruct (Keys r (or_introl eq_refl)) as [Id Ic].
    rewrite <- (@grid_point (Aging.Department r) (Aging.Age_Group r) (Aging.Count r)
                  (aging_cell t) idx cols Ni Nc Id Ic).
    + f_equal. apply map_ext. intros d. f_equal. apply map_ext. intros c.
      apply aging_cell_cons.
    + unfold aging_cell. rewrite aging_lookup_missing; [reflexivity|].
      intros row I E. apply Nr. unfold aging_key at 1. rewrite <- E.
      apply in_map. exact I.
Qed.

Lemma vuln_age_query_total (vulns : list Vulnerability.row) :
  Zsum (map Aging.Count (vuln_age_query vulns)) = count (filter is_open vulns).
Proof.
  rewrite (Zsum_perm (Permutation_map Aging.Count (vuln_age_query_perm vulns))).
  rewrite aging_groups_all.
  apply (counted_total vuln_age_key vuln_age_select Aging.Count).
  intros g. reflexivity.
Qed.

Lemma frame_total_pivot (long : list Aging.row) (wide : frame (option Z)) :
  pivot long = Ok wide ->
  frame_total (fillna 0 wide)
  = Zsum (map (fun d => Zsum (map (aging_cell long d) (columns wide))) (index wide)).
Proof.
  unfold pivot. destruct (has_duplicates (map aging_key long)); [discriminate|].
  intros E. inversion E; subst; clear E.
  unfold frame_total, fillna. cbn [values index columns].
  rewrite !map_map. f_equal. apply map_ext. intros d.
  rewrite !map_map. reflexivity.
Qed.

(** X5.  Every open vulnerability is in exactly one cell of the heat map:
    the counts of the aging table, and the cells of the matrix made of
    it, add up to the number of open vulnerabilities, which is also the
    count the status table shows for 'Open'. *)
Theorem aging_matrix_counts_open_vulnerabilities (db : database) (s : summaries) :
  execute_queries db = Ok s ->
  let open := count (filter is_open (from (vulnerabilities db))) in
  Zsum (map Aging.Count (vuln_age_df s)) = open
  /\ frame_total (vuln_age_pivot s) = open
  /\ (forall row, In row (status_df s) ->
        VulnStatus.Solution_Status row = Some "Open"%string ->
        VulnStatus.Count row = frame_total (vuln_age_pivot s)).
Proof.
  intros E open. unfold execute_queries in E.
  set (vulns := from (vulnerabilities db)) in *.
  pose proof (pivot_vuln_age_query vulns) as P. cbv zeta in P.
  rewrite P in E. cbn [bind] in E. inversion E as [Es]. clear E Es.
  cbn [vuln_age_df vuln_age_pivot status_df].
  assert (frame_total
            (fillna 0
               {| index := distinct_keys (map Aging.Department (vuln_age_query vulns));
                  columns := distinct_keys (map Aging.Age_Group (vuln_age_query vulns));
                  values :=
                    map (fun d => map (fun c => aging_lookup (vuln_age_query vulns) d c)
                                      (distinct_keys
                                         (map Aging.Age_Group (vuln_age_query vulns))))
                        (distinct_keys (map Aging.Department (vuln_age_query vulns))) |})
          = open) as T.
  { rewrite (@frame_total_pivot _ _ P). cbn [index columns].
    rewrite pivot_sum.
    - apply vuln_age_query_total.
    - apply vuln_age_query_keys_NoDup.
    - apply distinct_keys_NoDup.
    - apply distinct_keys_NoDup.
    - intros r I. split; apply distinct_keys_In; apply in_map; exact I. }
  split; [apply vuln_age_query_total|]. split; [exact T|].
  intros row I O. rewrite T. unfold status_query in I.
  destruct (counted_In Vulnerability.Solution_Status status_select
              VulnStatus.Solution_Status VulnStatus.Count
              (fun g => eq_refl) (fun g => eq_refl) _ _ I) as [_ [C _]].
  rewrite C, O. unfold open. f_equal. apply filter_ext. intros r.
  symmetry. apply is_open_eqk.
Qed.

Lemma aging_matrix_counts_open_vulnerabilities_witness :
  let db := {| incidents := None;
               vulnerabilities :=
                 Some [vulnerability "IT" "Critical" "Open" (Some 10%Q);
                       vulnerability "HR" "High" "Closed" (Some 25%Q);
                       vulnerability "IT" "Low" "Open" (Some 200%Q);
                       vulnerability "HR" "Low" "Open" None];
               phishing_campaigns := None |} in
  exists s, execute_queries db = Ok s /\ frame_total (vuln_age_pivot s) = 3.
Proof.
  intros db. destruct (execute_queries db) as [s|e] eqn:E.
  - exists s. split; [reflexivity|].
    exact (proj1 (proj2 (@aging_matrix_counts_open_vulnerabilities db s E))).
  - vm_compute in E. discriminate E.
Defined.

(* ================================================================== *)
(** ** The phishing trend (query 4) *)

Section TimestampText.
Local Open Scope N_scope.

Ltac forget_term t := let x := fresh "n" in set (x := t) in *; clearbody x.

Ltac digits a b :=
  pose proof (N.Div0.div_mod a b);
  pose proof (N.mod_lt a b ltac:(discriminate)).

Lemma pad6_compare (a b : N) (s t : string) :
  String_as_OT.compare (pad6 a ++ s) (pad6 b ++ t)
  = match a mod 1000000 ?= b mod 1000000 with
    | Eq => String_as_OT.compare s t
    | c => c
    end.
Proof.
  unfold pad6. cbn [append]. rewrite !digit_cons_compare. rewrite pad4_compare.
  digits a 10000.
  digits (a / 10000) 10.
  digits (a / 100000) 10.
  digits a 1000000.
  assert (a / 100000 = a / 10000 / 10) by (rewrite N.Div0.div_div; reflexivity).
  assert (a / 1000000 = a / 100000 / 10) by (rewrite N.Div0.div_div; reflexivity).
  digits b 10000.
  digits (b / 10000) 10.
  digits (b / 100000) 10.
  digits b 1000000.
  assert (b / 100000 = b / 10000 / 10) by (rewrite N.Div0.div_div; reflexivity).
  assert (b / 1000000 = b / 100000 / 10) by (rewrite N.Div0.div_div; reflexivity).
  destruct (N.compare_spec ((a / 100000) mod 10) ((b / 100000) mod 10));
    destruct (N.compare_spec ((a / 10000) mod 10) ((b / 10000) mod 10));
    destruct (N.compare_spec (a mod 10000) (b mod 10000));
    destruct (N.compare_spec (a mod 1000000) (b mod 1000000));
    try reflexivity; exfalso;
    forget_term (a mod 1000000); forget_term (b mod 1000000);
    forget_term (a / 1000000); forget_term (b / 1000000);
    forget_term ((a / 100000) mod 10); forget_term ((b / 100000) mod 10);
    forget_term (a / 100000 / 10); forget_term (b / 100000 / 10);
    forget_term ((a / 10000) mod 10); forget_term ((b / 10000) mod 10);
    forget_term (a / 10000 / 10); forget_term (b / 10000 / 10);
    forget_term (a / 100000); forget_term (b / 100000);
    forget_term (a mod 10000); forget_term (b mod 10000);
    forget_term (a / 10000); forget_term (b / 10000); lia.
Qed.

Lemma fraction_compare (a b : N) :
  a < 1000000 -> b < 1000000 ->
  String_as_OT.compare
    (if a =? 0 then EmptyString else String "."%char (pad6 a))
    (if b =? 0 then EmptyString else String "."%char (pad6 b))
  = (a ?= b).
Proof.
  intros A B.
  destruct (N.eqb_spec a 0) as [->|Na]; destruct (N.eqb_spec b 0) as [->|Nb].
  - reflexivity.
  - cbn [append String_as_OT.compare]. symmetry. apply N.compare_lt_iff. lia.
  - cbn [append String_as_OT.compare]. symmetry. apply N.compare_gt_iff. lia.
  - cbn [append String_as_OT.compare].
    change (Ascii_as_OT.compare "." ".") with Eq. cbv iota.
    change (pad6 a) with (pad6 a ++ EmptyString)%string.
    change (pad6 b) with (pad6 b ++ EmptyString)%string.
    rewrite pad6_compare. cbn [String_as_OT.compare].
    rewrite !N.mod_small by assumption.
    destruct (a ?= b); reflexivity.
Qed.

(** The stored text of timestamps sorts as the timestamps do in time. *)
Lemma isoformat_compare (d1 d2 : datetime) :
  fits_format d1 -> fits_format d2 ->
  String_as_OT.compare (isoformat d1) (isoformat d2) = datetime_compare d1 d2.
Proof.
  intros [Y1 [M1 [D1 [H1 [I1 [S1 U1]]]]]] [Y2 [M2 [D2 [H2 [I2 [S2 U2]]]]]].
  unfold isoformat, datetime_compare, lex.
  rewrite pad4_compare. cbn [append String_as_OT.compare].
  change (Ascii_as_OT.compare "-" "-") with Eq. cbv iota.
  rewrite pad2_compare. cbn [append String_as_OT.compare].
  change (Ascii_as_OT.compare "-" "-") with Eq. cbv iota.
  rewrite pad2_compare. cbn [append String_as_OT.compare].
  change (Ascii_as_OT.compare " " " ") with Eq. cbv iota.
  rewrite pad2_compare. cbn [append String_as_OT.compare].
  change (Ascii_as_OT.compare ":" ":") with Eq. cbv iota.
  rewrite pad2_compare. cbn [append String_as_OT.compare].
  change (Ascii_as_OT.compare ":" ":") with Eq. cbv iota.
  rewrite pad2_compare.
  rewrite (fraction_compare U1 U2).
  rewrite !N.mod_small by assumption.
  destruct (year d1 ?= year d2); try reflexivity.
  destruct (month d1 ?= month d2); try reflexivity.
  destruct (day d1 ?= day d2); try reflexivity.
  destruct (hour d1 ?= hour d2); try reflexivity.
  destruct (minute d1 ?= minute d2); try reflexivity.
  destruct (second d1 ?= second d2); reflexivity.
Qed.

End TimestampText.

Lemma launch_text_compare (a b : option datetime) :
  (forall d, a = Some d -> fits_format d) ->
  (forall d, b = Some d -> fits_format d) ->
  cmp (option_map isoformat a) (option_map isoformat b)
  = match a, b with
    | None, None => Eq
    | None, Some _ => Lt
    | Some _, None => Gt
    | Some x, Some y => datetime_compare x y
    end.
Proof.
  intros Fa Fb. destruct a as [x|]; destruct b as [y|]; try reflexivity.
  cbn [option_map]. unfold cmp, cmp_option, cmp, cmp_string.
  apply isoformat_compare; [apply Fa|apply Fb]; reflexivity.
Qed.

Section StableFilter.
Variable A : Type.
Variable le : A -> A -> bool.
Variable p : A -> bool.
Hypothesis same_class : forall x y, p x = true -> p y = true -> le x y = true.

Lemma filter_insert_by (x : A) (l : list A) :
  filter p (insert_by le x l) = if p x then x :: filter p l else filter p l.
Proof.
  induction l as [|y t IH]; cbn [insert_by filter].
  - destruct (p x); reflexivity.
  - destruct (le x y) eqn:L; cbn [filter].
    + destruct (p x); reflexivity.
    + rewrite IH. destruct (p x) eqn:Px; [|reflexivity].
      destruct (p y) eqn:Py; [|reflexivity].
      rewrite (same_class Px Py) in L. discriminate L.
Qed.

(** Rows of one class keep their order through the sort. *)
Lemma filter_sort_by (l : list A) : filter p (sort_by le l) = filter p l.
Proof.
  induction l as [|x t IH]; [reflexivity|].
  unfold sort_by. cbn [fold_right]. fold (sort_by le t).
  rewrite filter_insert_by, IH. reflexivity.
Qed.

End StableFilter.

Lemma StronglySorted_True (A : Type) (l : list A) :
  StronglySorted (fun _ _ => True) l.
Proof.
  induction l as [|a t IH]; constructor; [exact IH|].
  apply Forall_forall. intros x _. exact I.
Qed.

(** X6.  The phishing trend has one row per campaign, in the order of the
    launch dates (campaigns without a date first); campaigns launched
    at the same time keep the order they have in the table. *)
Theorem phishing_trend_in_launch_order (campaigns : list Phishing.row) :
  (forall r d, In r campaigns ->
     Phishing.Launch_Date (Phishing.base r) = Some d -> fits_format d) ->
  let out := phishing_trend_query campaigns in
  Permutation out (map phishing_trend_select campaigns)
  /\ StronglySorted
       (fun a b => not_later (PhishingTrend.Launch_Date a) (PhishingTrend.Launch_Date b))
       out
  /\ (forall x, (forall d, x = Some d -> fits_format d) ->
        filter (launched_at x) out
        = filter (launched_at x) (map phishing_trend_select campaigns)).
Proof.
  intros Fits out.
  assert (forall row, In row (map phishing_trend_select campaigns) ->
            forall d, PhishingTrend.Launch_Date row = Some d -> fits_format d) as FitsOut.
  { intros row I d E. apply in_map_iff in I. destruct I as [r [<- I]].
    exact (Fits r d I E). }
  set (text := fun r => option_map isoformat (PhishingTrend.Launch_Date r)).
  split; [apply order_by_perm|]. split.
  - unfold out, phishing_trend_query, order_by. fold text.
    apply (@StronglySorted_weaken _
             (sorted_stably (fun a b => leb (text a) (text b)) (fun _ _ => True))).
    + intros a b Ia Ib [L _].
      apply sort_by_In in Ia. apply sort_by_In in Ib.
      unfold leb, text in L.
      rewrite (launch_text_compare (FitsOut a Ia) (FitsOut b Ib)) in L.
      unfold not_later.
      destruct (PhishingTrend.Launch_Date a); destruct (PhishingTrend.Launch_Date b);
        try exact I; try discriminate L.
      intros G. rewrite G in L. discriminate L.
    + apply sort_by_stable.
      * intros a b. apply leb_total.
      * intros a b c. apply leb_trans.
      * apply StronglySorted_True.
  - intros x Fx. unfold out, phishing_trend_query, order_by. fold text.
    set (rows := map phishing_trend_select campaigns) in *.
    assert (forall l, (forall row, In row l -> In row rows) ->
              filter (launched_at x) l
              = filter (fun r => eqk (option_map isoformat x) (text r)) l) as Class.
    { intros l Sub. apply filter_ext_in. intros row I.
      unfold eqk, text, launched_at.
      rewrite (launch_text_compare Fx (FitsOut row (Sub row I))).
      destruct x; destruct (PhishingTrend.Launch_Date row); reflexivity. }
    rewrite (Class rows (fun row I => I)).
    rewrite Class; [|intros row I; apply sort_by_In in I; exact I].
    apply filter_sort_by. intros a b Pa Pb.
    apply (proj1 (eqk_true _ _)) in Pa. apply (proj1 (eqk_true _ _)) in Pb.
    change (leb (text a) (text b) = true).
    pose proof (cmp_refl (option_map isoformat x)) as X.
    unfold leb. rewrite <- Pa, <- Pb, X. reflexivity.
Qed.

Lemma phishing_trend_in_launch_order_witness :
  let row := fun name day =>
    {| Phishing.base := campaign name (january_2024 day) "20%";
       Phishing.Click_Rate_Percent := Some (Finite 20) |} in
  let campaigns := [row "parcel lure"%string 23%N; row "invoice lure"%string 9%N;
                    row "password reset"%string 23%N] in
  map PhishingTrend.Campaign_Name
      (filter (launched_at (Some (january_2024 23))) (phishing_trend_query campaigns))
  = [Some "parcel lure"%string; Some "password reset"%string].
Proof.
  intros row campaigns.
  assert (forall r d, In r campaigns ->
            Phishing.Launch_Date (Phishing.base r) = Some d -> fits_format d) as F.
  { intros r d [<-|[<-|[<-|[]]]] E; inversion E; subst; vm_compute;
      repeat split; reflexivity. }
  destruct (phishing_trend_in_launch_order campaigns F) as [_ [_ S]].
  rewrite (S (Some (january_2024 23))).
  - reflexivity.
  - intros d E. inversion E; subst. vm_compute. repeat split; reflexivity.
Defined.

(* ================================================================== *)
(** ** Chart labels *)

Section Slices.
Local Open Scope nat_scope.

Lemma length_append (s t : string) :
  String.length (s ++ t) = String.length s + String.length t.
Proof. induction s as [|c s IH]; cbn; [reflexivity|]. rewrite IH. reflexivity. Qed.

Lemma length_slice (n : nat) (s : string) :
  String.length (substring 0 n s) = Nat.min n (String.length s).
Proof.
  revert s. induction n as [|n IH]; intros [|c s]; cbn; try reflexivity.
  rewrite IH. reflexivity.
Qed.

Lemma slice_all (n : nat) (s : string) :
  String.length s <= n -> substring 0 n s = s.
Proof.
  revert s. induction n as [|n IH]; intros [|c s] L; cbn in *; try reflexivity; [lia|].
  rewrite IH by lia. reflexivity.
Qed.

Lemma slice_append (n : nat) (s t : string) :
  n <= String.length s -> substring 0 n (s ++ t) = substring 0 n s.
Proof.
  revert s. induction n as [|n IH]; intros [|c s] L; cbn in *; try reflexivity.
  - destruct t; reflexivity.
  - lia.
  - rewrite IH by lia. reflexivity.
Qed.

Lemma slice_slice (n : nat) (s : string) :
  substring 0 n (substring 0 n s) = substring 0 n s.
Proof.
  apply slice_all. rewrite length_slice. apply Nat.le_min_l.
Qed.

(** The label is at most three characters longer than the cut, begins
    as the text does, and is the text itself when the text fits. *)
Lemma truncate_label_spec (n : nat) (s : string) :
  String.length (truncate_label n s) <= n + 3
  /\ substring 0 n (truncate_label n s) = substring 0 n s
  /\ (String.length s <= n -> truncate_label n s = s)
  /\ (n < String.length s -> truncate_label n s = (substring 0 n s ++ "...")%string).
Proof.
  unfold truncate_label. destruct (Nat.ltb_spec n (String.length s)) as [L|L].
  - split; [rewrite length_append, length_slice; cbn; lia|].
    split; [|split; [lia|reflexivity]].
    rewrite slice_append; [apply slice_slice|].
    rewrite length_slice. lia.
  - split; [lia|]. split; [reflexivity|]. split; [reflexivity|lia].
Qed.

End Slices.

Lemma tick_labels_present (n : nat) (texts : list string) :
  tick_labels n (map Some texts) = Some (map (truncate_label n) texts).
Proof.
  induction texts as [|s t IH]; cbn [map tick_labels]; [reflexivity|].
  rewrite IH. reflexivity.
Qed.

Lemma tick_labels_missing (n : nat) (labels : list (option string)) :
  tick_labels n labels = None <-> In None labels.
Proof.
  induction labels as [|[s|] t IH]; cbn [tick_labels].
  - split; [discriminate|intros []].
  - destruct (tick_labels n t) as [ls|].
    + split; [discriminate|]. intros [X|X]; [discriminate X|].
      apply IH in X. discriminate X.
    + split; [|reflexivity]. intros _. right. apply IH. reflexivity.
  - split; [|reflexivity]. intros _. left. reflexivity.
Qed.

Lemma all_present (labels : list (option string)) :
  ~ In None labels -> exists texts, labels = map Some texts.
Proof.
  induction labels as [|[s|] t IH]; intros N.
  - exists []. reflexivity.
  - destruct IH as [texts E]; [intros X; apply N; right; exact X|].
    exists (s :: texts). rewrite E. reflexivity.
  - elim N. left. reflexivity.
Qed.



Lemma slice_slice_le (n m : nat) (s : string) :
  (n <= m)%nat -> substring 0 n (substring 0 m s) = substring 0 n s.
Proof.
  revert m s. induction n as [|n IH]; intros [|m] [|c s] L; cbn; try reflexivity; try lia.
  rewrite IH by lia. reflexivity.
Qed.

Lemma chart_7a_label_short (t : string) :
  (String.length t <= 12)%nat -> chart_7a_label t = (t ++ "...")%string.
Proof.
  intros L. unfold chart_7a_label. rewrite (@slice_all 25%nat t) by lia.
  apply (proj1 (proj2 (proj2 (truncate_label_spec 15 (t ++ "..."))))).
  rewrite length_append. cbn. lia.
Qed.

Lemma chart_7a_label_long (t : string) :
  (13 <= String.length t)%nat ->
  chart_7a_label t = (substring 0 15 (t ++ "...") ++ "...")%string.
Proof.
  intros L. unfold chart_7a_label.
  rewrite (proj2 (proj2 (proj2 (truncate_label_spec 15 (substring 0 25 t ++ "..."))))).
  - f_equal. destruct (Nat.le_gt_cases (String.length t) 25) as [S|S].
    + rewrite (@slice_all 25%nat t) by exact S. reflexivity.
    + rewrite slice_append by (rewrite length_slice; lia).
      rewrite slice_slice_le by lia.
      rewrite slice_append by lia. reflexivity.
  - rewrite length_append, length_slice.
    change (String.length "...") with 3%nat. lia.
Qed.



(* ================================================================== *)
(** ** Which panels are drawn *)

Lemma filter_nonempty (A : Type) (p : A -> bool) (l : list A) :
  filter p l <> [] <-> exists x, In x l /\ p x = true.
Proof.
  split.
  - destruct (filter p l) as [|x t] eqn:E; [intros N; elim N; reflexivity|].
    intros _. exists x. apply filter_In. rewrite E. left. reflexivity.
  - intros [x I] E. apply filter_In in I. rewrite E in I. destruct I.
Qed.

Lemma distinct_keys_nil (K : Type) `{CmpLaws K} (ks : list K) :
  distinct_keys ks = [] <-> ks = [].
Proof.
  split; [|intros ->; reflexivity].
  destruct ks as [|k t]; [reflexivity|]. intros E.
  assert (In k (distinct_keys (k :: t))) as I.
  { apply distinct_keys_In. left. reflexivity. }
  rewrite E in I. destruct I.
Qed.

Lemma nil_length (A : Type) (l : list A) : l = [] <-> length l = O.
Proof. destruct l; split; intros X; try reflexivity; discriminate X. Qed.

Lemma top_rows_nil (R A K : Type) `{CmpLaws K} (key : R -> K) (select : K * list R -> A)
  (score : A -> Z) (n : nat) (rows : list R) :
  limit (S n) (order_by_desc score (map select (group_by_desc key rows))) = []
  <-> rows = [].
Proof.
  unfold limit. rewrite nil_length. rewrite length_firstn.
  rewrite (ranked_length key select score).
  split.
  - intros L.
    assert (length (distinct_keys (map key rows)) = O) as Z0 by lia.
    apply nil_length in Z0. pose proof (proj1 (distinct_keys_nil _) Z0) as Z1.
    destruct rows; [reflexivity|discriminate Z1].
  - intros ->. reflexivity.
Qed.

Lemma vuln_age_query_nil (vulns : list Vulnerability.row) :
  vuln_age_query vulns = [] <-> filter is_open vulns = [].
Proof.
  rewrite nil_length.
  rewrite (Permutation_length (vuln_age_query_perm vulns)).
  rewrite aging_groups_all. rewrite length_map.
  unfold group_by. rewrite length_map. rewrite <- nil_length.
  split.
  - intros Z0. pose proof (proj1 (distinct_keys_nil _) Z0) as Z1.
    destruct (filter is_open vulns); [reflexivity|discriminate Z1].
  - intros ->. reflexivity.
Qed.

Lemma Zsum_nonneg (l : list Z) : (forall x, In x l -> 0 < x) -> 0 <= Zsum l.
Proof.
  induction l as [|a t IH]; intros P; cbn [Zsum fold_right]; [lia|]. fold (Zsum t).
  pose proof (P a (or_introl eq_refl)).
  assert (0 <= Zsum t); [|lia]. apply IH. intros x I. apply P. right. exact I.
Qed.

Lemma Zsum_positive (l : list Z) :
  l <> [] -> (forall x, In x l -> 0 < x) -> 0 < Zsum l.
Proof.
  destruct l as [|a t]; intros N P; [elim N; reflexivity|].
  cbn [Zsum fold_right]. fold (Zsum t).
  pose proof (P a (or_introl eq_refl)).
  assert (0 <= Zsum t); [|lia].
  apply Zsum_nonneg. intros x I. apply P. right. exact I.
Qed.

(** X9.  The heat map and the chart of the top types are drawn exactly when
    some vulnerability is open, and the chart of the critical
    departments exactly when some open vulnerability is critical;
    otherwise the panel shows its 'No data' or 'No critical' text.
    The test on the sum of the critical counts never decides: a table
    with a row has a positive sum. *)
Theorem panels_drawn_when_data (db : database) (s : summaries) :
  execute_queries db = Ok s ->
  let vulns := from (vulnerabilities db) in
  (draws_aging_heatmap s = true <-> exists r, In r vulns /\ is_open r = true)
  /\ (draws_vuln_types s = true <-> exists r, In r vulns /\ is_open r = true)
  /\ (draws_critical s = true
      <-> exists r, In r vulns /\ (is_critical r && is_open r) = true)
  /\ (critical_df s <> [] -> 0 < Zsum (map CriticalDept.Critical_Count (critical_df s))).
Proof.
  intros E vulns. unfold execute_queries in E. fold vulns in E.
  pose proof (pivot_vuln_age_query vulns) as P. cbv zeta in P.
  rewrite P in E. cbn [bind] in E. inversion E as [Es]. clear E Es.
  unfold draws_aging_heatmap, draws_vuln_types, draws_critical.
  cbn [vuln_age_pivot vuln_type_df critical_df].
  assert (critical_vuln_query vulns <> [] ->
          0 < Zsum (map CriticalDept.Critical_Count (critical_vuln_query vulns))) as Sum.
  { intros N. apply Zsum_positive.
    - intros X. apply map_eq_nil in X. exact (N X).
    - intros x I. apply in_map_iff in I. destruct I as [row [<- I]].
      rewrite critical_vuln_query_limit in I. apply firstn_In in I.
      assert (In (critical_bar row) (map critical_bar (critical_vuln_ranking vulns))) as B.
      { apply in_map. exact I. }
      unfold critical_bar in B. apply critical_bars_In in B. exact (proj2 B). }
  split; [|split; [|split; [|exact Sum]]].
  - rewrite <- filter_nonempty. rewrite <- (vuln_age_query_nil vulns).
    unfold frame_empty, fillna. cbn [index columns].
    destruct (vuln_age_query vulns) as [|row rest] eqn:Q.
    + cbn. split; [discriminate|]. intros N. elim N. reflexivity.
    + destruct (distinct_keys (map Aging.Department (row :: rest))) as [|d ds] eqn:D.
      { pose proof (proj1 (distinct_keys_nil _) D) as X. discriminate X. }
      destruct (distinct_keys (map Aging.Age_Group (row :: rest))) as [|c cs] eqn:C.
      { pose proof (proj1 (distinct_keys_nil _) C) as X. discriminate X. }
      cbn. split; [discriminate|reflexivity].
  - rewrite <- filter_nonempty.
    rewrite <- (top_rows_nil Vulnerability.Vulnerability_Title vuln_type_select
                  VulnType.Count 4 (filter is_open vulns)).
    change (limit 5 _) with (vuln_type_query vulns).
    destruct (vuln_type_query vulns); cbn [map].
    + split; [discriminate|]. intros N. elim N. reflexivity.
    + split; [discriminate|reflexivity].
  - rewrite <- filter_nonempty.
    rewrite <- (top_rows_nil Vulnerability.Department critical_vuln_select
                  CriticalDept.Critical_Count 4
                  (filter (fun r => is_critical r && is_open r) vulns)).
    change (limit 5 _) with (critical_vuln_query vulns).
    destruct (critical_vuln_query vulns) as [|row rest] eqn:Q.
    + split; [discriminate|]. intros N. elim N. reflexivity.
    + split; [discriminate|]. intros _. apply Z.ltb_lt. apply Sum. discriminate.
Qed.

Lemma panels_drawn_when_data_witness :
  let db := {| incidents := None;
               vulnerabilities :=
                 Some [vulnerability "IT" "High" "Open" (Some 10%Q);
                       vulnerability "HR" "Critical" "Closed" (Some 25%Q)];
               phishing_campaigns := None |} in
  exists s, execute_queries db = Ok s
    /\ draws_aging_heatmap s = true /\ draws_vuln_types s = true
    /\ draws_critical s = false.
Proof.
  intros db. destruct (execute_queries db) as [s|e] eqn:E.
  - exists s. split; [reflexivity|].
    destruct (@panels_drawn_when_data db s E) as [H [T [C _]]].
    assert (exists r, In r (from (vulnerabilities db)) /\ is_open r = true) as O.
    { exists (vulnerability "IT" "High" "Open" (Some 10%Q)).
      split; [left; reflexivity|reflexivity]. }
    split; [apply H; exact O|]. split; [apply T; exact O|].
    destruct (draws_critical s); [|reflexivity].
    destruct (proj1 C eq_refl) as [r [[<-|[<-|[]]] X]]; discriminate X.
  - vm_compute in E. discriminate E.
Defined.

(* ================================================================== *)
(** ** Top vulnerability types (query 7) *)

Lemma Zsum_firstn_le (n : nat) (l : list Z) :
  (forall x, In x l -> 0 < x) -> Zsum (firstn n l) <= Zsum l.
Proof.
  revert n. induction l as [|a t IH]; intros n P; destruct n as [|n];
    cbn [firstn Zsum fold_right]; try lia.
  - fold (Zsum t). pose proof (P a (or_introl eq_refl)).
    assert (0 <= Zsum t); [|lia].
    apply Zsum_nonneg. intros x I. apply P. right. exact I.
  - fold (Zsum (firstn n t)). fold (Zsum t).
    assert (Zsum (firstn n t) <= Zsum t); [|lia].
    apply IH. intros x I. apply P. right. exact I.
Qed.

Lemma vuln_type_ranking_In (vulns : list Vulnerability.row) (row : VulnType.row) :
  In row (vuln_type_ranking vulns) <->
  In (VulnType.Vulnerability_Title row)
     (map Vulnerability.Vulnerability_Title (filter is_open vulns))
  /\ row = vuln_type_row vulns (VulnType.Vulnerability_Title row).
Proof.
  unfold vuln_type_ranking, vuln_type_row, open_titled.
  apply (ranked_In Vulnerability.Vulnerability_Title vuln_type_select
           VulnType.Count VulnType.Vulnerability_Title).
  intros g. reflexivity.
Qed.

Lemma vuln_type_ranking_sorted (vulns : list Vulnerability.row) :
  StronglySorted (ranked_before VulnType.Count VulnType.Vulnerability_Title)
    (vuln_type_ranking vulns).
Proof.
  unfold vuln_type_ranking.
  apply (ranked_sorted Vulnerability.Vulnerability_Title vuln_type_select
           VulnType.Count VulnType.Vulnerability_Title).
  intros g. reflexivity.
Qed.

Lemma vuln_type_ranking_total (vulns : list Vulnerability.row) :
  Zsum (map VulnType.Count (vuln_type_ranking vulns)) = count (filter is_open vulns).
Proof.
  unfold vuln_type_ranking.
  rewrite (Zsum_perm (Permutation_map VulnType.Count (order_by_desc_perm _ _))).
  unfold group_by_desc.
  rewrite (Zsum_perm
             (Permutation_map VulnType.Count
                (Permutation_map vuln_type_select
                   (Permutation_sym
                      (Permutation_rev
                         (group_by Vulnerability.Vulnerability_Title
                                   (filter is_open vulns))))))).
  apply (counted_total Vulnerability.Vulnerability_Title vuln_type_select VulnType.Count).
  intros g. reflexivity.
Qed.

(** X10.  The table of the top vulnerability types has at most five rows,
    one per title of an open vulnerability, each with the number of
    open vulnerabilities of that title; rows are in descending order of
    count and rows of equal count in descending order of title; a title
    without a row ranks after the five rows emitted; the counts shown
    never add up to more than the number of open vulnerabilities. *)
Theorem top_vulnerability_types (vulns : list Vulnerability.row) :
  let out := vuln_type_query vulns in
  (length out <= 5)%nat
  /\ StronglySorted (ranked_before VulnType.Count VulnType.Vulnerability_Title) out
  /\ (forall row, In row out ->
        0 < VulnType.Count row
        /\ VulnType.Count row
           = count (open_titled (VulnType.Vulnerability_Title row) vulns))
  /\ (forall r, In r vulns -> is_open r = true ->
        In (vuln_type_row vulns (Vulnerability.Vulnerability_Title r)) out
        \/ (length out = 5%nat
            /\ forall row, In row out ->
                 ranked_before VulnType.Count VulnType.Vulnerability_Title
                   row (vuln_type_row vulns (Vulnerability.Vulnerability_Title r))))
  /\ Zsum (map VulnType.Count out) <= count (filter is_open vulns).
Proof.
  intros out. unfold out.
  change (vuln_type_query vulns) with (firstn 5 (vuln_type_ranking vulns)).
  assert (forall row, In row (vuln_type_ranking vulns) ->
            0 < VulnType.Count row
            /\ VulnType.Count row
               = count (open_titled (VulnType.Vulnerability_Title row) vulns)) as Rows.
  { intros row I. apply (proj1 (vuln_type_ranking_In _ _)) in I. destruct I as [I E].
    assert (VulnType.Count row
            = count (open_titled (VulnType.Vulnerability_Title row) vulns)) as C.
    { rewrite E at 1. reflexivity. }
    split; [|exact C]. rewrite C. apply count_pos.
    apply (proj1 (In_key_filter Vulnerability.Vulnerability_Title _ _)). exact I. }
  split; [apply firstn_le_length|].
  split; [apply StronglySorted_firstn, vuln_type_ranking_sorted|].
  split; [intros row I; apply Rows; apply firstn_In in I; exact I|].
  split.
  - intros r I O. apply sorted_firstn_top.
    + apply vuln_type_ranking_sorted.
    + apply vuln_type_ranking_In. split; [|reflexivity].
      cbn. apply in_map. apply filter_In. split; [exact I|exact O].
  - rewrite <- vuln_type_ranking_total. rewrite <- firstn_map.
    apply Zsum_firstn_le. intros x I. apply in_map_iff in I.
    destruct I as [row [<- I]]. exact (proj1 (Rows row I)).
Qed.

Lemma top_vulnerability_types_witness :
  let vulns := [vulnerability "IT" "Critical" "Open" (Some 10%Q);
                vulnerability "HR" "High" "Open" (Some 25%Q);
                vulnerability "IT" "Low" "Closed" (Some 15%Q)] in
  In {| VulnType.Vulnerability_Title := Some "Outdated TLS configuration"%string;
        VulnType.Count := 2 |} (vuln_type_query vulns).
Proof.
  intros vulns.
  destruct (top_vulnerability_types vulns) as [_ [_ [_ [T _]]]].
  destruct (T (vulnerability "IT" "Critical" "Open" (Some 10%Q))) as [I|[L _]].
  - left. reflexivity.
  - reflexivity.
  - exact I.
  - vm_compute in L. discriminate L.
Defined.

(* ================================================================== *)
(** ** The MTTR trend and the derived hours column *)

Lemma non_null_hours (l : list (option Q)) :
  non_null (map response_time_hours l) = map (fun x => (x / 60)%Q) (non_null l).
Proof.
  induction l as [|[x|] t IH]; cbn [map non_null flat_map response_time_hours option_map app].
  - reflexivity.
  - fold (non_null (map response_time_hours t)). fold (non_null t). rewrite IH. reflexivity.
  - fold (non_null (map response_time_hours t)). fold (non_null t). exact IH.
Qed.

Lemma Qsum_hours (xs : list Q) :
  (Qsum (map (fun x => x / 60) xs) == Qsum xs / 60)%Q.
Proof.
  induction xs as [|x t IH]; cbn [map Qsum fold_right].
  - reflexivity.
  - fold (Qsum (map (fun x => (x / 60)%Q) t)). fold (Qsum t). rewrite IH. field.
Qed.

(** The mean of the hours is the mean of the minutes divided by 60,
    and ROUND gives the same number for both. *)
Lemma avg_hours (l : list (option Q)) :
  option_map (fun a => sql_round a 1) (sql_avg (map response_time_hours l))
  = option_map (fun a => sql_round (a / 60) 1) (sql_avg l).
Proof.
  unfold sql_avg. rewrite non_null_hours.
  destruct (non_null l) as [|x xs]; [reflexivity|].
  cbn [map option_map]. f_equal. apply sql_round_Qeq.
  change (x / 60 :: map (fun x0 => x0 / 60) xs)%Q
    with (map (fun x0 => x0 / 60)%Q (x :: xs)).
  rewrite length_map. rewrite Qsum_hours. field.
  intros Z0. assert (inject_Z (Z.of_nat (length (x :: xs))) > 0)%Q as P; [|lra].
  change 0%Q with (inject_Z 0). rewrite <- Zlt_Qlt. cbn [length]. lia.
Qed.

(** X11.  The MTTR trend agrees with the column the loader derives: the
    hours of a month are the mean of Response_Time_Hours over the
    month's resolved incidents, rounded to one decimal.  In every row
    the critical incidents are among the incidents counted, and the
    rows together count each resolved incident with a response time
    once. *)
Theorem mttr_agrees_with_hours_column (raws : list Incident.raw) :
  let incidents := map load_incident raws in
  let out := mttr_query incidents in
  (forall row, In row out ->
     Mttr.Avg_Response_Hours row
     = option_map (fun a => sql_round a 1)
         (sql_avg (map Incident.Response_Time_Hours
                       (resolved_in_month (Mttr.Month row) incidents)))
     /\ 0 <= Mttr.Critical_Incidents row <= Mttr.Total_Incidents row)
  /\ Zsum (map Mttr.Total_Incidents out) = count (filter mttr_where incidents).
Proof.
  intros incidents out. split.
  - intros row I. apply (proj1 (mttr_query_In _ _)) in I. destruct I as [_ E].
    set (g := resolved_in_month (Mttr.Month row) incidents) in *.
    assert (map Incident.Response_Time_Hours g
            = map response_time_hours
                (map (fun r => Incident.Response_Time_Min (Incident.base r)) g)) as Hours.
    { rewrite map_map. apply map_ext_in. intros r Ir.
      unfold g, resolved_in_month in Ir.
      apply filter_In in Ir. destruct Ir as [Ir _].
      apply filter_In in Ir. destruct Ir as [Ir _].
      unfold incidents in Ir. apply in_map_iff in Ir. destruct Ir as [raw [<- _]].
      reflexivity. }
    rewrite Hours, avg_hours. rewrite E.
    cbn [mttr_select Mttr.Avg_Response_Hours Mttr.Critical_Incidents
         Mttr.Total_Incidents snd].
    split; [reflexivity|]. rewrite sum_case_count.
    split; [apply count_nonneg|apply filter_length_le].
  - unfold out, mttr_query.
    apply (counted_total mttr_month mttr_select Mttr.Total_Incidents).
    intros g. reflexivity.
Qed.

Lemma mttr_agrees_with_hours_column_witness :
  let raws := [incident "Malware" "Critical" "Resolved" (january_2024 3) (Some 90%Q);
               incident "Phishing" "Low" "Resolved" (january_2024 4) (Some 150%Q);
               incident "Malware" "High" "Open" (january_2024 5) None] in
  map Mttr.Avg_Response_Hours (mttr_query (map load_incident raws)) = [Some 2%Q]
  /\ Zsum (map Mttr.Total_Incidents (mttr_query (map load_incident raws))) = 2.
Proof.
  intros raws. split; [reflexivity|].
  rewrite (proj2 (mttr_agrees_with_hours_column raws)). reflexivity.
Defined.

(* ================================================================== *)
(** ** How a run ends *)

Lemma load_campaign_Ok (r : Phishing.raw) (row : Phishing.row) :
  load_campaign r = Ok row -> Phishing.base row = r /\ click_rate_converts r.
Proof.
  unfold load_campaign, click_rate_percent, click_rate_converts.
  destruct (Phishing.Click_Rate r) as [s|].
  - destruct (py_float (py_rstrip "%" s)) as [v|] eqn:F; cbn [bind]; [|discriminate].
    intros E. inversion E. split; [reflexivity|].
    intros s' Es. inversion Es; subst. rewrite F. discriminate.
  - cbn [bind]. intros E. inversion E. split; [reflexivity|]. intros s' Es. discriminate Es.
Qed.

Lemma load_campaign_Raise (r : Phishing.raw) (e : exn) :
  load_campaign r = Raise e ->
  exists s, Phishing.Click_Rate r = Some s
    /\ py_float (py_rstrip "%" s) = None
    /\ e = ValueError_float (py_rstrip "%" s).
Proof.
  unfold load_campaign, click_rate_percent.
  destruct (Phishing.Click_Rate r) as [s|]; [|discriminate].
  destruct (py_float (py_rstrip "%" s)) as [v|] eqn:F; cbn [bind]; [discriminate|].
  intros E. inversion E. exists s. repeat split. exact F.
Qed.

Lemma load_campaign_converts (r : Phishing.raw) :
  click_rate_converts r -> exists row, load_campaign r = Ok row.
Proof.
  intros C. destruct (load_campaign r) as [row|e] eqn:E; [exists row; reflexivity|].
  apply load_campaign_Raise in E. destruct E as [s [Es [F _]]].
  elim (C s Es F).
Qed.

(** The conversion stops at the first cell it cannot convert. *)
Lemma mapM_load_campaign (l : list Phishing.raw) :
  (exists rows, mapM load_campaign l = Ok rows
     /\ map Phishing.base rows = l
     /\ forall r, In r l -> click_rate_converts r)
  \/ (exists pre r post e,
        mapM load_campaign l = Raise e
        /\ l = pre ++ r :: post
        /\ (forall x, In x pre -> click_rate_converts x)
        /\ load_campaign r = Raise e).
Proof.
  induction l as [|a t IH]; cbn [mapM].
  - left. exists []. repeat split. intros r [].
  - destruct (load_campaign a) as [row|e] eqn:E; cbn [bind].
    + apply load_campaign_Ok in E. destruct E as [B C].
      destruct IH as [[rows [M [Bs Cs]]]|[pre [r [post [e [M [L [Cs R]]]]]]]].
      * left. rewrite M. cbn [bind]. exists (row :: rows).
        split; [reflexivity|]. split; [cbn [map]; rewrite B, Bs; reflexivity|].
        intros r [<-|I]; [exact C|exact (Cs r I)].
      * right. rewrite M. cbn [bind]. exists (a :: pre), r, post, e.
        split; [reflexivity|]. split; [rewrite L; reflexivity|].
        split; [|exact R]. intros x [<-|I]; [exact C|exact (Cs x I)].
    + right. exists [], a, t, e. repeat split; [intros x []|exact E].
Qed.



(* ================================================================== *)
(** ** Accepted click-rate cells *)

Lemma mem_char_In (c : ascii) (s : string) :
  mem_char c s = true <-> In c (list_ascii_of_string s).
Proof.
  induction s as [|a t IH]; cbn [mem_char list_ascii_of_string In].
  - split; [discriminate|tauto].
  - rewrite orb_true_iff, IH, Ascii.eqb_eq. split; intros [X|X]; auto.
Qed.

Lemma In_skip_while (p : ascii -> bool) (c : ascii) (l : list ascii) :
  p c = false -> In c l -> In c (skip_while p l).
Proof.
  intros Pc. induction l as [|x t IH]; intros I; [destruct I|].
  cbn [skip_while]. destruct (p x) eqn:Px; [|exact I].
  destruct I as [->|I]; [congruence|exact (IH I)].
Qed.

Lemma In_py_strip (c : ascii) (l : list ascii) :
  py_isspace c = false -> In c l -> In c (py_strip l).
Proof.
  intros Pc I. unfold py_strip. apply -> in_rev.
  apply In_skip_while; [exact Pc|]. apply -> in_rev.
  apply In_skip_while; [exact Pc|exact I].
Qed.

Lemma In_take_sign (l : list ascii) : In "%"%char l -> In "%"%char (snd (take_sign l)).
Proof.
  destruct l as [|c t]; [intros []|]. unfold take_sign.
  destruct (Ascii.eqb c "-") eqn:E1.
  - apply Ascii.eqb_eq in E1. subst c. intros [X|X]; [discriminate X|exact X].
  - destruct (Ascii.eqb c "+") eqn:E2; [|intros I; exact I].
    apply Ascii.eqb_eq in E2. subst c. intros [X|X]; [discriminate X|exact X].
Qed.

Lemma not_a_name (l : list ascii) (name : string) :
  In "%"%char l -> ~ In "%"%char (list_ascii_of_string name) ->
  chars_eqb (map lower l) name = false.
Proof.
  intros I N. unfold chars_eqb.
  destruct (String.eqb_spec (string_of_list_ascii (map lower l)) name) as [E|_];
    [|reflexivity].
  elim N. rewrite <- E. rewrite list_ascii_of_string_of_list_ascii.
  apply in_map_iff. exists "%"%char. split; [reflexivity|exact I].
Qed.

Lemma In_py_digitpart_tail (n : nat) (s : list ascii) :
  (length s <= n)%nat -> In "%"%char s -> In "%"%char (snd (py_digitpart_tail s)).
Proof.
  revert s. induction n as [|n IH]; intros s L I.
  { destruct s; [destruct I|cbn [length] in L; lia]. }
  destruct s as [|c t]; [destruct I|]. cbn [length] in L.
  cbn [py_digitpart_tail]. destruct (is_digit c) eqn:Dc.
  - destruct I as [->|I]; [discriminate Dc|].
    pose proof (IH t ltac:(lia) I) as X.
    destruct (py_digitpart_tail t) as [ds r]. exact X.
  - destruct (Ascii.eqb c "_") eqn:U; [|exact I].
    destruct t as [|d t']; [exact I|].
    destruct (is_digit d) eqn:Dd; [|exact I].
    apply Ascii.eqb_eq in U. subst c.
    destruct I as [X|[->|I]]; [discriminate X|discriminate Dd|].
    cbn [length] in L.
    pose proof (IH t' ltac:(lia) I) as X.
    destruct (py_digitpart_tail t') as [ds r]. exact X.
Qed.

Lemma In_py_digitpart (s ds r : list ascii) :
  py_digitpart s = Some (ds, r) -> In "%"%char s -> In "%"%char r.
Proof.
  destruct s as [|c t]; [discriminate|]. cbn [py_digitpart].
  destruct (is_digit c) eqn:Dc; [|discriminate].
  intros E [->|I]; [discriminate Dc|].
  pose proof (@In_py_digitpart_tail (length t) t (le_n _) I) as X.
  destruct (py_digitpart_tail t) as [ds' r']. inversion E; subst. exact X.
Qed.

Lemma In_starts_with_point (s r : list ascii) :
  starts_with_point s = Some r -> In "%"%char s -> In "%"%char r.
Proof.
  destruct s as [|c t]; [discriminate|]. cbn [starts_with_point].
  destruct (Ascii.eqb c ".") eqn:E; [|discriminate].
  apply Ascii.eqb_eq in E. subst c.
  intros X [Y|Y]; [discriminate Y|]. inversion X; subst. exact Y.
Qed.

Lemma In_py_number (s ip fp r : list ascii) :
  py_number s = Some (ip, fp, r) -> In "%"%char s -> In "%"%char r.
Proof.
  unfold py_number. intros E I.
  destruct (py_digitpart s) as [[ip0 r0]|] eqn:D.
  - pose proof (In_py_digitpart _ D I) as I0.
    destruct (starts_with_point r0) as [r1|] eqn:S.
    + pose proof (In_starts_with_point _ S I0) as I1.
      destruct (py_digitpart r1) as [[fp0 r2]|] eqn:D1.
      * inversion E; subst. exact (In_py_digitpart _ D1 I1).
      * inversion E; subst. exact I1.
    + inversion E; subst. exact I0.
  - destruct (starts_with_point s) as [r1|] eqn:S; [|discriminate E].
    pose proof (In_starts_with_point _ S I) as I1.
    destruct (py_digitpart r1) as [[fp0 r2]|] eqn:D1; [|discriminate E].
    inversion E; subst. exact (In_py_digitpart _ D1 I1).
Qed.

Lemma py_exponent_rest (s : list ascii) (e : Z) :
  py_exponent s = Some (e, []) -> ~ In "%"%char s.
Proof.
  destruct s as [|c t]; [intros _ []|]. cbn [py_exponent].
  destruct (is_exp_mark c) eqn:M; [|discriminate].
  intros E [->|I]; [discriminate M|].
  pose proof (In_take_sign _ I) as I1.
  destruct (take_sign t) as [eneg t1]. cbn [snd] in I1.
  destruct (py_digitpart t1) as [[ed r]|] eqn:D; [|discriminate E].
  pose proof (In_py_digitpart _ D I1) as X.
  inversion E; subst. destruct X.
Qed.

(** [float] accepts no text with a percent sign in it. *)
Lemma py_float_no_percent (t : string) (v : pyfloat) :
  py_float t = Some v -> mem_char "%"%char t = false.
Proof.
  intros F. destruct (mem_char "%"%char t) eqn:M; [|reflexivity]. exfalso.
  apply mem_char_In in M. apply (In_py_strip "%"%char _ eq_refl) in M.
  unfold py_float in F. cbv zeta in F.
  pose proof (In_take_sign _ M) as I1.
  destruct (take_sign (py_strip (list_ascii_of_string t))) as [neg t1].
  cbn [snd] in I1.
  rewrite (@not_a_name t1 "inf"%string I1) in F
    by (cbn; intros [X|[X|[X|[]]]]; discriminate X).
  rewrite (@not_a_name t1 "infinity"%string I1) in F
    by (cbn; intros [X|[X|[X|[X|[X|[X|[X|[X|[]]]]]]]]]; discriminate X).
  rewrite (@not_a_name t1 "nan"%string I1) in F
    by (cbn; intros [X|[X|[X|[]]]]; discriminate X).
  cbn [orb] in F.
  destruct (py_number t1) as [[[ip fp] r]|] eqn:N; [|discriminate F].
  pose proof (In_py_number _ N I1) as Ir.
  destruct (py_exponent r) as [[e rest]|] eqn:X; [|discriminate F].
  destruct rest; [|discriminate F].
  exact (py_exponent_rest _ X Ir).
Qed.

Lemma with_percent_signs_cons (k : nat) (a : ascii) (u : string) :
  with_percent_signs k (String a u) = String a (with_percent_signs k u).
Proof.
  induction k as [|k IH]; cbn [with_percent_signs]; [reflexivity|].
  rewrite IH. reflexivity.
Qed.

Lemma percent_signs_front (k : nat) :
  String "%" (with_percent_signs k EmptyString)
  = with_percent_signs (S k) EmptyString.
Proof.
  induction k as [|k IH]; [reflexivity|].
  cbn [with_percent_signs] in *.
  change (String "%" (with_percent_signs k EmptyString ++ "%"))
    with (String "%" (with_percent_signs k EmptyString) ++ "%")%string.
  rewrite IH. reflexivity.
Qed.

(** [rstrip('%')] takes the percent signs off the end, all of them and
    nothing else. *)
Lemma py_rstrip_percent (s : string) :
  ends_with "%" (py_rstrip "%" s) = false
  /\ exists k, s = with_percent_signs k (py_rstrip "%" s).
Proof.
  induction s as [|a t [E [k IH]]]; [split; [reflexivity|exists O; reflexivity]|].
  rewrite py_rstrip_cons.
  destruct (py_rstrip "%" t) as [|b u] eqn:R.
  - cbn [mem_char]. rewrite orb_false_r. destruct (Ascii.eqb a "%") eqn:A.
    + apply Ascii.eqb_eq in A. subst a. split; [reflexivity|].
      exists (S k). rewrite IH at 1. apply percent_signs_front.
    + split; [cbn [ends_with]; exact A|].
      exists k. rewrite with_percent_signs_cons. rewrite <- IH. reflexivity.
  - split; [exact E|].
    exists k. rewrite with_percent_signs_cons. rewrite <- IH. reflexivity.
Qed.

Lemma replace_percent_signs (k : nat) (t : string) :
  mem_char "%" t = false ->
  replace_from "%" EmptyString 0 (with_percent_signs k t) = t.
Proof.
  induction t as [|a u IH]; intros M.
  - induction k as [|k IHk]; [reflexivity|].
    rewrite <- percent_signs_front.
    cbn [replace_from String.prefix String.length Nat.sub append].
    destruct (ascii_dec "%" "%") as [_|N]; [|elim N; reflexivity].
    assert (forall x, String.prefix EmptyString x = true) as Pre
      by (intros [|? ?]; reflexivity).
    rewrite Pre. exact IHk.
  - cbn [mem_char] in M. apply orb_false_iff in M. destruct M as [A M].
    rewrite with_percent_signs_cons.
    cbn [replace_from String.prefix].
    destruct (ascii_dec "%" a) as [X|_].
    + subst a. discriminate A.
    + rewrite (IH M). reflexivity.
Qed.

(** X13.  When the loader accepts a click-rate cell, the cell is the text it
    converted followed by percent signs only, that text has no percent
    sign in it, and REPLACE in the trend query leaves the same text:
    the loader and the query convert the same characters. *)
Theorem accepted_click_rate_text (s : string) (v : pyfloat) :
  click_rate_percent (Some s) = Ok (Some v) ->
  let t := py_rstrip "%" s in
  py_float t = Some v
  /\ mem_char "%" t = false
  /\ (exists k, s = with_percent_signs k t)
  /\ sql_replace (Some s) "%" EmptyString = Some t.
Proof.
  intros E t. unfold click_rate_percent in E. fold t in E.
  destruct (py_float t) as [v'|] eqn:F; [|discriminate E].
  inversion E; subst v'. clear E.
  pose proof (py_float_no_percent _ F) as M.
  destruct (py_rstrip_percent s) as [_ [k S]]. fold t in S.
  split; [reflexivity|]. split; [exact M|]. split; [exists k; exact S|].
  unfold sql_replace. cbn [option_map String.eqb]. f_equal.
  rewrite S at 1. apply replace_percent_signs. exact M.
Qed.

Lemma accepted_click_rate_text_witness :
  sql_replace (Some "12.5%%"%string) "%" EmptyString = Some "12.5"%string
  /\ py_float "12.5" = Some (Finite (25 # 2)).
Proof.
  destruct (@accepted_click_rate_text "12.5%%" (Finite (25 # 2)) eq_refl)
    as [F [_ [_ R]]].
  split; [exact R|exact F].
Defined.
